(** * Warning-messages map: viewport query planner, rate limiter, clustering

    A shallow embedding of the pure logic of [App.js] (the map component of
    the warning-messages application) and the properties its design document
    states about it.

    Numbers.  Every JavaScript number is idealised as a real number: the
    arithmetic of the code is read exactly, without the rounding of IEEE
    doubles and without [NaN] and the infinities.  [Math.floor], [Math.ceil]
    and [Math.round] return integers, kept in [Z] and injected back with
    [IZR] where the code uses them as numbers.  Comparisons of the code are
    boolean tests built on the decidability of the order of [R].

    Built-ins whose results the language leaves to the engine
    ([Number(string)], [Date.parse], number-to-string conversion) are section
    variables of the functions that call them.

    Text.  A string is a sequence of ASCII characters; [toLowerCase] and
    [trim] are read on such text. *)

From Stdlib Require Import String Ascii DecimalString.
From Stdlib Require Import Reals Lra Lia ZArith List Bool.
From Stdlib Require Import Permutation Zfloor.
From Equations Require Import Equations.
Import ListNotations.

Open Scope R_scope.

(* ===================================================================== *)
(** * Part I: the embedding                                               *)
(* ===================================================================== *)

(** ** JavaScript number primitives *)

Definition Rleb (x y : R) : bool := if Rle_dec x y then true else false.
Definition Rltb (x y : R) : bool := if Rlt_dec x y then true else false.
Definition Reqb (x y : R) : bool := if Req_dec_T x y then true else false.

(** [Math.floor], [Math.ceil]; [Math.round] rounds halves towards +infinity. *)
Definition Math_floor (x : R) : Z := Zfloor x.
Definition Math_ceil (x : R) : Z := Zceil x.
Definition Math_round (x : R) : Z := Zfloor (x + / 2).

(** Truncation towards zero, and the remainder [a % b] built on it: the
    sign of the result follows the dividend. *)
Definition js_trunc (x : R) : Z := if Rle_dec 0 x then Zfloor x else Zceil x.
Definition js_rem (a b : R) : R := a - b * IZR (js_trunc (a / b)).

(** [2 ** z] at an integer exponent. *)
Definition pow2 (z : Z) : R := powerRZ 2 z.

(** ** Module constants of App.js *)

Definition MAX_WAZE_TILE_BOXES_PER_REQUEST : nat := 24.
Definition MIN_WAZE_FETCH_INTERVAL_MS : R := 2500.
Definition DEFAULT_WAZE_RETRY_AFTER_SEC : R := 30.
Definition POLICE_CLUSTER_RADIUS_METERS : R := 200.
Definition SPEED_RADAR_CLUSTER_RADIUS_METERS : R := 200.
Definition MIN_SPEED_RADAR_RENDER_ZOOM : R := 6.
Definition MAX_VISIBLE_SPEED_RADARS : Z := 8000.
Definition SPEED_RADAR_VIEW_PADDING_METERS : R := 50000.

(** ** GeoMath *)

Record GeoPoint : Type := mkGeo { lat : R; lng : R }.

(** [normalizeLng]: [((lng + 180) % 360 + 360) % 360 - 180], with [-180]
    replaced by [180]. *)
Definition normalizeLng (l : R) : R :=
  let n := js_rem (js_rem (l + 180) 360 + 360) 360 - 180 in
  if Reqb n (-180) then 180 else n.

Definition clampLat (la : R) : R := Rmax (Rmin la 85.05112878) (-85.05112878).

Definition toRad (deg : R) : R := (deg * PI) / 180.

Definition haversineMeters (a b : GeoPoint) : R :=
  let R0 := 6371000 in
  let dLat := toRad (lat b - lat a) in
  let dLng := toRad (lng b - lng a) in
  let lat1 := toRad (lat a) in
  let lat2 := toRad (lat b) in
  let sinDLat := sin (dLat / 2) in
  let sinDLng := sin (dLng / 2) in
  let h := sinDLat * sinDLat + cos lat1 * cos lat2 * sinDLng * sinDLng in
  2 * R0 * asin (Rmin 1 (sqrt h)).

(** WebMercator tile math (slippy map). *)
Definition lng2tileX (l : R) (z : Z) : Z :=
  let n := pow2 z in
  Math_floor (((l + 180) / 360) * n).

Definition lat2tileY (la : R) (z : Z) : Z :=
  let n := pow2 z in
  let latRad := (clampLat la * PI) / 180 in
  Math_floor (((1 - ln (tan latRad + 1 / cos latRad) / PI) / 2) * n).

Definition tileX2lng (x : Z) (z : Z) : R :=
  let n := pow2 z in
  (IZR x / n) * 360 - 180.

Definition tileY2lat (y : Z) (z : Z) : R :=
  let n := pow2 z in
  let rad := atan (sinh (PI * (1 - (2 * IZR y) / n))) in
  (rad * 180) / PI.

(** ** Leaflet's [LatLngBounds], as far as the code reads it

    A bounds object is its two corners, south-west and north-east.  The
    constructor [L.latLngBounds(c1, c2)] extends an empty box by each corner,
    so every edge is the minimum or maximum of the two coordinates;
    [getCenter] is the midpoint. *)

Record Bounds : Type := mkBounds { south : R; west : R; north : R; east : R }.

Definition getNorth (b : Bounds) : R := north b.
Definition getSouth (b : Bounds) : R := south b.
Definition getWest (b : Bounds) : R := west b.
Definition getEast (b : Bounds) : R := east b.

Definition getCenter (b : Bounds) : GeoPoint :=
  mkGeo ((south b + north b) / 2) ((west b + east b) / 2).

Definition L_latLngBounds (c1 c2 : R * R) : Bounds :=
  mkBounds (Rmin (fst c1) (fst c2)) (Rmin (snd c1) (snd c2))
           (Rmax (fst c1) (fst c2)) (Rmax (snd c1) (snd c2)).

(** The object [{ north, south, west, east }] shown in the panel. *)
Record DisplayBounds : Type := mkDisplay {
  db_north : R;
  db_south : R;
  db_west : R;
  db_east : R
}.

Definition getNormalizedBoundsForDisplay (bounds : option Bounds) : option DisplayBounds :=
  match bounds with
  | None => None
  | Some b =>
      Some (mkDisplay (getNorth b) (getSouth b)
                      (normalizeLng (getWest b)) (normalizeLng (getEast b)))
  end.

(** ** TileQueryPlanner: [buildWazeTileSnappedQuery] *)

Record TileBox : Type := mkBox { top : R; bottom : R; left : R; right : R }.

Record Span : Type := mkSpan { span_west : R; span_east : R }.

(** The object the function returns.  The early return for missing bounds
    has no [tileCount] property; the normal return spreads [computed] and so
    carries it. *)
Record QueryPlan : Type := mkPlan {
  requestBoxes : list TileBox;
  debugBoxes : list TileBox;
  tileCount : option nat;
  usedZoom : R
}.

Record Computed : Type := mkComputed {
  c_requestBoxes : list TileBox;
  c_debugBoxes : list TileBox;
  c_tileCount : nat
}.

(** The integers [lo, lo+1, ..., hi] that a loop
    [for (i = lo; i <= hi; i += 1)] visits, in order. *)
Definition zrange (lo hi : Z) : list Z :=
  map (fun i => (lo + Z.of_nat i)%Z) (seq 0 (Z.to_nat (hi - lo + 1))).

Section ComputeAtZoom.
Variables (northC southC : R) (zz : Z).

(** Avoid edge-case where east=180 maps to x=n (one past last tile). *)
Definition safeEastOf (sp : Span) : R :=
  if Rleb 180 (span_east sp) then 179.999999 else span_east sp.

(** Avoid edge-case where south hits the WebMercator extreme and maps
    outside the last tile row. *)
Definition safeSouthOf : R :=
  if Rleb southC (-85.05112878) then (-85.05112877) else southC.

Definition xMinOf (sp : Span) : Z := lng2tileX (span_west sp) zz.
Definition xMaxOf (sp : Span) : Z := lng2tileX (safeEastOf sp) zz.
Definition yMinOf : Z := lat2tileY northC zz.
Definition yMaxOf : Z := lat2tileY safeSouthOf zz.

(** Union box aligned to tile edges (one request per span). *)
Definition unionBox (sp : Span) : TileBox :=
  mkBox (tileY2lat yMinOf zz) (tileY2lat (yMaxOf + 1) zz)
        (tileX2lng (xMinOf sp) zz) (tileX2lng (xMaxOf sp + 1) zz).

(** The boxes pushed by the two nested loops over [x] and [y]. *)
Definition spanDebugBoxes (sp : Span) : list TileBox :=
  flat_map (fun x =>
    map (fun y => mkBox (tileY2lat y zz) (tileY2lat (y + 1) zz)
                        (tileX2lng x zz) (tileX2lng (x + 1) zz))
        (zrange yMinOf yMaxOf))
    (zrange (xMinOf sp) (xMaxOf sp)).

(** [computeAtZoom(zz)]: one union box and one run of tile boxes per
    span, in the order of the spans. *)
Definition computeAtZoom (spans : list Span) : Computed :=
  let dbg := flat_map spanDebugBoxes spans in
  mkComputed (map unionBox spans) dbg (length dbg).
End ComputeAtZoom.

(** The loop [while (computed.tileCount > MAX && z > 0) { z -= 1; ... }]:
    [z] is an integer between 0 and 22, and the recursion follows it down. *)
Fixpoint lowerZoom (compute : Z -> Computed) (z : nat) : nat * Computed :=
  let computed := compute (Z.of_nat z) in
  match z with
  | O => (z, computed)
  | S z' =>
      if Nat.ltb MAX_WAZE_TILE_BOXES_PER_REQUEST (c_tileCount computed)
      then lowerZoom compute z'
      else (z, computed)
  end.

Definition spansOf (w e : R) : list Span :=
  if Rltb e w then [mkSpan w 180; mkSpan (-180) e] else [mkSpan w e].

Definition clampZoom (zoom : R) : Z := Z.max 0 (Z.min 22 (Math_round zoom)).

Definition buildWazeTileSnappedQuery (bounds : option Bounds) (zoom : R) : QueryPlan :=
  match bounds with
  | None => mkPlan [] [] None zoom
  | Some b =>
      let northC := clampLat (getNorth b) in
      let southC := clampLat (getSouth b) in
      let w := normalizeLng (getWest b) in
      let e := normalizeLng (getEast b) in
      let spans := spansOf w e in
      let z := clampZoom zoom in
      let '(zf, computed) :=
        lowerZoom (fun zz => computeAtZoom northC southC zz spans) (Z.to_nat z) in
      mkPlan (c_requestBoxes computed) (c_debugBoxes computed)
             (Some (c_tileCount computed)) (IZR (Z.of_nat zf))
  end.

(** ** JSON values, as [res.json()] delivers them *)

Set Warnings "-register-all".
Inductive JsVal : Type :=
| JUndefined
| JNull
| JBool (b : bool)
| JNum (x : R)
| JStr (s : string)
| JArr (elems : list JsVal)
| JObj (fields : list (string * JsVal)).

(** Truthiness ([!v] is its negation): [undefined], [null], [false], [0] and
    the empty string are falsy, every array and object is truthy. *)
Definition truthy (v : JsVal) : bool :=
  match v with
  | JUndefined | JNull => false
  | JBool b => b
  | JNum x => negb (Reqb x 0)
  | JStr s => negb (String.eqb s EmptyString)
  | JArr _ | JObj _ => true
  end.

(** ** Points and alerts *)

(** A row of the static speed-camera dataset: [{ id, lat, lng, desc }]. *)
Record RadarPoint : Type := mkRadar {
  rp_id : string;
  rp_lat : R;
  rp_lng : R;
  rp_desc : string
}.

(** An element of the [alerts] array of the alert feed.  Text fields are a
    string or missing, [pubMillis] a number or missing; the two coordinates
    of [location] are arbitrary JSON values, [None] when the alert has no
    [location] object at all. *)
Record RawAlert : Type := mkRaw {
  ra_uuid : option string;
  ra_id : option string;
  ra_type : option string;
  ra_subtype : option string;
  ra_street : option string;
  ra_city : option string;
  ra_pubMillis : option R;
  ra_location : option (JsVal * JsVal)
}.

(** The alert shape the fetch effect publishes. *)
Record Alert : Type := mkAlert {
  al_id : string;
  al_uuid : option string;
  al_type : string;
  al_subtype : string;
  al_street : string;
  al_city : string;
  al_pubMillis : option R;
  al_location : GeoPoint;
  al_raw : RawAlert
}.

(** ** PointClusterer *)

(** The [id] of a cluster is [primary?.id] when that is truthy, and
    otherwise the text [`${center.lat}-${center.lng}-${cluster.length}`],
    kept here as its three ingredients. *)
Inductive ClusterId : Type :=
| PrimaryId (s : string)
| SynthId (c : GeoPoint) (n : nat).

Record Cluster (T : Type) : Type := mkCluster {
  cl_id : ClusterId;
  center : GeoPoint;
  primary : option T;
  count : nat;
  items : list T
}.
Arguments mkCluster {T}.
Arguments cl_id {T}.
Arguments center {T}.
Arguments primary {T}.
Arguments count {T}.
Arguments items {T}.

Definition inspect {A : Type} (a : A) : {b : A | a = b} := exist _ a eq_refl.

(** The two clusterers of App.js run the same loops and differ in how a
    member's coordinates are read and in the choice of [primary]; the loops
    are stated once, over the coordinate reader [locOf]. *)
Section Greedy.
Context {T : Type}.
Variable locOf : T -> GeoPoint.
Variable radiusMeters : R.

(** [cluster.some((p) => haversineMeters(p, candidate) <= radiusMeters)] *)
Definition nearAny (cluster : list T) (candidate : T) : bool :=
  existsb (fun p => Rleb (haversineMeters (locOf p) (locOf candidate)) radiusMeters)
          cluster.

(** One iteration of [for (let i = remaining.length - 1; i >= 0; i -= 1)]:
    the state is the cluster so far, the candidates already passed over and
    kept, and the flag [changed]. *)
Definition absorbStep (candidate : T) (st : list T * list T * bool)
  : list T * list T * bool :=
  let '(cluster, kept, changed) := st in
  if nearAny cluster candidate
  then (cluster ++ [candidate], kept, true)
  else (cluster, candidate :: kept, changed).

(** A whole pass of the [for] loop, from the last remaining point to the
    first ([fold_right] feeds the last element first). *)
Definition absorbPass (cluster remaining : list T) : list T * list T * bool :=
  fold_right absorbStep (cluster, [], false) remaining.

Lemma absorbPass_length (cluster remaining : list T) :
  let '(cl, kept, changed) := absorbPass cluster remaining in
  (length kept <= length remaining)%nat /\
  (changed = true -> (length kept < length remaining)%nat).
Proof.
  unfold absorbPass. induction remaining as [|x xs IH]; simpl.
  - split; [lia|discriminate].
  - destruct (fold_right absorbStep (cluster, [], false) xs) as [[cl kept] ch].
    unfold absorbStep. destruct (nearAny cl x); simpl; destruct IH; split; intros; try lia.
    specialize (H0 H1). lia.
Qed.

(** [while (changed) { changed = false; ...pass... }]: a pass that absorbs
    something leaves fewer points, so the loop ends. *)
Equations? absorbAll (cluster remaining : list T) : list T * list T
  by wf (length remaining) lt :=
  absorbAll cluster remaining with inspect (absorbPass cluster remaining) := {
    | exist _ (cl, kept, true) e := absorbAll cl kept;
    | exist _ (cl, kept, false) e := (cl, kept) }.
Proof.
  pose proof (absorbPass_length cluster remaining) as H.
  rewrite e in H. apply H. reflexivity.
Qed.

(** [remaining.pop()]: the last element, and the array without it. *)
Definition pop (l : list T) : option (T * list T) :=
  match rev l with
  | [] => None
  | x :: r => Some (x, rev r)
  end.

Lemma absorbAll_length (cluster remaining : list T) :
  (length (snd (absorbAll cluster remaining)) <= length remaining)%nat.
Proof.
  funelim (absorbAll cluster remaining).
  - pose proof (absorbPass_length cluster remaining) as HL. rewrite e in HL.
    destruct HL as [HL _]. lia.
  - pose proof (absorbPass_length cluster remaining) as HL. rewrite e in HL.
    simpl. lia.
Qed.

Lemma pop_length (l : list T) (x : T) (r : list T) :
  pop l = Some (x, r) -> length l = S (length r).
Proof.
  unfold pop. destruct (rev l) as [|y ys] eqn:E; [discriminate|].
  intros H. injection H as <- <-.
  rewrite <- (length_rev l), E. simpl. now rewrite length_rev.
Qed.

(** [while (remaining.length) { seed = remaining.pop(); ... }]: the member
    arrays of the clusters, in the order they are pushed. *)
Equations? clusterGroups (remaining : list T) : list (list T)
  by wf (length remaining) lt :=
  clusterGroups remaining with inspect (pop remaining) := {
    | exist _ None _ := [];
    | exist _ (Some (seed, rest)) e :=
        fst (absorbAll [seed] rest) :: clusterGroups (snd (absorbAll [seed] rest)) }.
Proof.
  pose proof (absorbAll_length [seed] rest).
  apply pop_length in e. lia.
Qed.

(** Center as average lat/lng: the [reduce] from [{ lat: 0, lng: 0 }],
    then the two divisions by [cluster.length]. *)
Definition centerOf (cluster : list T) : GeoPoint :=
  let acc :=
    fold_left (fun acc p => mkGeo (lat acc + lat (locOf p)) (lng acc + lng (locOf p)))
              cluster (mkGeo 0 0) in
  mkGeo (lat acc / INR (length cluster)) (lng acc / INR (length cluster)).

End Greedy.

Definition radarLoc (p : RadarPoint) : GeoPoint := mkGeo (rp_lat p) (rp_lng p).

(** [primary?.id || `${center.lat}-${center.lng}-${cluster.length}`] *)
Definition clusterIdOf (primaryId : option string) (c : GeoPoint) (n : nat) : ClusterId :=
  match primaryId with
  | Some s => if String.eqb s EmptyString then SynthId c n else PrimaryId s
  | None => SynthId c n
  end.

Definition clusterPoints (points : list RadarPoint) (radiusMeters : R)
  : list (Cluster RadarPoint) :=
  map (fun cluster =>
         let c := centerOf radarLoc cluster in
         let primary := hd_error cluster in
         mkCluster (clusterIdOf (option_map rp_id primary) c (length cluster))
                   c primary (length cluster) cluster)
      (clusterGroups radarLoc radiusMeters points).

(** [x?.pubMillis || 0] *)
Definition pubMillisOr0 (a : option Alert) : R :=
  match a with
  | Some p => match al_pubMillis p with Some t => t | None => 0 end
  | None => 0
  end.

(** Primary (for popup details): latest [pubMillis], the later member
    winning a tie. *)
Definition latestAlert (cluster : list Alert) : option Alert :=
  fold_left (fun best cur =>
               if Rleb (pubMillisOr0 best) (pubMillisOr0 (Some cur))
               then Some cur else best)
            cluster (hd_error cluster).

Definition clusterPoliceAlerts (alerts : list Alert) (radiusMeters : R)
  : list (Cluster Alert) :=
  map (fun cluster =>
         let c := centerOf al_location cluster in
         let primary := latestAlert cluster in
         mkCluster (clusterIdOf (option_map al_id primary) c (length cluster))
                   c primary (length cluster) cluster)
      (clusterGroups al_location radiusMeters alerts).

(** The [policeClusters] memo. *)
Definition policeClusters (policeAlerts0 : list Alert) : list (Cluster Alert) :=
  clusterPoliceAlerts policeAlerts0 POLICE_CLUSTER_RADIUS_METERS.

(** ** ViewportPointFilter *)

Definition isPointInBounds (point : GeoPoint) (bounds : option Bounds) : bool :=
  match bounds with
  | None => false
  | Some b =>
      let n := getNorth b in
      let s := getSouth b in
      let w := normalizeLng (getWest b) in
      let e := normalizeLng (getEast b) in
      if Rltb n (lat point) || Rltb (lat point) s then false
      else
        let l := normalizeLng (lng point) in
        (* Handle dateline crossing *)
        if Rltb e w then Rleb w l || Rleb l e
        else Rleb w l && Rleb l e
  end.

Definition isPointInBoundsPadded (point : GeoPoint) (bounds : option Bounds)
           (padMeters : R) : bool :=
  match bounds with
  | None => false
  | Some b =>
      let c := getCenter b in
      let latPad := padMeters / 111320 in
      let lngPad := padMeters / (111320 * Rmax 0.15 (cos ((lat c * PI) / 180))) in
      let padded :=
        L_latLngBounds (getSouth b - latPad, getWest b - lngPad)
                       (getNorth b + latPad, getEast b + lngPad) in
      isPointInBounds point (Some padded)
  end.

(** The value of the [speedRadarsInView] memo. *)
Record RadarView : Type := mkView {
  clusters : list (Cluster RadarPoint);
  inViewCount : Z;
  tooMany : bool
}.

(** The loop [for (const p of active)], with its early return. *)
Fixpoint scanRadars (mapBounds : option Bounds) (active visible : list RadarPoint)
         (inViewCount : Z) : RadarView :=
  match active with
  | [] =>
      mkView (clusterPoints visible SPEED_RADAR_CLUSTER_RADIUS_METERS) inViewCount false
  | p :: rest =>
      if isPointInBoundsPadded (radarLoc p) mapBounds SPEED_RADAR_VIEW_PADDING_METERS
      then
        let inViewCount := (inViewCount + 1)%Z in
        let visible :=
          if (Z.of_nat (length visible) <=? MAX_VISIBLE_SPEED_RADARS)%Z
          then visible ++ [p] else visible in
        if (MAX_VISIBLE_SPEED_RADARS <? inViewCount)%Z
        then mkView [] inViewCount true
        else scanRadars mapBounds rest visible inViewCount
      else scanRadars mapBounds rest visible inViewCount
  end.

Definition speedRadarsInView (showSpeedRadars : bool) (mapBounds : option Bounds)
           (mapZoom : R) (speedRadarsWorldLoading : bool)
           (speedRadarsWorld : list RadarPoint) : RadarView :=
  let active := speedRadarsWorld in
  if negb showSpeedRadars then mkView [] 0 false
  else match mapBounds with
  | None => mkView [] 0 false
  | Some _ =>
      if Rltb mapZoom MIN_SPEED_RADAR_RENDER_ZOOM then mkView [] 0 false
      else if speedRadarsWorldLoading then mkView [] 0 false
      else scanRadars mapBounds active [] 0
  end.

(** ** Strings *)

Definition lowerAscii (c : ascii) : ascii :=
  let n := nat_of_ascii c in
  if (Nat.leb 65 n && Nat.leb n 90)%bool then ascii_of_nat (n + 32) else c.

(** [s.toLowerCase()], on ASCII text. *)
Fixpoint toLowerCase (s : string) : string :=
  match s with
  | EmptyString => EmptyString
  | String c rest => String (lowerAscii c) (toLowerCase rest)
  end.

(** [hay.includes(needle)] *)
Fixpoint includes (needle hay : string) : bool :=
  (String.prefix needle hay
   || match hay with
      | EmptyString => false
      | String _ rest => includes needle rest
      end)%bool.

(** [value || dflt] for a text field that is a string or missing. *)
Definition orString (value : option string) (dflt : string) : string :=
  match value with
  | Some s => if String.eqb s EmptyString then dflt else s
  | None => dflt
  end.

(** [value || null] for a text field. *)
Definition orNull (value : option string) : option string :=
  match value with
  | Some s => if String.eqb s EmptyString then None else Some s
  | None => None
  end.

(** ** JavaScript's [Map], as the code uses it

    A map keeps its keys in the order of their first insertion; setting a
    key that is present replaces the value and keeps the position. *)

Fixpoint Map_set {V : Type} (k : string) (v : V) (m : list (string * V))
  : list (string * V) :=
  match m with
  | [] => [(k, v)]
  | (k', v') :: m' =>
      if String.eqb k k' then (k', v) :: m' else (k', v') :: Map_set k v m'
  end.

(** [new Map(entries)] *)
Definition Map_of {V : Type} (entries : list (string * V)) : list (string * V) :=
  fold_left (fun m e => Map_set (fst e) (snd e) m) entries [].

Fixpoint Map_get {V : Type} (k : string) (m : list (string * V)) : option V :=
  match m with
  | [] => None
  | (k', v) :: m' => if String.eqb k k' then Some v else Map_get k m'
  end.

(** [Array.from(m.values())] *)
Definition Map_values {V : Type} (m : list (string * V)) : list V := map snd m.

(** ** SpeedRadarDataset: [parseSpeedRadarCsv]

    The dataset is ASCII text; a character is an [ascii]. *)

Definition isLF (c : ascii) : bool := Ascii.eqb c "010"%char.
Definition isCR (c : ascii) : bool := Ascii.eqb c "013"%char.

(** The character is put in front of the first piece. *)
Definition consHead (c : ascii) (pieces : list string) : list string :=
  match pieces with
  | [] => [String c EmptyString]
  | piece :: more => String c piece :: more
  end.

(** [text.split(/\r?\n/)]: a separator is a line feed, together with the
    carriage return before it when there is one. *)
Fixpoint splitLines (text : string) : list string :=
  match text with
  | EmptyString => [EmptyString]
  | String c rest =>
      if isLF c then EmptyString :: splitLines rest
      else
        match rest with
        | String c' rest' =>
            if (isCR c && isLF c')%bool then EmptyString :: splitLines rest'
            else consHead c (splitLines rest)
        | EmptyString => consHead c (splitLines rest)
        end
  end.

(** The white space [trim] removes: tab, line feed, vertical tab, form
    feed, carriage return and space. *)
Definition isWhite (c : ascii) : bool :=
  let n := nat_of_ascii c in
  ((Nat.leb 9 n && Nat.leb n 13) || Nat.eqb n 32)%bool.

Fixpoint trimStart (s : string) : string :=
  match s with
  | EmptyString => EmptyString
  | String c rest => if isWhite c then trimStart rest else s
  end.

Fixpoint trimEnd (s : string) : string :=
  match s with
  | EmptyString => EmptyString
  | String c rest =>
      match trimEnd rest with
      | EmptyString => if isWhite c then EmptyString else String c EmptyString
      | String c' rest' => String c (String c' rest')
      end
  end.

(** [s.trim()] *)
Definition trim (s : string) : string := trimEnd (trimStart s).

(** For [i = s.indexOf(c)]: [None] when [i < 0], and otherwise the two
    texts [s.slice(0, i)] and [s.slice(i + 1)]. *)
Fixpoint cut (c : ascii) (s : string) : option (string * string) :=
  match s with
  | EmptyString => None
  | String a rest =>
      if Ascii.eqb a c then Some (EmptyString, rest)
      else match cut c rest with
           | Some (before, after) => Some (String a before, after)
           | None => None
           end
  end.

(** [rest.match(/\[([^\]]+)\]/)]: [None] for no match, otherwise the
    group of the leftmost match.  At an opening bracket the group can only
    be the whole run of characters other than the closing bracket that
    follows it, and the match succeeds there when that run is not empty and
    a closing bracket ends it; otherwise the search goes on with the next
    character. *)
Fixpoint matchId (s : string) : option string :=
  match s with
  | EmptyString => None
  | String a rest =>
      if Ascii.eqb a "["%char then
        match cut "]"%char rest with
        | Some (String g group, _) => Some (String g group)
        | _ => matchId rest
        end
      else matchId rest
  end.

(** The double quote. *)
Definition dquote : ascii := "034"%char.

(** [desc.startsWith(q)] and [desc.endsWith(q)] for the one-character
    text [q] of a double quote. *)
Definition startsWithQuote (s : string) : bool :=
  match s with
  | EmptyString => false
  | String a _ => Ascii.eqb a dquote
  end.

Fixpoint endsWithQuote (s : string) : bool :=
  match s with
  | EmptyString => false
  | String a EmptyString => Ascii.eqb a dquote
  | String _ rest => endsWithQuote rest
  end.

(** [desc.slice(1, -1)] *)
Definition sliceInner (s : string) : string :=
  String.substring 1 (String.length s - 2) s.

Section SpeedRadarCsv.
(** [Number(v)] where [Number.isFinite] accepts the result, [None] where
    it does not. *)
Variable Number : string -> option R.

(** The body of [for (const line of lines)]: [None] where it says
    [continue], otherwise the point it pushes. *)
Definition parseLine (line : string) : option RadarPoint :=
  match cut ","%char line with
  | None => None
  | Some (lngField, afterFirst) =>
      match cut ","%char afterFirst with
      | None => None
      | Some (latField, rest) =>
          (* Format seems to be: lng,lat,<desc...>[,]<[id]>... *)
          let lngStr := trim lngField in
          let latStr := trim latField in
          match Number latStr, Number lngStr with
          | Some lat0, Some lng0 =>
              match matchId rest with
              | None => None
              | Some group =>
                  let id := trim group in
                  let desc :=
                    match cut "["%char rest with
                    | Some (before, _) => trim before
                    | None => EmptyString
                    end in
                  let desc :=
                    if (startsWithQuote desc && endsWithQuote desc)%bool
                    then sliceInner desc else desc in
                  Some (mkRadar id lat0 lng0 desc)
              end
          | _, _ => None
          end
      end
  end.

Definition parseSpeedRadarCsv (text : string) : list RadarPoint :=
  let lines :=
    filter (fun l => negb (String.eqb l EmptyString)) (map trim (splitLines text)) in
  let points :=
    flat_map (fun line => match parseLine line with Some p => [p] | None => [] end)
             lines in
  let byId := Map_of (map (fun p => (rp_id p, p)) points) in
  Map_values byId.
End SpeedRadarCsv.

(** ** QueryDeduplicator + RateLimiter: [parseRetryAfterToMs] *)

Section RetryAfter.
(** [Number(v)]: [Some x] when the result is the finite number [x], [None]
    when it is [NaN] or infinite.  [Date.parse(v)]: [None] for [NaN]. *)
Variable Number : string -> option R.
Variable Date_parse : string -> option R.

(** The header is [null] ([None]) or a string; [dateNow] is what
    [Date.now()] returns inside the function. *)
Definition parseRetryAfterToMs (retryAfterValue : option string) (dateNow : R) : R :=
  match retryAfterValue with
  | None => DEFAULT_WAZE_RETRY_AFTER_SEC * 1000
  | Some v =>
      if String.eqb v EmptyString then DEFAULT_WAZE_RETRY_AFTER_SEC * 1000
      else
        let viaDate :=
          match Date_parse v with
          | Some asDate => Rmax 0 (asDate - dateNow)
          | None => DEFAULT_WAZE_RETRY_AFTER_SEC * 1000
          end in
        match Number v with
        | Some asNumber => if Rltb 0 asNumber then asNumber * 1000 else viaDate
        | None => viaDate
        end
  end.
End RetryAfter.

(** ** AlertFetchOrchestrator: the police fetch effect *)

Definition inferWazeEnvFromBounds (bounds : option Bounds) : string :=
  match bounds with
  | None => "na"
  | Some b =>
      let c := getCenter b in
      let la := lat c in
      let l := normalizeLng (lng c) in
      (* Heuristic: North America longitudes roughly [-170, -30] *)
      if (Rleb l (-30) && Rleb (-170) l && Rleb 5 la && Rleb la 85)%bool
      then "na" else "row"
  end.

Definition isPoliceAlert (alert : RawAlert) : bool :=
  let type := toLowerCase (orString (ra_type alert) EmptyString) in
  let subtype := toLowerCase (orString (ra_subtype alert) EmptyString) in
  (includes "police" type || includes "police" subtype)%bool.

(** One element of [requestBoxes] turned into a request: the query
    parameters of the URL rather than its text. *)
Record Request : Type := mkRequest {
  rq_env : string;
  rq_top : R;
  rq_bottom : R;
  rq_left : R;
  rq_right : R
}.

Definition buildWazeAlertsUrlsFromBoxes (boxes : list TileBox) (env : string)
  : list Request :=
  map (fun b => mkRequest (orString (Some env) "na") (top b) (bottom b) (left b) (right b))
      boxes.

(** [Number(x.toFixed(5))]: [x] rounded to five decimals, halves away from
    zero. *)
Definition toFixed5 (x : R) : R :=
  if Rltb x 0
  then - (IZR (Zfloor (- x * 100000 + / 2)) / 100000)
  else IZR (Zfloor (x * 100000 + / 2)) / 100000.

(** The query key is the text [JSON.stringify(boxes) + "|env=" + env]; two
    such texts are equal exactly when the rounded boxes and the tags are,
    and the key is kept as that pair.  The initial key, the empty string,
    is [None]. *)
Record QueryKey : Type := mkKey { qk_boxes : list TileBox; qk_env : string }.

Definition roundedBox (b : TileBox) : TileBox :=
  mkBox (toFixed5 (top b)) (toFixed5 (bottom b)) (toFixed5 (left b)) (toFixed5 (right b)).

Definition box_eqb (a b : TileBox) : bool :=
  (Reqb (top a) (top b) && Reqb (bottom a) (bottom b)
   && Reqb (left a) (left b) && Reqb (right a) (right b))%bool.

Fixpoint boxes_eqb (l1 l2 : list TileBox) : bool :=
  match l1, l2 with
  | [], [] => true
  | a :: r1, b :: r2 => (box_eqb a b && boxes_eqb r1 r2)%bool
  | _, _ => false
  end.

Definition sameKey (k : QueryKey) (last : option QueryKey) : bool :=
  match last with
  | None => false
  | Some k' => (boxes_eqb (qk_boxes k) (qk_boxes k') && String.eqb (qk_env k) (qk_env k'))%bool
  end.

(** [policeError]: the empty string, one of the two rate-limit notices
    ["Rate limited by Waze (429). Retrying in ~${waitSec}s..."] with its
    number of seconds, or any other text. *)
Inductive PoliceError : Type :=
| NoError
| RateLimitedNotice (waitSec : Z)
| ErrorText (message : string).

(** The three refs and the four state cells of the effect. *)
Record PoliceState : Type := mkPolice {
  policeBackoffUntil : R;
  policeLastFetchAt : R;
  policeLastQueryKey : option QueryKey;
  policeAlerts : list Alert;
  policeLoading : bool;
  policeError : PoliceError;
  policeLastUpdatedAt : option R
}.

Definition setBackoffUntil (v : R) (st : PoliceState) : PoliceState :=
  mkPolice v (policeLastFetchAt st) (policeLastQueryKey st) (policeAlerts st)
           (policeLoading st) (policeError st) (policeLastUpdatedAt st).
Definition setLastFetchAt (v : R) (st : PoliceState) : PoliceState :=
  mkPolice (policeBackoffUntil st) v (policeLastQueryKey st) (policeAlerts st)
           (policeLoading st) (policeError st) (policeLastUpdatedAt st).
Definition setLastQueryKey (v : option QueryKey) (st : PoliceState) : PoliceState :=
  mkPolice (policeBackoffUntil st) (policeLastFetchAt st) v (policeAlerts st)
           (policeLoading st) (policeError st) (policeLastUpdatedAt st).
Definition setPoliceAlerts (v : list Alert) (st : PoliceState) : PoliceState :=
  mkPolice (policeBackoffUntil st) (policeLastFetchAt st) (policeLastQueryKey st) v
           (policeLoading st) (policeError st) (policeLastUpdatedAt st).
Definition setPoliceLoading (v : bool) (st : PoliceState) : PoliceState :=
  mkPolice (policeBackoffUntil st) (policeLastFetchAt st) (policeLastQueryKey st)
           (policeAlerts st) v (policeError st) (policeLastUpdatedAt st).
Definition setPoliceError (v : PoliceError) (st : PoliceState) : PoliceState :=
  mkPolice (policeBackoffUntil st) (policeLastFetchAt st) (policeLastQueryKey st)
           (policeAlerts st) (policeLoading st) v (policeLastUpdatedAt st).
Definition setPoliceLastUpdatedAt (v : option R) (st : PoliceState) : PoliceState :=
  mkPolice (policeBackoffUntil st) (policeLastFetchAt st) (policeLastQueryKey st)
           (policeAlerts st) (policeLoading st) (policeError st) v.

(** What [run] has done when it reaches its first [await], or returns
    before it: the state it leaves and the requests it has issued. *)
Inductive CycleStart : Type :=
| Returned (st : PoliceState)
| Awaiting (st : PoliceState) (requests : list Request).

Definition issuedRequests (c : CycleStart) : list Request :=
  match c with
  | Returned _ => []
  | Awaiting _ requests => requests
  end.

Definition stateAfterStart (c : CycleStart) : PoliceState :=
  match c with
  | Returned st => st
  | Awaiting st _ => st
  end.

(** [run], from its start to the first [await]; [now] is the reading of
    [Date.now()] on its first line. *)
Definition run_start (now : R) (wazeEnvMode : string) (mapBounds : Bounds)
           (mapZoom : R) (st : PoliceState) : CycleStart :=
  if Rltb now (policeBackoffUntil st) then
    let waitSec := Math_ceil ((policeBackoffUntil st - now) / 1000) in
    Returned (setPoliceLoading false (setPoliceError (RateLimitedNotice waitSec) st))
  else if Rltb (now - policeLastFetchAt st) MIN_WAZE_FETCH_INTERVAL_MS then
    (* Too soon since last successful attempt; skip to avoid 429. *)
    Returned st
  else
    let st := setPoliceError NoError (setPoliceLoading true st) in
    let env :=
      if String.eqb wazeEnvMode "auto"
      then inferWazeEnvFromBounds (Some mapBounds) else wazeEnvMode in
    let boxes := requestBoxes (buildWazeTileSnappedQuery (Some mapBounds) mapZoom) in
    let queryKey := mkKey (map roundedBox boxes) env in
    if sameKey queryKey (policeLastQueryKey st) then
      (* No meaningful change in snapped bbox; avoid hammering. *)
      Returned (setPoliceLoading false st)
    else
      Awaiting (setLastQueryKey (Some queryKey) st)
               (buildWazeAlertsUrlsFromBoxes boxes env).

(** A response, as far as the effect reads it: [ok], [status], the
    [retry-after] header, and what [json()] gives: a rejection, or a body
    whose [alerts] property is an array ([Some]) or is not ([None]). *)
Inductive JsonBody : Type :=
| JsonRejected (message : string)
| JsonData (alerts : option (list RawAlert)).

Record Response : Type := mkResponse {
  res_ok : bool;
  res_status : nat;
  res_retryAfter : option string;
  res_json : JsonBody
}.

Inductive FetchOutcome : Type :=
| FetchRejected (message : string)
| FetchResolved (responses : list Response).

(** The readings of [Date.now()] after the first [await], in the order of
    the lines that take them. *)
Record Clock : Type := mkClock {
  nowParse : R;     (* inside parseRetryAfterToMs *)
  nowBackoff : R;   (* policeBackoffUntilRef.current = Date.now() + backoffMs *)
  nowCatch : R;     (* in the catch block *)
  nowUpdated : R;   (* setPoliceLastUpdatedAt(Date.now()) *)
  nowFetched : R    (* policeLastFetchAtRef.current = Date.now() *)
}.

(** [payloads.flatMap(...)], or the message of the first [json()] that
    rejects. *)
Fixpoint collectAlerts (responses : list Response) : string + list RawAlert :=
  match responses with
  | [] => inr []
  | r :: rest =>
      match res_json r with
      | JsonRejected m => inl m
      | JsonData alerts =>
          match collectAlerts rest with
          | inl m => inl m
          | inr more =>
              inr (match alerts with Some l => l | None => [] end ++ more)
          end
      end
  end.

Section PoliceFeed.
Variable Number : string -> option R.
Variable Date_parse : string -> option R.
(** The conversion of a number inside a template literal. *)
Variable Number_toString : R -> string.

(** [a?.pubMillis || ''] inside the template. *)
Definition pubMillisText (t : option R) : string :=
  match t with
  | Some x => if Reqb x 0 then EmptyString else Number_toString x
  | None => EmptyString
  end.

(** [`${a?.type || 'unknown'}-${lng}-${lat}-${a?.pubMillis || ''}`] *)
Definition compositeId (a : RawAlert) (lng0 lat0 : R) : string :=
  (orString (ra_type a) "unknown" ++ "-" ++ Number_toString lng0 ++ "-"
     ++ Number_toString lat0 ++ "-" ++ pubMillisText (ra_pubMillis a))%string.

(** [a?.uuid || a?.id || `...`] *)
Definition alertId (a : RawAlert) (lng0 lat0 : R) : string :=
  match orNull (ra_uuid a) with
  | Some u => u
  | None =>
      match orNull (ra_id a) with
      | Some i => i
      | None => compositeId a lng0 lat0
      end
  end.

(** The callback of [.map]: [None] is its [null], returned unless both
    [typeof lat] and [typeof lng] are ['number']. *)
Definition toAlert (a : RawAlert) : option Alert :=
  match ra_location a with
  | Some (JNum lng0, JNum lat0) =>
      Some (mkAlert (alertId a lng0 lat0)
                    (orNull (ra_uuid a))
                    (orString (ra_type a) EmptyString)
                    (orString (ra_subtype a) EmptyString)
                    (orString (ra_street a) EmptyString)
                    (orString (ra_city a) EmptyString)
                    (match ra_pubMillis a with
                     | Some t => if Reqb t 0 then None else Some t
                     | None => None
                     end)
                    (mkGeo lat0 lng0)
                    a)
  | _ => None
  end.

(** [alerts.filter(isPoliceAlert).map(...).filter(Boolean)] *)
Definition policeOf (alerts : list RawAlert) : list Alert :=
  flat_map (fun a => match toAlert a with Some p => [p] | None => [] end)
           (filter isPoliceAlert alerts).

(** Dedupe by id/uuid: [Array.from(new Map(police.map((p) => [p.id, p])).values())] *)
Definition dedupeById (police : list Alert) : list Alert :=
  Map_values (Map_of (map (fun p => (al_id p, p)) police)).

Definition publishedPolice (alerts : list RawAlert) : list Alert :=
  dedupeById (policeOf alerts).

(** The body of [try] after the first [await]: the state it leaves, and
    either the message of the error it throws or the alerts it collected. *)
Definition afterFetch (clock : Clock) (outcome : FetchOutcome) (st : PoliceState)
  : PoliceState * (string + list RawAlert) :=
  match outcome with
  | FetchRejected m => (st, inl m)
  | FetchResolved responses =>
      match find (fun res => negb (res_ok res)) responses with
      | Some res =>
          if Nat.eqb (res_status res) 429 then
            let retryAfter := res_retryAfter res in
            let backoffMs :=
              parseRetryAfterToMs Number Date_parse retryAfter (nowParse clock) in
            (setBackoffUntil (nowBackoff clock + backoffMs) st,
             inl "Waze rate limit hit (429)"%string)
          else
            (st, inl ("Waze request failed ("
                        ++ NilZero.string_of_uint (Nat.to_uint (res_status res))
                        ++ ")")%string)
      | None => (st, collectAlerts responses)
      end
  end.

(** [run] after the first [await]; [aborted] is [controller.signal.aborted]
    as the code then reads it. *)
Definition run_finish (aborted : bool) (clock : Clock) (outcome : FetchOutcome)
           (st : PoliceState) : PoliceState :=
  let '(st, result) := afterFetch clock outcome st in
  let st :=
    match result with
    | inr alerts =>
        if negb aborted then
          setLastFetchAt (nowFetched clock)
            (setPoliceLastUpdatedAt (Some (nowUpdated clock))
               (setPoliceAlerts (publishedPolice alerts) st))
        else st
    | inl message =>
        if aborted then st
        else if includes "429" message then
          let waitSec := Math_ceil ((policeBackoffUntil st - nowCatch clock) / 1000) in
          setPoliceError (RateLimitedNotice (Z.max waitSec 1)) st
        else
          setPoliceError
            (ErrorText (if String.eqb message EmptyString
                        then "Failed to load police alerts"%string else message))
            st
    end in
  (* finally *)
  if negb aborted then setPoliceLoading false st else st.
End PoliceFeed.

(** ** The primary warning feed: [fetchWarnings] *)

(** The value of an own property of an object; [undefined] when it has
    none of that name. *)
Fixpoint js_get (key : string) (fields : list (string * JsVal)) : JsVal :=
  match fields with
  | [] => JUndefined
  | (k, v) :: rest => if String.eqb key k then v else js_get key rest
  end.

(** [v.key] for a property name other than [length]: only objects have
    such a property. *)
Definition prop (key : string) (v : JsVal) : JsVal :=
  match v with
  | JObj fields => js_get key fields
  | _ => JUndefined
  end.

(** [v.length] *)
Definition js_length (v : JsVal) : JsVal :=
  match v with
  | JArr elems => JNum (INR (length elems))
  | JStr s => JNum (INR (String.length s))
  | JObj fields => js_get "length" fields
  | _ => JUndefined
  end.

(** [v === 2] *)
Definition isTwo (v : JsVal) : bool :=
  match v with
  | JNum x => Reqb x 2
  | _ => false
  end.

Record Warning : Type := mkWarning {
  w_id : string;
  w_userId : JsVal;
  w_url : JsVal;
  w_point : JsVal;
  w_created : JsVal
}.

(** The negation of [!item || !item.point || item.point.length !== 2]. *)
Definition passesShapeCheck (item : JsVal) : bool :=
  (truthy item && truthy (prop "point" item)
   && isTwo (js_length (prop "point" item)))%bool.

Section Warnings.
(** The conversion of a value inside a template literal. *)
Variable ToString : JsVal -> string.

(** [`${item.userId}-${item.url}-${item.created}`] *)
Definition warningId (item : JsVal) : string :=
  (ToString (prop "userId" item) ++ "-" ++ ToString (prop "url" item) ++ "-"
     ++ ToString (prop "created" item))%string.

(** The updater passed to [setWarnings]. *)
Definition nextWarnings (data : list JsVal) (prev : list Warning) : list Warning :=
  let prevById := Map_of (map (fun w => (w_id w, w)) prev) in
  flat_map
    (fun item =>
       if passesShapeCheck item then
         let id := warningId item in
         let existing := Map_get id prevById in
         [match existing with
          | Some w => w
          | None => mkWarning id (prop "userId" item) (prop "url" item)
                              (prop "point" item) (prop "created" item)
          end]
       else [])
    data.

(** What one poll finds: the request fails, or a response with its [ok]
    flag and its parsed body ([None] when [json()] rejects). *)
Inductive WarningsPoll : Type :=
| PollFailed
| PollResponse (ok : bool) (body : option JsVal).

Definition fetchWarnings (AUTH_TOKEN : option string) (isMounted : bool)
           (poll : WarningsPoll) (warnings : list Warning) : list Warning :=
  match orNull AUTH_TOKEN with
  | None => warnings
  | Some _ =>
      match poll with
      | PollResponse true (Some (JArr data)) =>
          if isMounted then nextWarnings data warnings else warnings
      | _ => warnings
      end
  end.
End Warnings.

(** ** Vocabulary of the statements *)

Definition onBoundary (l : R) : Prop := exists k : Z, l = 180 + 360 * IZR k.

(** The largest latitude the tile math sees, in radians. *)
Definition mercatorMaxRad : R := (85.05112878 * PI) / 180.

(** The tile count the planner computes for the bounds [b] at zoom [z]. *)
Definition tileCountAt (b : Bounds) (z : Z) : nat :=
  c_tileCount
    (computeAtZoom (clampLat (getNorth b)) (clampLat (getSouth b)) z
       (spansOf (normalizeLng (getWest b)) (normalizeLng (getEast b)))).

(** [cs] partitions [input]: the member lists, laid end to end, are a
    rearrangement of the input (every input element, with its
    multiplicity, is in exactly one of them); no cluster is empty; each
    [count] is the length of its [items]; the counts add up to the length
    of the input. *)
Definition partitions {T : Type} (cs : list (Cluster T)) (input : list T) : Prop :=
  Permutation (concat (map items cs)) input /\
  Forall (fun c => items c <> []) cs /\
  Forall (fun c => count c = length (items c)) cs /\
  list_sum (map count cs) = length input.

Definition ptA : RadarPoint := mkRadar "A" 0 0 EmptyString.

Definition ptB : RadarPoint := mkRadar "B" 0 0.001 EmptyString.

Definition ptC : RadarPoint := mkRadar "C" 0 1 EmptyString.

Definition within200 (p q : RadarPoint) : bool :=
  Rleb (haversineMeters (radarLoc p) (radarLoc q)) 200.

(** The clusterer's answer on the three points: two clusters, one with
    members A and B and their mean as center, one with C alone. *)
Definition splitsABandC (cs : list (Cluster RadarPoint)) : Prop :=
  exists cAB cC : Cluster RadarPoint,
    Permutation cs [cAB; cC] /\
    Permutation (items cAB) [ptA; ptB] /\
    items cC = [ptC] /\
    center cAB = mkGeo ((rp_lat ptA + rp_lat ptB) / 2) ((rp_lng ptA + rp_lng ptB) / 2).

Definition inPaddedView (b : Bounds) (p : RadarPoint) : bool :=
  isPointInBoundsPadded (radarLoc p) (Some b) SPEED_RADAR_VIEW_PADDING_METERS.

(** The value is not a finite number greater than zero. *)
Definition notPositiveNumber (Number : string -> option R) (v : string) : Prop :=
  forall x, Number v = Some x -> x <= 0.

(** A [Number] that reads the header ["30"] as thirty and knows no other
    text, and a [Date.parse] that knows one HTTP date; they instantiate the
    built-ins in the sample scenarios. *)
Definition Number_sample (v : string) : option R :=
  if String.eqb v "30" then Some 30 else None.

Definition Date_parse_sample (v : string) : option R :=
  if String.eqb v "Wed, 21 Oct 2015 07:28:00 GMT" then Some 1445412480000 else None.

(** The last alert of [police] filed under [k]. *)
Definition lastWithId (k : string) (police : list Alert) : option Alert :=
  find (fun p => String.eqb k (al_id p)) (rev police).

(** The character [c] does not occur in [s]. *)
Fixpoint lacks (c : ascii) (s : string) : bool :=
  match s with
  | EmptyString => true
  | String a rest => (negb (Ascii.eqb a c) && lacks c rest)%bool
  end.

(** The lines of a dataset that the parser looks at: trimmed and not
    empty. *)
Definition csvLines (text : string) : list string :=
  filter (fun l => negb (String.eqb l EmptyString)) (map trim (splitLines text)).

(** The [env] and the [queryKey] a cycle computes for a mode and a view. *)
Definition cycleEnv (wazeEnvMode : string) (mapBounds : Bounds) : string :=
  if String.eqb wazeEnvMode "auto"
  then inferWazeEnvFromBounds (Some mapBounds) else wazeEnvMode.

Definition cycleQueryKey (wazeEnvMode : string) (mapBounds : Bounds) (mapZoom : R)
  : QueryKey :=
  mkKey (map roundedBox
             (requestBoxes (buildWazeTileSnappedQuery (Some mapBounds) mapZoom)))
        (cycleEnv wazeEnvMode mapBounds).

(** The requests a cycle issues for a mode and a view, when it issues any. *)
Definition cycleRequests (wazeEnvMode : string) (mapBounds : Bounds) (mapZoom : R)
  : list Request :=
  buildWazeAlertsUrlsFromBoxes
    (requestBoxes (buildWazeTileSnappedQuery (Some mapBounds) mapZoom))
    (cycleEnv wazeEnvMode mapBounds).


(** The same viewport on the copy of the world [k] turns to the east. *)
Definition shiftBounds (b : Bounds) (k : Z) : Bounds :=
  mkBounds (south b) (west b + 360 * IZR k) (north b) (east b + 360 * IZR k).

(** The box [outer] contains the box [inner]. *)
Definition boxInside (inner outer : TileBox) : Prop :=
  bottom outer <= bottom inner /\ top inner <= top outer /\
  left outer <= left inner /\ right inner <= right outer.

(** The first response that is not [ok] is [res], and its status is 429. *)
Definition firstFailureIs429 (outcome : FetchOutcome) (res : Response) : Prop :=
  match outcome with
  | FetchRejected _ => False
  | FetchResolved responses =>
      find (fun r => negb (res_ok r)) responses = Some res /\ res_status res = 429%nat
  end.

(** An alert without [uuid] but with the feed's own [id]. *)
Definition alertWithFeedId : RawAlert :=
  mkRaw None (Some "w-1"%string) (Some "POLICE"%string) None None None None
        (Some (JNum 26.1, JNum 44.4)).

(** An entry whose [point] is a string of two characters. *)
Definition itemWithStringPoint : JsVal :=
  JObj [("userId"%string, JNum 7); ("url"%string, JStr "a.mp3");
        ("point"%string, JStr "ab"); ("created"%string, JNum 1)].

(** A list grown from a seed by absorbing, one at a time, a point within
    the radius of a point already in it. *)
Inductive Chained {T : Type} (locOf : T -> GeoPoint) (radiusMeters : R)
  : list T -> Prop :=
| Chained_seed (seed : T) : Chained locOf radiusMeters [seed]
| Chained_absorb (cluster : list T) (p : T) :
    Chained locOf radiusMeters cluster ->
    nearAny locOf radiusMeters cluster p = true ->
    Chained locOf radiusMeters (cluster ++ [p]).

(** Every point of [g] is farther than the radius from every point of
    [g']. *)
Definition apart {T : Type} (locOf : T -> GeoPoint) (radiusMeters : R)
           (g g' : list T) : Prop :=
  forall p q, In p g -> In q g' ->
              radiusMeters < haversineMeters (locOf p) (locOf q).

(* ===================================================================== *)
(** * Part II: properties                                                 *)
(* ===================================================================== *)

(** ** Arithmetic of the JavaScript primitives *)

Lemma Rleb_true (x y : R) : Rleb x y = true <-> x <= y.
Proof. unfold Rleb. destruct (Rle_dec x y); split; intros; try easy. Qed.

Lemma Rleb_false (x y : R) : Rleb x y = false <-> y < x.
Proof. unfold Rleb. destruct (Rle_dec x y); split; intros; try easy; lra. Qed.

Lemma Rltb_true (x y : R) : Rltb x y = true <-> x < y.
Proof. unfold Rltb. destruct (Rlt_dec x y); split; intros; try easy. Qed.

Lemma Rltb_false (x y : R) : Rltb x y = false <-> y <= x.
Proof. unfold Rltb. destruct (Rlt_dec x y); split; intros; try easy; lra. Qed.

Lemma Reqb_true (x y : R) : Reqb x y = true <-> x = y.
Proof. unfold Reqb. destruct (Req_dec_T x y); split; intros; try easy. Qed.

Lemma Reqb_false (x y : R) : Reqb x y = false <-> x <> y.
Proof. unfold Reqb. destruct (Req_dec_T x y); split; intros; try easy. Qed.

Lemma clampLat_bounds (la : R) : -85.05112878 <= clampLat la <= 85.05112878.
Proof.
  unfold clampLat, Rmax, Rmin.
  repeat destruct (Rle_dec _ _); lra.
Qed.

(** ** [normalizeLng] *)

Lemma js_trunc_IZR (k : Z) : js_trunc (IZR k) = k.
Proof.
  unfold js_trunc. destruct (Rle_dec 0 (IZR k)).
  - apply ZfloorZ.
  - unfold Zceil. rewrite <- opp_IZR, ZfloorZ. lia.
Qed.

(** The remainder by 360 differs from the dividend by a multiple of 360,
    keeps its sign and is smaller than 360 in absolute value. *)
Lemma js_rem_360 (a : R) :
  (exists q : Z, js_rem a 360 = a - 360 * IZR q) /\
  (0 <= a -> 0 <= js_rem a 360 < 360) /\
  (a < 0 -> -360 < js_rem a 360 <= 0).
Proof.
  unfold js_rem, js_trunc. split; [eexists; reflexivity|].
  destruct (Rle_dec 0 (a / 360)) as [H|H].
  - split; intros Ha; [|lra].
    pose proof (Zfloor_bound (a / 360)). lra.
  - split; intros Ha; [lra|].
    pose proof (Zceil_bound (a / 360)). lra.
Qed.

Lemma js_rem_360_multiple (k : Z) : js_rem (360 * IZR k) 360 = 0.
Proof.
  unfold js_rem.
  replace (360 * IZR k / 360) with (IZR k) by (field).
  rewrite js_trunc_IZR. ring.
Qed.

Lemma normalizeLng_cases (l : R) :
  (onBoundary l /\ normalizeLng l = 180) \/
  (~ onBoundary l /\ -180 < normalizeLng l < 180).
Proof.
  unfold normalizeLng.
  destruct (js_rem_360 (l + 180)) as [[q Hq] [Hpos Hneg]].
  set (a := js_rem (l + 180) 360) in *.
  assert (Ha : -360 < a < 360) by (destruct (Rle_dec 0 (l + 180)); lra).
  destruct (js_rem_360 (a + 360)) as [[q2 Hq2] [Hpos2 _]].
  set (r := js_rem (a + 360) 360) in *.
  assert (Hr : 0 <= r < 360) by (apply Hpos2; lra).
  cbv zeta.
  destruct (Reqb (r - 180) (-180)) eqn:E.
  - left. split; [|reflexivity].
    apply Reqb_true in E.
    assert (Hq2' : IZR q2 = 1).
    { assert (0 < IZR q2 < 2) as [H1 H2] by lra.
      apply lt_IZR in H1, H2. f_equal. lia. }
    exists (q - 1)%Z. rewrite minus_IZR. lra.
  - right. apply Reqb_false in E. split; [|lra].
    intros [k Hk].
    apply E. subst l.
    assert (a = 0).
    { unfold a. replace (180 + 360 * IZR k + 180) with (360 * IZR (k + 1))
        by (rewrite plus_IZR; ring).
      apply js_rem_360_multiple. }
    unfold r. rewrite H.
    replace (0 + 360) with (360 * IZR 1) by ring.
    rewrite js_rem_360_multiple. ring.
Qed.

Lemma normalizeLng_congruent (l : R) :
  exists k : Z, normalizeLng l = l + 360 * IZR k.
Proof.
  unfold normalizeLng.
  destruct (js_rem_360 (l + 180)) as [[q Hq] _].
  destruct (js_rem_360 (js_rem (l + 180) 360 + 360)) as [[q2 Hq2] _].
  cbv zeta. destruct (Reqb _ _) eqn:E.
  - apply Reqb_true in E.
    exists (2 - q - q2)%Z. rewrite !minus_IZR. lra.
  - exists (1 - q - q2)%Z. rewrite !minus_IZR. lra.
Qed.

(** C7.  [normalizeLng] maps every longitude into [-180, 180), except the
    longitudes equivalent to the boundary (180 plus a multiple of 360),
    which it maps to 180 and not to -180; in particular
    [normalizeLng 180 = 180].  The result differs from the input by a
    multiple of 360. *)
Theorem normalizeLng_range (l : R) :
  (onBoundary l \/ -180 <= normalizeLng l < 180) /\
  (onBoundary l <-> normalizeLng l = 180) /\
  normalizeLng l <> -180 /\
  (exists k : Z, normalizeLng l = l + 360 * IZR k) /\
  normalizeLng 180 = 180.
Proof.
  assert (H180 : normalizeLng 180 = 180).
  { destruct (normalizeLng_cases 180) as [[_ H]|[H _]]; [exact H|].
    exfalso. apply H. exists 0%Z. lra. }
  destruct (normalizeLng_cases l) as [[Hb H]|[Hb H]].
  - split; [left; exact Hb|].
    split; [tauto|].
    split; [lra|].
    split; [apply normalizeLng_congruent|exact H180].
  - split; [right; lra|].
    split; [split; [tauto|lra]|].
    split; [lra|].
    split; [apply normalizeLng_congruent|exact H180].
Qed.

(** ** Tile ranges at zoom 0 *)

Lemma PI_gt_3 : 3 < PI.
Proof. pose proof PI2_3_2. lra. Qed.

Lemma sin_small_lower (d : R) : 0 <= d <= 1 -> d - d * d * d / 6 <= sin d.
Proof.
  intros [H0 H1].
  destruct (pre_sin_bound d 0) as [H _]; [lra|lra|].
  unfold sin_approx, sin_term in H. simpl in H.
  lra.
Qed.

Lemma cos_mercatorMax_lower : / 32 <= cos mercatorMaxRad.
Proof.
  rewrite <- sin_shift.
  set (d := PI / 2 - mercatorMaxRad).
  pose proof PI_gt_3. pose proof PI_4.
  assert (Hd : 0.08 <= d <= 0.11) by (unfold d, mercatorMaxRad; lra).
  pose proof (sin_small_lower d ltac:(lra)).
  assert (d * d * d <= 0.11 * 0.11 * 0.11).
  { assert (d * d <= 0.11 * 0.11) by nra. nra. }
  lra.
Qed.

Lemma cos_lower_in_band (phi : R) :
  - mercatorMaxRad <= phi <= mercatorMaxRad -> / 32 <= cos phi.
Proof.
  intros [Hlo Hhi].
  pose proof PI_gt_3. pose proof PI_4. pose proof cos_mercatorMax_lower.
  assert (HM : 0 <= mercatorMaxRad <= PI) by (unfold mercatorMaxRad; lra).
  destruct (Rle_dec 0 phi).
  - pose proof (cos_decr_1 phi mercatorMaxRad). lra.
  - rewrite <- cos_neg.
    pose proof (cos_decr_1 (- phi) mercatorMaxRad). lra.
Qed.

Lemma exp_9_gt_64 : 64 < exp 9.
Proof.
  replace 9 with (3 + (3 + 3)) by ring.
  rewrite !exp_plus.
  pose proof (exp_ineq1 3 ltac:(lra)).
  nra.
Qed.

(** The Mercator ordinate [ln (tan phi + 1 / cos phi)] stays within 9 of
    zero over the clamped latitude band. *)
Lemma mercator_ln_bound (phi : R) :
  - mercatorMaxRad <= phi <= mercatorMaxRad ->
  -9 < ln (tan phi + 1 / cos phi) < 9.
Proof.
  intros Hphi.
  pose proof (cos_lower_in_band phi Hphi) as Hc.
  pose proof (sin2_cos2 phi) as Hsc. unfold Rsqr in Hsc.
  set (s := sin phi) in *. set (c := cos phi) in *.
  assert (Hc0 : 0 < c) by lra.
  assert (Hs : -1 <= s <= 1) by nra.
  assert (Ht : tan phi + 1 / c = (1 + s) / c).
  { unfold tan. fold s c. field. lra. }
  rewrite Ht.
  assert (Hlo : / 64 <= (1 + s) / c).
  { apply Rmult_le_reg_r with c; [lra|].
    unfold Rdiv. rewrite Rmult_assoc, Rinv_l by lra. nra. }
  assert (Hhi : (1 + s) / c <= 64).
  { apply Rmult_le_reg_r with c; [lra|].
    unfold Rdiv. rewrite Rmult_assoc, Rinv_l by lra. nra. }
  pose proof exp_9_gt_64 as He.
  assert (He' : exp (Ropp 9) < / 64).
  { rewrite exp_Ropp. apply Rinv_lt_contravar; [|lra].
    apply Rmult_lt_0_compat; lra. }
  split.
  - replace (-9) with (Ropp 9) by lra.
    rewrite <- (ln_exp (Ropp 9)). apply ln_increasing; [apply exp_pos|lra].
  - rewrite <- (ln_exp 9). apply ln_increasing; lra.
Qed.

Lemma lat2tileY_zoom0 (la : R) : (-1 <= lat2tileY la 0 <= 1)%Z.
Proof.
  unfold lat2tileY, Math_floor, pow2. cbv zeta. simpl powerRZ.
  set (phi := clampLat la * PI / 180).
  pose proof (clampLat_bounds la) as Hb.
  pose proof PI_gt_3 as Hpi.
  assert (Hphi : - mercatorMaxRad <= phi <= mercatorMaxRad).
  { unfold phi, mercatorMaxRad. split; nra. }
  pose proof (mercator_ln_bound phi Hphi) as HL.
  set (L := ln (tan phi + 1 / cos phi)) in *.
  assert (Hq : -3 < L / PI < 3).
  { assert (L = (L / PI) * PI) as E by (field; lra).
    set (q := L / PI) in *. split; nra. }
  set (f := (1 - L / PI) / 2 * 1).
  assert (Hf : -1 < f < 2) by (unfold f; lra).
  pose proof (Zfloor_bound f) as [H1 H2].
  split.
  - assert (IZR (-2) < IZR (Zfloor f)) as H by lra.
    apply lt_IZR in H. lia.
  - assert (IZR (Zfloor f) < IZR 2) as H by lra.
    apply lt_IZR in H. lia.
Qed.

Lemma lng2tileX_zoom0_lower (l : R) : -180 <= l -> (0 <= lng2tileX l 0)%Z.
Proof.
  intros H. unfold lng2tileX, Math_floor, pow2. cbv zeta. simpl powerRZ.
  apply Zfloor_lub. simpl. lra.
Qed.

Lemma lng2tileX_zoom0_upper (l : R) : l < 180 -> (lng2tileX l 0 <= 0)%Z.
Proof.
  intros H. unfold lng2tileX, Math_floor, pow2. cbv zeta. simpl powerRZ.
  pose proof (Zfloor_bound ((l + 180) / 360 * 1)) as [H1 _].
  assert (IZR (Zfloor ((l + 180) / 360 * 1)) < IZR 1) as H2 by lra.
  apply lt_IZR in H2. lia.
Qed.

Lemma safeEastOf_lt_180 (sp : Span) : safeEastOf sp < 180.
Proof.
  unfold safeEastOf. destruct (Rleb 180 (span_east sp)) eqn:E.
  - lra.
  - apply Rleb_false in E. exact E.
Qed.

Lemma length_zrange (lo hi : Z) : length (zrange lo hi) = Z.to_nat (hi - lo + 1).
Proof. unfold zrange. now rewrite length_map, length_seq. Qed.

Lemma length_spanDebugBoxes (n s : R) (zz : Z) (sp : Span) :
  length (spanDebugBoxes n s zz sp) =
  (Z.to_nat (xMaxOf zz sp - xMinOf zz sp + 1) *
   Z.to_nat (yMaxOf s zz - yMinOf n zz + 1))%nat.
Proof.
  unfold spanDebugBoxes.
  rewrite flat_map_constant_length with (c := Z.to_nat (yMaxOf s zz - yMinOf n zz + 1)).
  - now rewrite length_zrange.
  - intros x _. now rewrite length_map, length_zrange.
Qed.

Lemma spanDebugBoxes_zoom0 (n s : R) (sp : Span) :
  -180 <= span_west sp -> (length (spanDebugBoxes n s 0 sp) <= 3)%nat.
Proof.
  intros Hw. rewrite length_spanDebugBoxes.
  unfold xMaxOf, xMinOf, yMaxOf, yMinOf.
  pose proof (lng2tileX_zoom0_lower _ Hw).
  pose proof (lng2tileX_zoom0_upper _ (safeEastOf_lt_180 sp)).
  pose proof (lat2tileY_zoom0 n). pose proof (lat2tileY_zoom0 (safeSouthOf s)).
  assert (Z.to_nat (lng2tileX (safeEastOf sp) 0 - lng2tileX (span_west sp) 0 + 1) <= 1)%nat by lia.
  assert (Z.to_nat (lat2tileY (safeSouthOf s) 0 - lat2tileY n 0 + 1) <= 3)%nat by lia.
  nia.
Qed.

(** ** The zoom-lowering loop *)

Lemma computeAtZoom_tileCount (n s : R) (zz : Z) (spans : list Span) :
  c_tileCount (computeAtZoom n s zz spans) =
  length (c_debugBoxes (computeAtZoom n s zz spans)).
Proof. reflexivity. Qed.

(** The loop returns what [compute] gives at the zoom it stops at; it never
    goes above the starting zoom; every zoom it skipped was over the cap;
    and it stops over the cap only at zoom 0. *)
Lemma lowerZoom_spec (compute : Z -> Computed) (z : nat) :
  forall zf c, lowerZoom compute z = (zf, c) ->
  c = compute (Z.of_nat zf) /\ (zf <= z)%nat /\
  (forall z', (zf < z' <= z)%nat ->
     (MAX_WAZE_TILE_BOXES_PER_REQUEST < c_tileCount (compute (Z.of_nat z')))%nat) /\
  ((MAX_WAZE_TILE_BOXES_PER_REQUEST < c_tileCount c)%nat -> zf = 0%nat).
Proof.
  induction z as [|z IH]; intros zf c H.
  - injection H as <- <-. repeat split; auto; intros; lia.
  - change (lowerZoom compute (S z)) with
      (if Nat.ltb MAX_WAZE_TILE_BOXES_PER_REQUEST
            (c_tileCount (compute (Z.of_nat (S z))))
       then lowerZoom compute z
       else (S z, compute (Z.of_nat (S z)))) in H.
    destruct (Nat.ltb _ _) eqn:E.
    + apply Nat.ltb_lt in E.
      destruct (IH _ _ H) as (Hc & Hle & Hskip & Hstop).
      repeat split; auto.
      intros z' Hz'. destruct (Nat.eq_dec z' (S z)) as [->|]; [exact E|].
      apply Hskip. lia.
    + apply Nat.ltb_ge in E. injection H as <- <-.
      repeat split; auto; intros; simpl Z.of_nat in *; lia.
Qed.

Lemma normalizeLng_ge_m180 (l : R) : -180 <= normalizeLng l.
Proof. destruct (normalizeLng_cases l) as [[_ H]|[_ H]]; lra. Qed.

Lemma tileCountAt_zoom0 (b : Bounds) : (tileCountAt b 0 <= 6)%nat.
Proof.
  unfold tileCountAt. rewrite computeAtZoom_tileCount. cbn [computeAtZoom c_debugBoxes].
  set (n := clampLat _). set (s := clampLat _).
  pose proof (normalizeLng_ge_m180 (getWest b)) as Hw.
  unfold spansOf. destruct (Rltb _ _); cbn [flat_map]; rewrite ?length_app, ?app_nil_r.
  - pose proof (spanDebugBoxes_zoom0 n s (mkSpan (normalizeLng (getWest b)) 180) Hw).
    pose proof (spanDebugBoxes_zoom0 n s (mkSpan (-180) (normalizeLng (getEast b)))
                  ltac:(simpl; lra)).
    cbn [length]. lia.
  - pose proof (spanDebugBoxes_zoom0 n s
                  (mkSpan (normalizeLng (getWest b)) (normalizeLng (getEast b))) Hw).
    cbn [length]. lia.
Qed.

(** C1.  For non-null bounds the plan's debug boxes are at most 24, and
    [usedZoom] is the largest integer zoom between 0 and the clamped
    requested zoom at which the tile count is at most 24: the count at
    [usedZoom] is within the cap, and it is over the cap at every zoom
    above [usedZoom] up to the clamped request. *)
Theorem buildWazeTileSnappedQuery_tile_cap (b : Bounds) (zoom : R) :
  let q := buildWazeTileSnappedQuery (Some b) zoom in
  (length (debugBoxes q) <= 24)%nat /\
  exists z : Z,
    usedZoom q = IZR z /\ (0 <= z <= clampZoom zoom)%Z /\
    length (debugBoxes q) = tileCountAt b z /\
    tileCount q = Some (tileCountAt b z) /\
    (tileCountAt b z <= 24)%nat /\
    forall z' : Z, (z < z' <= clampZoom zoom)%Z -> (24 < tileCountAt b z')%nat.
Proof.
  cbv zeta. unfold buildWazeTileSnappedQuery. cbv zeta.
  destruct (lowerZoom _ _) as [zf c] eqn:E.
  apply lowerZoom_spec in E. destruct E as (Hc & Hle & Hskip & Hstop).
  cbn [debugBoxes usedZoom tileCount].
  assert (Hz : (0 <= clampZoom zoom)%Z) by (unfold clampZoom; lia).
  assert (Hcount : c_tileCount c = tileCountAt b (Z.of_nat zf)) by (now subst c).
  assert (Hlen : length (c_debugBoxes c) = tileCountAt b (Z.of_nat zf)).
  { rewrite <- Hcount. subst c. reflexivity. }
  assert (Hcap : (tileCountAt b (Z.of_nat zf) <= 24)%nat).
  { destruct (Nat.le_gt_cases (tileCountAt b (Z.of_nat zf)) 24) as [|Hgt]; [assumption|].
    rewrite <- Hcount in Hgt. specialize (Hstop Hgt). subst zf.
    pose proof (tileCountAt_zoom0 b). simpl Z.of_nat. lia. }
  split; [lia|].
  exists (Z.of_nat zf). repeat split; try lia; try assumption.
  - now rewrite Hcount.
  - intros z' Hz'. specialize (Hskip (Z.to_nat z') ltac:(lia)).
    rewrite Z2Nat.id in Hskip by lia. exact Hskip.
Qed.

(** C10.  With null bounds the function returns at once: no request box,
    no debug box, and [usedZoom] is the zoom it was given, neither rounded
    nor clamped. *)
Theorem buildWazeTileSnappedQuery_null_bounds (zoom : R) :
  buildWazeTileSnappedQuery None zoom = mkPlan [] [] None zoom /\
  requestBoxes (buildWazeTileSnappedQuery None zoom) = [] /\
  debugBoxes (buildWazeTileSnappedQuery None zoom) = [] /\
  usedZoom (buildWazeTileSnappedQuery None zoom) = zoom.
Proof. repeat split. Qed.

(** ** The greedy clusterer *)

Section GreedyFacts.
Context {T : Type}.
Variable locOf : T -> GeoPoint.
Variable radiusMeters : R.

(** The loops as recursive equations. *)
Lemma absorbAll_loop (cluster remaining : list T) :
  absorbAll locOf radiusMeters cluster remaining =
  let '(cl, kept, changed) := absorbPass locOf radiusMeters cluster remaining in
  if changed then absorbAll locOf radiusMeters cl kept else (cl, kept).
Proof.
  funelim (absorbAll locOf radiusMeters cluster remaining); rewrite e; reflexivity.
Qed.

Lemma clusterGroups_loop (remaining : list T) :
  clusterGroups locOf radiusMeters remaining =
  match pop remaining with
  | None => []
  | Some (seed, rest) =>
      fst (absorbAll locOf radiusMeters [seed] rest)
        :: clusterGroups locOf radiusMeters (snd (absorbAll locOf radiusMeters [seed] rest))
  end.
Proof.
  funelim (clusterGroups locOf radiusMeters remaining); rewrite e; reflexivity.
Qed.

Lemma pop_nil : pop (@nil T) = None.
Proof. reflexivity. Qed.

Lemma pop_snoc (l : list T) (x : T) : pop (l ++ [x]) = Some (x, l).
Proof. unfold pop. rewrite rev_app_distr. simpl. now rewrite rev_involutive. Qed.

Lemma pop_Some (l : list T) (x : T) (r : list T) :
  pop l = Some (x, r) -> l = r ++ [x].
Proof.
  unfold pop. destruct (rev l) as [|y ys] eqn:E; [discriminate|].
  intros H. injection H as <- <-.
  rewrite <- (rev_involutive l), E. reflexivity.
Qed.

Lemma pop_None (l : list T) : pop l = None -> l = [].
Proof.
  unfold pop. destruct (rev l) as [|y ys] eqn:E; [|discriminate].
  intros _. rewrite <- (rev_involutive l), E. reflexivity.
Qed.

(** A pass moves points from [remaining] to the end of the cluster and
    loses none. *)
Lemma absorbPass_perm (cluster remaining : list T) :
  let '(cl, kept, _) := absorbPass locOf radiusMeters cluster remaining in
  Permutation (cl ++ kept) (cluster ++ remaining) /\
  exists extra, cl = cluster ++ extra.
Proof.
  unfold absorbPass. induction remaining as [|x xs IH]; simpl.
  - split; [reflexivity|]. exists []. now rewrite app_nil_r.
  - destruct (fold_right (absorbStep locOf radiusMeters) (cluster, [], false) xs)
      as [[cl kept] ch].
    destruct IH as [IH [extra Hcl]].
    unfold absorbStep. destruct (nearAny _ _ _ x).
    + split.
      * rewrite <- app_assoc. simpl.
        rewrite <- (Permutation_middle cl), <- (Permutation_middle cluster).
        apply perm_skip. exact IH.
      * exists (extra ++ [x]). now rewrite Hcl, app_assoc.
    + split.
      * rewrite <- (Permutation_middle cl), <- (Permutation_middle cluster).
        apply perm_skip. exact IH.
      * now exists extra.
Qed.

Lemma absorbAll_perm (cluster remaining : list T) :
  Permutation (fst (absorbAll locOf radiusMeters cluster remaining)
                 ++ snd (absorbAll locOf radiusMeters cluster remaining))
              (cluster ++ remaining) /\
  exists extra, fst (absorbAll locOf radiusMeters cluster remaining) = cluster ++ extra.
Proof.
  funelim (absorbAll locOf radiusMeters cluster remaining).
  - pose proof (absorbPass_perm cluster remaining) as HP. rewrite e in HP.
    destruct HP as [HP [extra ->]]. destruct H as [H [extra' H']].
    split.
    + etransitivity; [exact H|exact HP].
    + rewrite H'. exists (extra ++ extra'). now rewrite app_assoc.
  - pose proof (absorbPass_perm cluster remaining) as HP. rewrite e in HP.
    exact HP.
Qed.

(** The member arrays partition the input, and none is empty. *)
Lemma clusterGroups_partition (points : list T) :
  Permutation (concat (clusterGroups locOf radiusMeters points)) points /\
  Forall (fun g => g <> []) (clusterGroups locOf radiusMeters points).
Proof.
  funelim (clusterGroups locOf radiusMeters points).
  - pose proof (pop_Some _ _ _ e) as E. rewrite E.
    destruct (absorbAll_perm [seed] rest) as [HP [extra Hx]].
    destruct H as [IH1 IH2].
    split.
    + simpl. rewrite IH1, HP. simpl. apply Permutation_cons_append.
    + constructor; [|exact IH2]. rewrite Hx. discriminate.
  - pose proof (pop_None _ e) as E. rewrite E. split; constructor.
Qed.

End GreedyFacts.

(** ** The clusters partition their input *)

Lemma partitions_of_groups {T : Type} (mk : list T -> Cluster T)
      (groups : list (list T)) (input : list T) :
  (forall g, items (mk g) = g) ->
  (forall g, count (mk g) = length g) ->
  Permutation (concat groups) input ->
  Forall (fun g => g <> []) groups ->
  partitions (map mk groups) input.
Proof.
  intros Hitems Hcount HP HN.
  assert (Hmap : map items (map mk groups) = groups).
  { rewrite map_map. rewrite <- (map_id groups) at 2.
    apply map_ext. exact Hitems. }
  unfold partitions. rewrite Hmap. repeat split.
  - exact HP.
  - apply Forall_map. eapply Forall_impl; [|exact HN].
    intros g Hg. now rewrite Hitems.
  - apply Forall_map. apply Forall_forall. intros g _.
    now rewrite Hitems, Hcount.
  - rewrite <- (Permutation_length HP), length_concat, map_map.
    f_equal. apply map_ext. exact Hcount.
Qed.

Lemma clusterPoints_partitions (points : list RadarPoint) (radiusMeters : R) :
  partitions (clusterPoints points radiusMeters) points.
Proof.
  unfold clusterPoints.
  destruct (clusterGroups_partition radarLoc radiusMeters points) as [HP HN].
  apply partitions_of_groups; auto.
Qed.

Lemma clusterPoliceAlerts_partitions (alerts : list Alert) (radiusMeters : R) :
  partitions (clusterPoliceAlerts alerts radiusMeters) alerts.
Proof.
  unfold clusterPoliceAlerts.
  destruct (clusterGroups_partition al_location radiusMeters alerts) as [HP HN].
  apply partitions_of_groups; auto.
Qed.

(** C9.  For every input list and every radius, the clusters returned by
    [clusterPoints] and by [clusterPoliceAlerts] partition the input: each
    input point is in exactly one cluster's [items], every cluster is
    non-empty, [count] is the length of [items], and the counts sum to the
    length of the input. *)
Theorem clusters_partition_input :
  (forall (points : list RadarPoint) (radiusMeters : R),
      partitions (clusterPoints points radiusMeters) points) /\
  (forall (alerts : list Alert) (radiusMeters : R),
      partitions (clusterPoliceAlerts alerts radiusMeters) alerts).
Proof.
  split; [exact clusterPoints_partitions|exact clusterPoliceAlerts_partitions].
Qed.

(** ** Haversine distance along the equator *)

Lemma haversine_equator (x y : R) :
  -180 <= y - x <= 180 ->
  haversineMeters (mkGeo 0 x) (mkGeo 0 y) = 6371000 * PI / 180 * Rabs (y - x).
Proof.
  intros Hxy. unfold haversineMeters, toRad. cbn [lat lng]. cbv zeta.
  pose proof PI_RGT_0 as Hpi.
  replace ((0 - 0) * PI / 180 / 2) with 0 by lra.
  replace (0 * PI / 180) with 0 by lra.
  rewrite sin_0, cos_0.
  set (t := (y - x) * PI / 180 / 2).
  assert (Ht : - (PI / 2) <= t <= PI / 2) by (unfold t; split; nra).
  replace (0 * 0 + 1 * 1 * sin t * sin t) with (Rsqr (sin t)) by (unfold Rsqr; ring).
  rewrite sqrt_Rsqr_abs.
  assert (Hs : Rabs (sin t) = sin (Rabs t)).
  { unfold Rabs at 2. destruct (Rcase_abs t) as [Hneg|Hpos].
    - rewrite sin_neg. apply Rabs_left.
      apply sin_lt_0_var; lra.
    - apply Rabs_right. apply Rle_ge. apply sin_ge_0; lra. }
  rewrite Hs.
  assert (Ha : 0 <= Rabs t <= PI / 2).
  { split; [apply Rabs_pos|]. apply Rabs_le. lra. }
  assert (Hle : sin (Rabs t) <= 1) by apply SIN_bound.
  rewrite Rmin_right by exact Hle.
  rewrite asin_sin by lra.
  unfold t.
  replace ((y - x) * PI / 180 / 2) with ((y - x) * (PI / 360)) by lra.
  rewrite Rabs_mult, (Rabs_right (PI / 360)) by lra.
  lra.
Qed.

(** ** Clustering three points on the equator *)

Lemma Rabs_le_bounds (v a : R) : Rabs v <= a -> - a <= v <= a.
Proof. unfold Rabs. destruct (Rcase_abs v); lra. Qed.

Lemma equator_near (x y : R) :
  Rabs (y - x) <= 0.001 ->
  Rleb (haversineMeters (mkGeo 0 x) (mkGeo 0 y)) 200 = true.
Proof.
  intros H. apply Rleb_true.
  pose proof (Rabs_pos (y - x)) as Hp.
  pose proof (Rabs_le_bounds (y - x) 0.001 H).
  rewrite haversine_equator by lra.
  pose proof PI_4. pose proof PI_RGT_0. nra.
Qed.

Lemma equator_far (x y : R) :
  0.999 <= Rabs (y - x) <= 1 ->
  Rleb (haversineMeters (mkGeo 0 x) (mkGeo 0 y)) 200 = false.
Proof.
  intros H. apply Rleb_false.
  pose proof (Rabs_le_bounds (y - x) 1 ltac:(lra)).
  rewrite haversine_equator by lra.
  pose proof PI_gt_3. nra.
Qed.

Lemma Rabs_eq_of (v a : R) : 0 <= a -> v = a \/ v = - a -> Rabs v = a.
Proof.
  intros Ha [->| ->].
  - apply Rabs_right; lra.
  - rewrite Rabs_Ropp. apply Rabs_right; lra.
Qed.

Lemma within200_table :
  within200 ptA ptB = true /\ within200 ptB ptA = true /\
  within200 ptA ptC = false /\ within200 ptC ptA = false /\
  within200 ptB ptC = false /\ within200 ptC ptB = false.
Proof.
  unfold within200, radarLoc, ptA, ptB, ptC; cbn [rp_lat rp_lng].
  repeat split.
  - apply equator_near. rewrite (Rabs_eq_of _ 0.001); lra.
  - apply equator_near. rewrite (Rabs_eq_of _ 0.001); lra.
  - apply equator_far. rewrite (Rabs_eq_of _ 1); lra.
  - apply equator_far. rewrite (Rabs_eq_of _ 1); lra.
  - apply equator_far. rewrite (Rabs_eq_of _ 0.999); lra.
  - apply equator_far. rewrite (Rabs_eq_of _ 0.999); lra.
Qed.

Lemma perm3_cases {A : Type} (a b c : A) (l : list A) :
  NoDup [a; b; c] -> Permutation l [a; b; c] ->
  l = [a; b; c] \/ l = [a; c; b] \/ l = [b; a; c] \/
  l = [b; c; a] \/ l = [c; a; b] \/ l = [c; b; a].
Proof.
  intros ND HP.
  pose proof (Permutation_length HP) as HL.
  destruct l as [|x [|y [|z [|]]]]; try discriminate.
  assert (NDl : NoDup [x; y; z]) by (eapply Permutation_NoDup; [symmetry; exact HP|exact ND]).
  assert (Hin : forall u, In u [x; y; z] -> u = a \/ u = b \/ u = c).
  { intros u Hu. pose proof (Permutation_in _ HP Hu) as H. simpl in H. intuition. }
  assert (Hni : forall u, In u [a; b; c] -> In u [x; y; z]).
  { intros u Hu. apply Permutation_in with (l := [a; b; c]); [symmetry; exact HP|exact Hu]. }
  inversion NDl as [|? ? Hx NDl']; subst. inversion NDl' as [|? ? Hy NDl'']; subst.
  simpl in Hx, Hy.
  destruct (Hin x ltac:(simpl; auto)) as [->|[->| ->]];
  destruct (Hin y ltac:(simpl; auto)) as [->|[->| ->]];
  destruct (Hin z ltac:(simpl; auto)) as [->|[->| ->]];
  try (exfalso; tauto); auto 10.
  all: exfalso.
  all: inversion ND as [|? ? Ha ND']; subst; inversion ND' as [|? ? Hb ND'']; subst.
  all: simpl in Ha, Hb.
  all: first [ pose proof (Hni a ltac:(simpl; auto)) as H; simpl in H; intuition congruence
             | pose proof (Hni b ltac:(simpl; auto)) as H; simpl in H; intuition congruence
             | pose proof (Hni c ltac:(simpl; auto)) as H; simpl in H; intuition congruence ].
Qed.

Lemma radar_points_distinct : NoDup [ptA; ptB; ptC].
Proof.
  repeat constructor; simpl; intuition discriminate.
Qed.

(** Runs both loops of the clusterer on a literal list, deciding each
    distance test with the table above. *)
Ltac run_clusterer :=
  let T := fresh "T" in
  pose proof within200_table as T; unfold within200 in T;
  destruct T as (?AB & ?BA & ?AC & ?CA & ?BC & ?CB);
  repeat first
    [ progress cbn [pop rev app fst snd absorbPass fold_right absorbStep nearAny
                    existsb orb]
    | progress rewrite ?AB, ?BA, ?AC, ?CA, ?BC, ?CB
    | rewrite absorbAll_loop
    | match goal with
      | |- context [clusterGroups ?f ?r nil] => rewrite (clusterGroups_loop f r nil)
      | |- context [clusterGroups ?f ?r (cons ?x ?l)] =>
          rewrite (clusterGroups_loop f r (cons x l))
      end ].

(** The member arrays for each of the six input orders: the seed is the
    last point of the input, and an absorbed point goes to the end. *)
Lemma clusterGroups_three_points :
  clusterGroups radarLoc 200 [ptA; ptB; ptC] = [[ptC]; [ptB; ptA]] /\
  clusterGroups radarLoc 200 [ptA; ptC; ptB] = [[ptB; ptA]; [ptC]] /\
  clusterGroups radarLoc 200 [ptB; ptA; ptC] = [[ptC]; [ptA; ptB]] /\
  clusterGroups radarLoc 200 [ptB; ptC; ptA] = [[ptA; ptB]; [ptC]] /\
  clusterGroups radarLoc 200 [ptC; ptA; ptB] = [[ptB; ptA]; [ptC]] /\
  clusterGroups radarLoc 200 [ptC; ptB; ptA] = [[ptA; ptB]; [ptC]].
Proof.
  repeat split; run_clusterer; reflexivity.
Qed.

Lemma centerOf_pair (p q : RadarPoint) :
  centerOf radarLoc [p; q] =
  mkGeo ((rp_lat p + rp_lat q) / 2) ((rp_lng p + rp_lng q) / 2).
Proof.
  unfold centerOf. cbn [fold_left radarLoc lat lng length].
  f_equal; simpl INR; lra.
Qed.

Ltac solve_splitsABandC :=
  unfold splitsABandC; do 2 eexists;
  split; [(apply Permutation_refl + apply perm_swap)|];
  split; [cbn [items]; (apply Permutation_refl + apply perm_swap)|];
  split; [reflexivity|];
  cbn [center]; rewrite centerOf_pair; f_equal; lra.

(** C6.  For the points A = (0, 0), B = (0, 0.001) and C = (0, 1) and a
    radius of 200 meters, in whatever order the three points are given (so
    whichever is popped first), the clusterer returns exactly two clusters,
    one with members A and B, one with C alone, and the center of the
    former is the coordinate-wise mean of A and B. *)
Theorem clusterPoints_three_points (points : list RadarPoint) :
  Permutation points [ptA; ptB; ptC] ->
  length (clusterPoints points 200) = 2%nat /\
  splitsABandC (clusterPoints points 200).
Proof.
  intros HP.
  destruct clusterGroups_three_points as (H1 & H2 & H3 & H4 & H5 & H6).
  unfold clusterPoints.
  destruct (perm3_cases _ _ _ _ radar_points_distinct HP)
    as [->|[->|[->|[->|[->| ->]]]]].
  - rewrite H1. split; [reflexivity|]. cbn [map]. solve_splitsABandC.
  - rewrite H2. split; [reflexivity|]. cbn [map]. solve_splitsABandC.
  - rewrite H3. split; [reflexivity|]. cbn [map]. solve_splitsABandC.
  - rewrite H4. split; [reflexivity|]. cbn [map]. solve_splitsABandC.
  - rewrite H5. split; [reflexivity|]. cbn [map]. solve_splitsABandC.
  - rewrite H6. split; [reflexivity|]. cbn [map]. solve_splitsABandC.
Qed.

(** C6 at the input order A, B, C. *)
Lemma clusterPoints_three_points_witness :
  Permutation [ptA; ptB; ptC] [ptA; ptB; ptC] /\
  length (clusterPoints [ptA; ptB; ptC] 200) = 2%nat /\
  splitsABandC (clusterPoints [ptA; ptB; ptC] 200).
Proof.
  split; [apply Permutation_refl|].
  apply (clusterPoints_three_points [ptA; ptB; ptC]). apply Permutation_refl.
Defined.

(** ** The viewport filter shows all or nothing *)

(** The scan, started with [visible] holding the [inViewCount] points found
    so far (not more than the budget): it reports overflow exactly when
    the matches still to come take the count over the budget, and
    otherwise clusters everything found. *)
Lemma scanRadars_spec (b : Bounds) (active visible : list RadarPoint) (n : Z) :
  n = Z.of_nat (length visible) ->
  (n <= MAX_VISIBLE_SPEED_RADARS)%Z ->
  let total := (n + Z.of_nat (length (filter (inPaddedView b) active)))%Z in
  let r := scanRadars (Some b) active visible n in
  if (MAX_VISIBLE_SPEED_RADARS <? total)%Z
  then tooMany r = true /\ clusters r = [] /\
       inViewCount r = (MAX_VISIBLE_SPEED_RADARS + 1)%Z
  else tooMany r = false /\ inViewCount r = total /\
       clusters r =
       clusterPoints (visible ++ filter (inPaddedView b) active)
                     SPEED_RADAR_CLUSTER_RADIUS_METERS.
Proof.
  revert visible n.
  induction active as [|p rest IH]; intros visible n Hn Hle; cbv zeta.
  - cbn [filter length scanRadars]. rewrite Z.add_0_r, app_nil_r.
    destruct (Z.ltb_spec MAX_VISIBLE_SPEED_RADARS n); [lia|].
    cbn. auto.
  - cbn [filter scanRadars]. fold (inPaddedView b p).
    destruct (inPaddedView b p) eqn:Ein.
    + cbn [length].
      destruct (Z.leb_spec (Z.of_nat (length visible)) MAX_VISIBLE_SPEED_RADARS); [|lia].
      destruct (Z.ltb_spec MAX_VISIBLE_SPEED_RADARS (n + 1)) as [Hover|Hfit].
      * destruct (Z.ltb_spec MAX_VISIBLE_SPEED_RADARS
                    (n + Z.of_nat (S (length (filter (inPaddedView b) rest))))); [|lia].
        cbn. repeat split; auto. unfold MAX_VISIBLE_SPEED_RADARS in *. lia.
      * specialize (IH (visible ++ [p]) (n + 1)%Z).
        cbv zeta in IH.
        rewrite <- app_assoc in IH. cbn [app] in IH.
        replace (n + Z.of_nat (S (length (filter (inPaddedView b) rest))))%Z
          with (n + 1 + Z.of_nat (length (filter (inPaddedView b) rest)))%Z by lia.
        apply IH; [|lia].
        rewrite length_app. cbn [length]. lia.
    + apply IH; assumption.
Qed.

(** C5.  With the layer shown, the dataset loaded and the zoom at or above
    the floor: if more in-bounds (padded) points exist than the budget, the
    filter reports [tooMany] and renders nothing; if not, it renders all of
    them (the clusters partition the in-bounds points); so what it renders
    is never a non-empty proper part of the in-bounds points. *)
Theorem speedRadarsInView_all_or_nothing
        (b : Bounds) (mapZoom : R) (world : list RadarPoint) :
  MIN_SPEED_RADAR_RENDER_ZOOM <= mapZoom ->
  let inView := filter (inPaddedView b) world in
  let r := speedRadarsInView true (Some b) mapZoom false world in
  ((MAX_VISIBLE_SPEED_RADARS < Z.of_nat (length inView))%Z ->
     tooMany r = true /\ clusters r = []) /\
  ((Z.of_nat (length inView) <= MAX_VISIBLE_SPEED_RADARS)%Z ->
     tooMany r = false /\ partitions (clusters r) inView) /\
  (clusters r = [] \/ partitions (clusters r) inView).
Proof.
  intros Hzoom. cbv zeta. unfold speedRadarsInView. cbn [negb].
  apply Rltb_false in Hzoom. rewrite Hzoom.
  pose proof (scanRadars_spec b world [] 0 eq_refl ltac:(unfold MAX_VISIBLE_SPEED_RADARS; lia))
    as H.
  cbv zeta in H. rewrite Z.add_0_l in H. cbn [app] in H.
  destruct (Z.ltb_spec MAX_VISIBLE_SPEED_RADARS
              (Z.of_nat (length (filter (inPaddedView b) world)))) as [Hover|Hfit].
  - destruct H as (Ht & Hc & _). repeat split; auto; intros; lia.
  - destruct H as (Ht & _ & Hc).
    assert (HP : partitions (clusters (scanRadars (Some b) world [] 0))
                            (filter (inPaddedView b) world)).
    { rewrite Hc. apply clusterPoints_partitions. }
    split; [intros; lia|]. split; [intros; split; assumption|]. right; assumption.
Qed.

(** C5 on a viewport over Bucharest at zoom 6 with one camera. *)
Lemma speedRadarsInView_all_or_nothing_witness :
  MIN_SPEED_RADAR_RENDER_ZOOM <= 6 /\
  (let b := mkBounds 44 26 45 27 in
   let world := [mkRadar "r1" 44.5 26.5 "Main St"] in
   let inView := filter (inPaddedView b) world in
   let r := speedRadarsInView true (Some b) 6 false world in
   ((MAX_VISIBLE_SPEED_RADARS < Z.of_nat (length inView))%Z ->
      tooMany r = true /\ clusters r = []) /\
   ((Z.of_nat (length inView) <= MAX_VISIBLE_SPEED_RADARS)%Z ->
      tooMany r = false /\ partitions (clusters r) inView) /\
   (clusters r = [] \/ partitions (clusters r) inView)).
Proof.
  split; [unfold MIN_SPEED_RADAR_RENDER_ZOOM; lra|].
  apply (speedRadarsInView_all_or_nothing (mkBounds 44 26 45 27) 6
           [mkRadar "r1" 44.5 26.5 "Main St"]).
  unfold MIN_SPEED_RADAR_RENDER_ZOOM; lra.
Defined.

(** ** The retry directive *)

Section RetryAfterFacts.
Variable Number : string -> option R.
Variable Date_parse : string -> option R.
Variable Number_toString : R -> string.

Lemma parseRetryAfterToMs_missing (now : R) :
  parseRetryAfterToMs Number Date_parse None now = 30000 /\
  parseRetryAfterToMs Number Date_parse (Some EmptyString) now = 30000.
Proof.
  unfold parseRetryAfterToMs, DEFAULT_WAZE_RETRY_AFTER_SEC. cbn. split; lra.
Qed.

Lemma parseRetryAfterToMs_positive (v : string) (x now : R) :
  v <> EmptyString -> Number v = Some x -> 0 < x ->
  parseRetryAfterToMs Number Date_parse (Some v) now = x * 1000.
Proof.
  intros Hv Hn Hx. unfold parseRetryAfterToMs.
  apply String.eqb_neq in Hv. rewrite Hv, Hn.
  apply Rltb_true in Hx. now rewrite Hx.
Qed.

Lemma parseRetryAfterToMs_via_date (v : string) (now : R) :
  v <> EmptyString -> notPositiveNumber Number v ->
  parseRetryAfterToMs Number Date_parse (Some v) now =
  match Date_parse v with
  | Some asDate => Rmax 0 (asDate - now)
  | None => 30000
  end.
Proof.
  intros Hv Hn. unfold parseRetryAfterToMs.
  apply String.eqb_neq in Hv. rewrite Hv. cbv zeta.
  assert (E : DEFAULT_WAZE_RETRY_AFTER_SEC * 1000 = 30000)
    by (unfold DEFAULT_WAZE_RETRY_AFTER_SEC; lra).
  rewrite E.
  destruct (Number v) as [x|] eqn:Ex; [|reflexivity].
  specialize (Hn x Ex).
  assert (Rltb 0 x = false) as -> by (apply Rltb_false; exact Hn).
  reflexivity.
Qed.

Lemma parseRetryAfterToMs_nonneg (value : option string) (now : R) :
  0 <= parseRetryAfterToMs Number Date_parse value now.
Proof.
  unfold parseRetryAfterToMs, DEFAULT_WAZE_RETRY_AFTER_SEC.
  destruct value as [v|]; [|lra].
  destruct (String.eqb v EmptyString); [lra|]. cbv zeta.
  assert (H : 0 <= match Date_parse v with
                   | Some asDate => Rmax 0 (asDate - now)
                   | None => 30 * 1000
                   end).
  { destruct (Date_parse v); [apply Rmax_l|lra]. }
  destruct (Number v) as [x|]; [|exact H].
  destruct (Rltb 0 x) eqn:E; [|exact H].
  apply Rltb_true in E. lra.
Qed.

(** Only [setBackoffUntil] writes [policeBackoffUntil]. *)
Lemma run_finish_backoffUntil (aborted : bool) (clock : Clock)
      (outcome : FetchOutcome) (st : PoliceState) :
  policeBackoffUntil
    (run_finish Number Date_parse Number_toString aborted clock outcome st) =
  policeBackoffUntil (fst (afterFetch Number Date_parse clock outcome st)).
Proof.
  unfold run_finish.
  destruct (afterFetch Number Date_parse clock outcome st) as [st' [m|alerts]]; cbn [fst].
  - destruct aborted; cbn [negb]; [reflexivity|].
    destruct (includes "429" m); reflexivity.
  - destruct aborted; reflexivity.
Qed.

(** A 429 response moves [policeBackoffUntil] to the reading of the clock
    plus the parsed duration. *)
Lemma run_finish_429 (aborted : bool) (clock : Clock)
      (responses : list Response) (res : Response) (st : PoliceState) :
  find (fun r => negb (res_ok r)) responses = Some res ->
  res_status res = 429%nat ->
  policeBackoffUntil
    (run_finish Number Date_parse Number_toString aborted clock
                (FetchResolved responses) st) =
  nowBackoff clock
  + parseRetryAfterToMs Number Date_parse (res_retryAfter res) (nowParse clock).
Proof.
  intros Hfind Hstatus. rewrite run_finish_backoffUntil.
  unfold afterFetch. rewrite Hfind, Hstatus. reflexivity.
Qed.

End RetryAfterFacts.

(** Against C4 as stated.  A numeric directive that is not positive is not
    read as seconds: for the header ["-5"], whatever [Date.parse] makes of
    it, the result is not [-5 * 1000]. *)
Lemma parseRetryAfterToMs_negative_not_scaled :
  (forall (Number Date_parse : string -> option R) (now : R),
      Number "-5"%string = Some (-5) ->
      parseRetryAfterToMs Number Date_parse (Some "-5"%string) now <> -5 * 1000) /\
  ~ (forall (Number Date_parse : string -> option R) (v : string) (x now : R),
        Number v = Some x ->
        parseRetryAfterToMs Number Date_parse (Some v) now = x * 1000).
Proof.
  assert (H : forall (Number Date_parse : string -> option R) (now : R),
             Number "-5"%string = Some (-5) ->
             parseRetryAfterToMs Number Date_parse (Some "-5"%string) now <> -5 * 1000).
  { intros Number Date_parse now _ E.
    pose proof (parseRetryAfterToMs_nonneg Number Date_parse (Some "-5"%string) now).
    lra. }
  split; [exact H|].
  intros C.
  apply (H (fun _ => Some (-5)) (fun _ => None) 0 eq_refl).
  apply C. reflexivity.
Qed.

(** C4, as the code has it.  [parseRetryAfterToMs] returns 30000 for a missing or
    empty header; the value times 1000 when the value is a finite number
    greater than zero; otherwise (a numeric value that is zero or negative
    included) the milliseconds from now until the date, floored at 0, when
    [Date.parse] accepts the value, and 30000 when it does not.  On a 429
    response [backoffUntil] becomes the clock reading plus that duration. *)
Theorem parseRetryAfterToMs_cases
        (Number Date_parse : string -> option R) (Number_toString : R -> string) :
  (forall now,
      parseRetryAfterToMs Number Date_parse None now = 30000 /\
      parseRetryAfterToMs Number Date_parse (Some EmptyString) now = 30000) /\
  (forall v x now,
      v <> EmptyString -> Number v = Some x -> 0 < x ->
      parseRetryAfterToMs Number Date_parse (Some v) now = x * 1000) /\
  (forall v asDate now,
      v <> EmptyString -> notPositiveNumber Number v -> Date_parse v = Some asDate ->
      parseRetryAfterToMs Number Date_parse (Some v) now = Rmax 0 (asDate - now)) /\
  (forall v now,
      v <> EmptyString -> notPositiveNumber Number v -> Date_parse v = None ->
      parseRetryAfterToMs Number Date_parse (Some v) now = 30000) /\
  (forall aborted clock responses res st,
      find (fun r => negb (res_ok r)) responses = Some res ->
      res_status res = 429%nat ->
      policeBackoffUntil
        (run_finish Number Date_parse Number_toString aborted clock
                    (FetchResolved responses) st) =
      nowBackoff clock
      + parseRetryAfterToMs Number Date_parse (res_retryAfter res) (nowParse clock)).
Proof.
  split; [apply parseRetryAfterToMs_missing|].
  split; [apply parseRetryAfterToMs_positive|].
  split; [|split].
  - intros v asDate now Hv Hn Hd.
    rewrite parseRetryAfterToMs_via_date by assumption. now rewrite Hd.
  - intros v now Hv Hn Hd.
    rewrite parseRetryAfterToMs_via_date by assumption. now rewrite Hd.
  - apply run_finish_429.
Qed.

(** C4 on three headers: seconds, an HTTP date ten seconds ahead, and
    unreadable text. *)
Lemma parseRetryAfterToMs_cases_witness :
  parseRetryAfterToMs Number_sample Date_parse_sample (Some "30"%string) 1445412470000
  = 30 * 1000 /\
  parseRetryAfterToMs Number_sample Date_parse_sample
    (Some "Wed, 21 Oct 2015 07:28:00 GMT"%string) 1445412470000
  = Rmax 0 (1445412480000 - 1445412470000) /\
  parseRetryAfterToMs Number_sample Date_parse_sample (Some "soon"%string) 1445412470000
  = 30000.
Proof.
  pose proof (parseRetryAfterToMs_cases Number_sample Date_parse_sample
                (fun _ => EmptyString)) as (_ & Hnum & Hdate & Hdflt & _).
  split; [|split].
  - apply Hnum; [discriminate|reflexivity|lra].
  - apply Hdate; [discriminate|intros x Hx; discriminate Hx|reflexivity].
  - apply Hdflt; [discriminate|intros x Hx; discriminate Hx|reflexivity].
Defined.

(** ** Backoff *)




(** ** Insertion-ordered maps *)

Section MapFacts.
Context {V : Type}.
Implicit Types (k : string) (v : V) (m entries : list (string * V)).

Lemma Map_get_set_same k v m : Map_get k (Map_set k v m) = Some v.
Proof.
  induction m as [|[k' v'] m IH]; cbn.
  - now rewrite String.eqb_refl.
  - destruct (String.eqb k k') eqn:E; cbn; rewrite E; [reflexivity|exact IH].
Qed.

Lemma Map_get_set_other k k' v m :
  k <> k' -> Map_get k' (Map_set k v m) = Map_get k' m.
Proof.
  intros Hne. induction m as [|[k0 v0] m IH]; cbn.
  - assert (String.eqb k' k = false) as -> by (apply String.eqb_neq; congruence).
    reflexivity.
  - destruct (String.eqb k k0) eqn:E; cbn.
    + apply String.eqb_eq in E. subst k0.
      assert (String.eqb k' k = false) as -> by (apply String.eqb_neq; congruence).
      reflexivity.
    + destruct (String.eqb k' k0); [reflexivity|exact IH].
Qed.

Lemma Map_set_In k v m (e : string * V) :
  In e (Map_set k v m) -> In e m \/ e = (k, v).
Proof.
  induction m as [|[k' v'] m IH]; cbn.
  - intros [<-|[]]. now right.
  - destruct (String.eqb k k') eqn:E; cbn.
    + apply String.eqb_eq in E. subst k'. intros [<-|H]; auto.
    + intros [<-|H]; auto. destruct (IH H); auto.
Qed.

Lemma Map_set_keys k v m :
  map fst (Map_set k v m) = map fst m \/
  (~ In k (map fst m) /\ map fst (Map_set k v m) = map fst m ++ [k]).
Proof.
  induction m as [|[k' v'] m IH]; cbn.
  - right. split; [tauto|reflexivity].
  - destruct (String.eqb k k') eqn:E; cbn.
    + now left.
    + apply String.eqb_neq in E.
      destruct IH as [->|[Hn ->]]; [now left|].
      right. split; [|reflexivity]. intros [H|H]; [congruence|contradiction].
Qed.

Lemma Map_set_NoDup k v m :
  NoDup (map fst m) -> NoDup (map fst (Map_set k v m)).
Proof.
  intros ND. destruct (Map_set_keys k v m) as [->|[Hn ->]]; [exact ND|].
  apply NoDup_app; [exact ND|repeat constructor; simpl; tauto|].
  intros x Hx [<-|[]]. contradiction.
Qed.

Lemma find_app_last {A : Type} (f : A -> bool) (l : list A) (x : A) :
  find f (l ++ [x]) =
  match find f l with
  | Some y => Some y
  | None => if f x then Some x else None
  end.
Proof.
  induction l as [|a l IH]; cbn; [reflexivity|].
  destruct (f a); [reflexivity|exact IH].
Qed.

Lemma fold_Map_set_get k entries m :
  Map_get k (fold_left (fun m e => Map_set (fst e) (snd e) m) entries m) =
  match find (fun e => String.eqb k (fst e)) (rev entries) with
  | Some e => Some (snd e)
  | None => Map_get k m
  end.
Proof.
  revert m. induction entries as [|e entries IH]; intros m; cbn [fold_left rev].
  - reflexivity.
  - rewrite IH, find_app_last.
    destruct (find _ (rev entries)); [reflexivity|].
    destruct (String.eqb k (fst e)) eqn:E.
    + apply String.eqb_eq in E. subst k. apply Map_get_set_same.
    + apply String.eqb_neq in E. apply Map_get_set_other. congruence.
Qed.

(** Looking a key up in [new Map(entries)] finds the last entry with that
    key. *)
Lemma Map_of_get k entries :
  Map_get k (Map_of entries) =
  option_map snd (find (fun e => String.eqb k (fst e)) (rev entries)).
Proof.
  unfold Map_of. rewrite fold_Map_set_get.
  destruct (find _ _); reflexivity.
Qed.

Lemma fold_Map_set_In entries m (e : string * V) :
  In e (fold_left (fun m e => Map_set (fst e) (snd e) m) entries m) ->
  In e m \/ In e entries.
Proof.
  revert m. induction entries as [|e0 entries IH]; intros m; cbn [fold_left].
  - auto.
  - intros H. destruct (IH _ H) as [H'|H']; [|right; now right].
    destruct (Map_set_In _ _ _ _ H') as [H0| ->]; [now left|].
    right. left. now destruct e0.
Qed.

Lemma Map_of_In entries (e : string * V) : In e (Map_of entries) -> In e entries.
Proof.
  intros H. destruct (fold_Map_set_In _ _ _ H) as [H0|H0]; [destruct H0|assumption].
Qed.

Lemma fold_Map_set_NoDup entries m :
  NoDup (map fst m) ->
  NoDup (map fst (fold_left (fun m e => Map_set (fst e) (snd e) m) entries m)).
Proof.
  revert m. induction entries as [|e entries IH]; intros m ND; cbn [fold_left].
  - exact ND.
  - apply IH. now apply Map_set_NoDup.
Qed.

Lemma Map_of_NoDup entries : NoDup (map fst (Map_of entries)).
Proof. apply fold_Map_set_NoDup. constructor. Qed.

Lemma Map_get_Some_In k v m : Map_get k m = Some v -> In (k, v) m.
Proof.
  induction m as [|[k' v'] m IH]; cbn; [discriminate|].
  destruct (String.eqb k k') eqn:E.
  - apply String.eqb_eq in E. subst. intros H. injection H as ->. now left.
  - intros H. right. auto.
Qed.

(** When every entry is filed under the key of its value, searching the
    values by key is looking the key up. *)
Lemma find_values_by_key (key : V -> string) k m :
  Forall (fun e => fst e = key (snd e)) m ->
  find (fun x => String.eqb k (key x)) (Map_values m) = Map_get k m.
Proof.
  induction 1 as [|[k' v'] m Hk _ IH]; cbn; [reflexivity|].
  cbn in Hk. subst k'. destruct (String.eqb k (key v')); [reflexivity|exact IH].
Qed.

Lemma keys_of_values (key : V -> string) m :
  Forall (fun e => fst e = key (snd e)) m ->
  map key (Map_values m) = map fst m.
Proof.
  induction 1 as [|[k' v'] m Hk _ IH]; cbn; [reflexivity|].
  cbn in Hk. unfold Map_values in IH. now rewrite IH, Hk.
Qed.

End MapFacts.

(** ** The published police alerts *)

Section PoliceFeedFacts.
Variable Number_toString : R -> string.

Lemma toAlert_Some (a : RawAlert) (p : Alert) :
  toAlert Number_toString a = Some p ->
  exists lng0 lat0,
    ra_location a = Some (JNum lng0, JNum lat0) /\
    al_id p = alertId Number_toString a lng0 lat0 /\
    al_location p = mkGeo lat0 lng0 /\
    al_raw p = a.
Proof.
  unfold toAlert.
  destruct (ra_location a) as [[x y]|]; [|discriminate].
  destruct x; try discriminate. destruct y; try discriminate.
  intros H. injection H as <-. eauto 10.
Qed.

Lemma toAlert_None (a : RawAlert) :
  (forall lng0 lat0, ra_location a <> Some (JNum lng0, JNum lat0)) ->
  toAlert Number_toString a = None.
Proof.
  intros H. destruct (toAlert Number_toString a) as [p|] eqn:E; [|reflexivity].
  destruct (toAlert_Some _ _ E) as (lng0 & lat0 & Hl & _).
  now apply H in Hl.
Qed.

Lemma policeOf_In (alerts : list RawAlert) (p : Alert) :
  In p (policeOf Number_toString alerts) <->
  exists a, In a alerts /\ isPoliceAlert a = true /\ toAlert Number_toString a = Some p.
Proof.
  unfold policeOf. rewrite in_flat_map. split.
  - intros (a & Ha & Hp). apply filter_In in Ha. destruct Ha as [Ha Hpol].
    exists a. repeat split; auto.
    destruct (toAlert Number_toString a) as [q|]; [|destruct Hp].
    destruct Hp as [->|[]]. reflexivity.
  - intros (a & Ha & Hpol & Hp). exists a. split.
    + apply filter_In. auto.
    + rewrite Hp. now left.
Qed.

Lemma dedupeById_entries (police : list Alert) :
  Forall (fun e => fst e = al_id (snd e))
         (Map_of (map (fun p => (al_id p, p)) police)).
Proof.
  apply Forall_forall. intros e He. apply Map_of_In in He.
  apply in_map_iff in He. destruct He as (p & <- & _). reflexivity.
Qed.

Lemma dedupeById_In (police : list Alert) (p : Alert) :
  In p (dedupeById police) -> In p police.
Proof.
  unfold dedupeById, Map_values. intros H.
  apply in_map_iff in H. destruct H as ([k q] & <- & He).
  apply Map_of_In in He. apply in_map_iff in He.
  destruct He as (p' & E & Hp'). injection E as _ <-. exact Hp'.
Qed.

Lemma dedupeById_NoDup (police : list Alert) :
  NoDup (map al_id (dedupeById police)).
Proof.
  unfold dedupeById.
  rewrite (keys_of_values al_id _ (dedupeById_entries police)).
  apply Map_of_NoDup.
Qed.

(** Last-seen wins: under each id, the published list holds the last
    alert that carries it. *)
Lemma dedupeById_last (police : list Alert) (k : string) :
  find (fun p => String.eqb k (al_id p)) (dedupeById police) = lastWithId k police.
Proof.
  unfold dedupeById, lastWithId.
  rewrite (find_values_by_key al_id k _ (dedupeById_entries police)).
  rewrite Map_of_get, <- map_rev.
  induction (rev police) as [|q l IH]; cbn; [reflexivity|].
  destruct (String.eqb k (al_id q)); [reflexivity|exact IH].
Qed.

(** The three sources of the id, in the order the code tries them. *)
Lemma alertId_cases (a : RawAlert) (lng0 lat0 : R) :
  (forall u, orNull (ra_uuid a) = Some u -> alertId Number_toString a lng0 lat0 = u) /\
  (forall i, orNull (ra_uuid a) = None -> orNull (ra_id a) = Some i ->
             alertId Number_toString a lng0 lat0 = i) /\
  (orNull (ra_uuid a) = None -> orNull (ra_id a) = None ->
   alertId Number_toString a lng0 lat0 = compositeId Number_toString a lng0 lat0).
Proof.
  unfold alertId. repeat split.
  - intros u ->. reflexivity.
  - intros i -> ->. reflexivity.
  - intros -> ->. reflexivity.
Qed.

End PoliceFeedFacts.

(** Against C2 as stated.  With no [uuid] the key is not always the
    composite: when the feed gives an [id], that is the key. *)
Lemma police_id_prefers_feed_id :
  orNull (ra_uuid alertWithFeedId) = None /\
  ra_location alertWithFeedId = Some (JNum 26.1, JNum 44.4) /\
  forall Number_toString : R -> string,
    map al_id (publishedPolice Number_toString [alertWithFeedId]) = ["w-1"%string] /\
    compositeId Number_toString alertWithFeedId 26.1 44.4 <> "w-1"%string.
Proof.
  split; [reflexivity|]. split; [reflexivity|].
  intros toStr. split.
  - reflexivity.
  - unfold compositeId. cbn. discriminate.
Qed.

(** Every published alert is the image of a police alert of the feed
    whose two coordinates are numbers. *)
Lemma published_source (Number_toString : R -> string) (alerts : list RawAlert)
      (p : Alert) :
  In p (dedupeById (policeOf Number_toString alerts)) ->
  exists a lng0 lat0,
    In a alerts /\ isPoliceAlert a = true /\
    ra_location a = Some (JNum lng0, JNum lat0) /\
    toAlert Number_toString a = Some p /\
    al_location p = mkGeo lat0 lng0 /\
    al_id p = alertId Number_toString a lng0 lat0 /\ al_raw p = a.
Proof.
  intros Hp. apply dedupeById_In, policeOf_In in Hp.
  destruct Hp as (a & Ha & Hpol & Hto).
  destruct (toAlert_Some _ _ _ Hto) as (lng0 & lat0 & Hloc & Hid & Hgeo & Hraw).
  exists a, lng0, lat0. auto 10.
Qed.

(** A cycle whose responses are all [ok] and parse, and which was not
    aborted, stores the deduplicated police alerts. *)
Lemma run_finish_publishes (Number Date_parse : string -> option R)
      (Number_toString : R -> string) (clock : Clock)
      (responses : list Response) (alerts : list RawAlert) (st : PoliceState) :
  find (fun r => negb (res_ok r)) responses = None ->
  collectAlerts responses = inr alerts ->
  policeAlerts
    (run_finish Number Date_parse Number_toString false clock
                (FetchResolved responses) st) =
  publishedPolice Number_toString alerts.
Proof.
  intros Hok Hjson. unfold run_finish, afterFetch. now rewrite Hok, Hjson.
Qed.

(** C2, as the code has it.  Of the fetched raw alerts, those that are not police
    alerts and those whose two location coordinates are not both numbers
    are discarded; each remaining alert gets as identity key its [uuid]
    when that is present (non-empty), otherwise the feed's [id] when that
    is present, and only otherwise the composite of type, coordinates and
    timestamp; the published list holds one alert per key, the last one
    seen with it. *)
Theorem publishedPolice_dedupes (Number_toString : R -> string)
        (alerts : list RawAlert) :
  let published := publishedPolice Number_toString alerts in
  (forall p, In p published ->
     exists a lng0 lat0,
       In a alerts /\ isPoliceAlert a = true /\
       ra_location a = Some (JNum lng0, JNum lat0) /\
       toAlert Number_toString a = Some p /\
       al_location p = mkGeo lat0 lng0 /\
       al_id p = alertId Number_toString a lng0 lat0) /\
  (forall a,
     (forall lng0 lat0, ra_location a <> Some (JNum lng0, JNum lat0)) ->
     forall p, In p published -> al_raw p <> a) /\
  (forall a lng0 lat0,
     (forall u, orNull (ra_uuid a) = Some u -> alertId Number_toString a lng0 lat0 = u) /\
     (forall i, orNull (ra_uuid a) = None -> orNull (ra_id a) = Some i ->
                alertId Number_toString a lng0 lat0 = i) /\
     (orNull (ra_uuid a) = None -> orNull (ra_id a) = None ->
      alertId Number_toString a lng0 lat0 = compositeId Number_toString a lng0 lat0)) /\
  NoDup (map al_id published) /\
  (forall k,
     find (fun p => String.eqb k (al_id p)) published =
     lastWithId k (policeOf Number_toString alerts)) /\
  (forall Number Date_parse clock responses st,
     find (fun r => negb (res_ok r)) responses = None ->
     collectAlerts responses = inr alerts ->
     policeAlerts
       (run_finish Number Date_parse Number_toString false clock
                   (FetchResolved responses) st) = published).
Proof.
  cbv zeta. unfold publishedPolice.
  pose proof (published_source Number_toString alerts) as Hsrc.
  split; [|split; [|split; [|split; [|split]]]].
  - intros p Hp. destruct (Hsrc p Hp) as (a & lng0 & lat0 & H).
    exists a, lng0, lat0. tauto.
  - intros a Hnum p Hp Hraw.
    destruct (Hsrc p Hp) as (a' & lng0 & lat0 & _ & _ & Hloc & _ & _ & _ & Hraw').
    rewrite Hraw in Hraw'. subst a'. now apply Hnum in Hloc.
  - intros. apply alertId_cases.
  - apply dedupeById_NoDup.
  - intros k. apply dedupeById_last.
  - intros. now apply run_finish_publishes.
Qed.

(** ** The primary warning feed *)

Lemma isTwo_array_length (elems : list JsVal) :
  isTwo (js_length (JArr elems)) = true <-> length elems = 2%nat.
Proof.
  cbn. rewrite Reqb_true. split.
  - intros H. apply INR_eq. rewrite H. simpl. lra.
  - intros ->. simpl. lra.
Qed.

Section WarningsFacts.
Variable ToString : JsVal -> string.

Lemma prevById_id (prev : list Warning) (k : string) (w : Warning) :
  Map_get k (Map_of (map (fun w => (w_id w, w)) prev)) = Some w -> w_id w = k.
Proof.
  intros H. apply Map_get_Some_In, Map_of_In, in_map_iff in H.
  destruct H as (w' & E & _). injection E as <- <-. reflexivity.
Qed.

(** The kept entries are those that pass the check, in the order of the
    feed, and each is filed under the composite id. *)
Lemma nextWarnings_ids (data : list JsVal) (prev : list Warning) :
  map w_id (nextWarnings ToString data prev) =
  map (warningId ToString) (filter passesShapeCheck data).
Proof.
  unfold nextWarnings. cbv zeta.
  induction data as [|item data IH]; cbn [flat_map filter map]; [reflexivity|].
  destruct (passesShapeCheck item); [|exact IH].
  cbn [app map]. rewrite IH. f_equal.
  destruct (Map_get _ _) as [w|] eqn:E; [|reflexivity].
  now apply prevById_id in E.
Qed.

Lemma nextWarnings_length (data : list JsVal) (prev : list Warning) :
  length (nextWarnings ToString data prev) = length (filter passesShapeCheck data).
Proof.
  rewrite <- (length_map w_id), nextWarnings_ids. apply length_map.
Qed.

End WarningsFacts.

(** What the shape check accepts: an object whose [point] is truthy and
    has a [length] equal to 2. *)
Lemma passesShapeCheck_iff (item : JsVal) :
  passesShapeCheck item = true <->
  exists fields,
    item = JObj fields /\
    truthy (js_get "point" fields) = true /\
    isTwo (js_length (js_get "point" fields)) = true.
Proof.
  unfold passesShapeCheck. split.
  - intros H. apply andb_prop in H. destruct H as [H H2].
    apply andb_prop in H. destruct H as [H0 H1].
    destruct item; try discriminate H1.
    exists fields. auto.
  - intros (fields & -> & H1 & H2). cbn [truthy prop]. now rewrite H1, H2.
Qed.

(** Against C8 as stated.  The check reads only [length]: a [point] that
    is a two-character string is not an array, and the entry is kept. *)
Lemma string_point_is_kept :
  (forall elems, prop "point" itemWithStringPoint <> JArr elems) /\
  passesShapeCheck itemWithStringPoint = true /\
  forall (ToString : JsVal -> string) (prev : list Warning),
    length (nextWarnings ToString [itemWithStringPoint] prev) = 1%nat.
Proof.
  assert (H : passesShapeCheck itemWithStringPoint = true).
  { apply passesShapeCheck_iff. eexists. split; [reflexivity|].
    cbn. split; [reflexivity|]. apply Reqb_true. lra. }
  split; [intros elems; cbn; discriminate|].
  split; [exact H|].
  intros ToString prev. rewrite nextWarnings_length. cbn [filter]. now rewrite H.
Qed.

(** C8, as the code has it.  From a polled response array, an entry is
    dropped when it is falsy, when its [point] is missing or falsy, or when
    the [length] of its [point] is not 2; in particular every entry whose
    [point] is an array with another number of elements than two is
    dropped, and an array of two elements passes.  Every kept entry is
    filed under the composite key [userId-url-created], in the order of the
    feed. *)
Theorem nextWarnings_shape_and_key (ToString : JsVal -> string)
        (data : list JsVal) (prev : list Warning) :
  map w_id (nextWarnings ToString data prev) =
    map (warningId ToString) (filter passesShapeCheck data) /\
  (forall item,
     passesShapeCheck item = true <->
     exists fields,
       item = JObj fields /\
       truthy (js_get "point" fields) = true /\
       isTwo (js_length (js_get "point" fields)) = true) /\
  (forall fields elems,
     js_get "point" fields = JArr elems ->
     (passesShapeCheck (JObj fields) = true <-> length elems = 2%nat)) /\
  (forall item,
     truthy item = false \/ truthy (prop "point" item) = false ->
     passesShapeCheck item = false) /\
  (forall item,
     warningId ToString item =
     (ToString (prop "userId" item) ++ "-" ++ ToString (prop "url" item) ++ "-"
        ++ ToString (prop "created" item))%string).
Proof.
  split; [apply nextWarnings_ids|].
  split; [apply passesShapeCheck_iff|].
  split; [|split].
  - intros fields elems Hp. unfold passesShapeCheck. cbn [truthy prop].
    rewrite Hp. cbn [truthy andb]. apply isTwo_array_length.
  - intros item [H|H]; unfold passesShapeCheck; rewrite H;
      [reflexivity|apply andb_false_r || (destruct (truthy item); reflexivity)].
  - reflexivity.
Qed.

(** A poll that succeeds with an array, while the component is mounted and
    the token is configured, applies the updater. *)
Lemma fetchWarnings_success (ToString : JsVal -> string) (token : string)
      (data : list JsVal) (warnings : list Warning) :
  token <> EmptyString ->
  fetchWarnings ToString (Some token) true (PollResponse true (Some (JArr data))) warnings
  = nextWarnings ToString data warnings.
Proof.
  intros H. unfold fetchWarnings, orNull.
  apply String.eqb_neq in H. now rewrite H.
Qed.

(** ** Further properties of the planner, the limiter and the filter *)

Lemma normalizeLng_id (l : R) : -180 < l < 180 -> normalizeLng l = l.
Proof.
  intros Hl.
  destruct (normalizeLng_congruent l) as [k Hk].
  assert (Hr : -180 < normalizeLng l <= 180)
    by (destruct (normalizeLng_cases l) as [[_ H]|[_ H]]; lra).
  assert (Hk0 : k = 0%Z).
  { assert (IZR (-1) < IZR k < IZR 1) as [H1 H2] by (split; lra).
    apply lt_IZR in H1, H2. lia. }
  subst k. lra.
Qed.

Lemma requestBoxes_per_span (b : Bounds) (zoom : R) :
  length (requestBoxes (buildWazeTileSnappedQuery (Some b) zoom)) =
  length (spansOf (normalizeLng (getWest b)) (normalizeLng (getEast b))).
Proof.
  unfold buildWazeTileSnappedQuery. cbv zeta.
  destruct (lowerZoom _ _) as [zf c] eqn:E.
  apply lowerZoom_spec in E. destruct E as (-> & _).
  cbn [requestBoxes computeAtZoom c_requestBoxes]. apply length_map.
Qed.

(** A viewport from 170 degrees east to 170 degrees west crosses the
    antimeridian and is queried with exactly two request boxes, at every
    zoom and for every latitude range. *)
Theorem antimeridian_two_requests (s n zoom : R) :
  length (requestBoxes (buildWazeTileSnappedQuery (Some (mkBounds s 170 n (-170))) zoom))
  = 2%nat.
Proof.
  rewrite requestBoxes_per_span. cbn [getWest getEast west east].
  rewrite !normalizeLng_id by lra.
  unfold spansOf.
  assert (Rltb (-170) 170 = true) as -> by (apply Rltb_true; lra).
  reflexivity.
Qed.

(** Outside a cooldown, a cycle that starts less than 2500 ms after the
    last successful fetch returns without a request and without touching
    the state: no error is reported. *)
Theorem throttle_skips_silently (now : R) (wazeEnvMode : string) (mapBounds : Bounds)
        (mapZoom : R) (st : PoliceState) :
  policeBackoffUntil st <= now ->
  now - policeLastFetchAt st < 2500 ->
  run_start now wazeEnvMode mapBounds mapZoom st = Returned st.
Proof.
  intros Hb Ht. unfold run_start, MIN_WAZE_FETCH_INTERVAL_MS.
  apply Rltb_false in Hb. apply Rltb_true in Ht. now rewrite Hb, Ht.
Qed.

Lemma throttle_skips_silently_witness :
  run_start 11000 "row" (mkBounds 44 26 45 27) 12
            (mkPolice 0 10000 None [] false NoError (Some 10000))
  = Returned (mkPolice 0 10000 None [] false NoError (Some 10000)).
Proof.
  apply throttle_skips_silently; cbn [policeBackoffUntil policeLastFetchAt]; lra.
Defined.

Lemma boxes_eqb_refl (l : list TileBox) : boxes_eqb l l = true.
Proof.
  induction l as [|b l IH]; [reflexivity|].
  cbn [boxes_eqb]. rewrite IH. unfold box_eqb.
  now rewrite !(proj2 (Reqb_true _ _) eq_refl).
Qed.

Lemma sameKey_refl (k : QueryKey) : sameKey k (Some k) = true.
Proof. unfold sameKey. now rewrite boxes_eqb_refl, String.eqb_refl. Qed.

(** Below the zoom floor the filter renders nothing and reports no
    overflow, whatever the dataset. *)
Theorem below_zoom_floor_renders_nothing (showSpeedRadars loading : bool)
        (mapBounds : option Bounds) (mapZoom : R) (world : list RadarPoint) :
  mapZoom < 6 ->
  speedRadarsInView showSpeedRadars mapBounds mapZoom loading world = mkView [] 0 false.
Proof.
  intros H. unfold speedRadarsInView, MIN_SPEED_RADAR_RENDER_ZOOM.
  apply Rltb_true in H. rewrite H.
  destruct showSpeedRadars, mapBounds; reflexivity.
Qed.

Lemma below_zoom_floor_renders_nothing_witness :
  speedRadarsInView true (Some (mkBounds 44 26 45 27)) 5 false
                    [mkRadar "r1" 44.5 26.5 "Main St"] = mkView [] 0 false.
Proof. apply below_zoom_floor_renders_nothing. lra. Defined.

(** A cycle that fails (a rejected request, a response that is not [ok],
    a body that does not parse) leaves the published alerts as they were:
    the old markers stay on the map. *)
Theorem failed_cycle_keeps_alerts
        (Number Date_parse : string -> option R) (Number_toString : R -> string)
        (aborted : bool) (clock : Clock) (outcome : FetchOutcome) (st : PoliceState)
        (message : string) :
  snd (afterFetch Number Date_parse clock outcome st) = inl message ->
  policeAlerts (run_finish Number Date_parse Number_toString aborted clock outcome st)
  = policeAlerts st.
Proof.
  intros H. unfold run_finish.
  assert (Hst : policeAlerts (fst (afterFetch Number Date_parse clock outcome st))
                = policeAlerts st).
  { unfold afterFetch. destruct outcome as [m|responses]; [reflexivity|].
    destruct (find _ responses) as [res|]; [|reflexivity].
    destruct (Nat.eqb _ _); reflexivity. }
  destruct (afterFetch Number Date_parse clock outcome st) as [st1 result].
  cbn [fst snd] in *. subst result.
  destruct aborted; cbn [negb]; [exact Hst|].
  destruct (includes "429" message); exact Hst.
Qed.

Lemma failed_cycle_keeps_alerts_witness :
  policeAlerts
    (run_finish Number_sample Date_parse_sample (fun _ => EmptyString) false
                (mkClock 20000 20000 20001 20002 20003)
                (FetchResolved [mkResponse false 503 None (JsonData None)])
                (mkPolice 0 0 None [] true NoError None))
  = [].
Proof.
  apply (failed_cycle_keeps_alerts Number_sample Date_parse_sample (fun _ => EmptyString)
           false (mkClock 20000 20000 20001 20002 20003)
           (FetchResolved [mkResponse false 503 None (JsonData None)])
           (mkPolice 0 0 None [] true NoError None)
           "Waze request failed (503)").
  reflexivity.
Defined.

(** ** Longitudes modulo a turn *)

Lemma normalizeLng_image (l : R) : -180 < normalizeLng l <= 180.
Proof. destruct (normalizeLng_cases l) as [[_ H]|[_ H]]; lra. Qed.

(** Two longitudes of the image that differ by whole turns are equal. *)
Lemma image_congruent_eq (a b : R) (k : Z) :
  -180 < a <= 180 -> -180 < b <= 180 -> a = b + 360 * IZR k -> a = b.
Proof.
  intros Ha Hb E.
  assert (k = 0%Z) as ->.
  { assert (IZR (-1) < IZR k < IZR 1) as [H1 H2] by (split; lra).
    apply lt_IZR in H1, H2. lia. }
  lra.
Qed.

Lemma normalizeLng_shift (l : R) (k : Z) :
  normalizeLng (l + 360 * IZR k) = normalizeLng l.
Proof.
  destruct (normalizeLng_congruent (l + 360 * IZR k)) as [k1 H1].
  destruct (normalizeLng_congruent l) as [k2 H2].
  apply (image_congruent_eq _ _ (k + k1 - k2)); try apply normalizeLng_image.
  rewrite minus_IZR, plus_IZR. lra.
Qed.

Lemma normalizeLng_idempotent (l : R) : normalizeLng (normalizeLng l) = normalizeLng l.
Proof.
  destruct (normalizeLng_congruent l) as [k Hk].
  rewrite Hk at 1. apply normalizeLng_shift.
Qed.

(** [normalizeLng] picks one longitude out of each class modulo 360: it
    does not tell a longitude from its copies on a wrapped map, and what it
    returns it leaves alone. *)
Theorem normalizeLng_wrapped_copies (l : R) (k : Z) :
  normalizeLng (l + 360 * IZR k) = normalizeLng l /\
  normalizeLng (normalizeLng l) = normalizeLng l /\
  (forall l', normalizeLng l = normalizeLng l' <->
              exists j : Z, l' = l + 360 * IZR j).
Proof.
  split; [apply normalizeLng_shift|]. split; [apply normalizeLng_idempotent|].
  intros l'. split.
  - intros E. destruct (normalizeLng_congruent l) as [k1 H1].
    destruct (normalizeLng_congruent l') as [k2 H2].
    exists (k1 - k2)%Z. rewrite minus_IZR. lra.
  - intros [j ->]. symmetry. apply normalizeLng_shift.
Qed.

(** The point test does not change when the point is replaced by a copy a
    whole number of turns away, nor when the two meridians of the bounds
    are. *)
Theorem isPointInBounds_wrapped_copies (la l : R) (b : Bounds) (k j : Z) :
  isPointInBounds (mkGeo la (l + 360 * IZR k)) (Some b) = isPointInBounds (mkGeo la l) (Some b) /\
  isPointInBounds (mkGeo la l)
    (Some (mkBounds (south b) (west b + 360 * IZR j) (north b) (east b + 360 * IZR j)))
  = isPointInBounds (mkGeo la l) (Some b).
Proof.
  unfold isPointInBounds, getNorth, getSouth, getWest, getEast. cbn [lat lng south west north east].
  now rewrite !normalizeLng_shift.
Qed.

(** ** The haversine distance *)

Lemma asin_nonneg (x : R) : 0 <= x <= 1 -> 0 <= asin x.
Proof.
  intros Hx. destruct (Rle_dec 0 (asin x)) as [H|H]; [exact H|].
  exfalso. pose proof (asin_bound x) as Hb. pose proof PI_RGT_0.
  assert (sin (asin x) < 0) by (apply sin_lt_0_var; lra).
  rewrite sin_asin in H1 by lra. lra.
Qed.

Lemma haversine_arg_unit (h : R) : 0 <= Rmin 1 (sqrt h) <= 1.
Proof.
  pose proof (sqrt_pos h). unfold Rmin. destruct (Rle_dec 1 (sqrt h)); lra.
Qed.

(** [haversineMeters] is symmetric, vanishes from a point to itself, is
    never negative and never exceeds half the circumference of the sphere
    of radius 6371000 m. *)
Theorem haversineMeters_distance (a b : GeoPoint) :
  haversineMeters a b = haversineMeters b a /\
  haversineMeters a a = 0 /\
  0 <= haversineMeters a b <= PI * 6371000.
Proof.
  split; [|split].
  - unfold haversineMeters, toRad. cbv zeta.
    replace ((lat a - lat b) * PI / 180 / 2) with (- ((lat b - lat a) * PI / 180 / 2)) by lra.
    replace ((lng a - lng b) * PI / 180 / 2) with (- ((lng b - lng a) * PI / 180 / 2)) by lra.
    rewrite !sin_neg.
    match goal with
    | |- _ * asin (Rmin 1 (sqrt ?x)) = _ * asin (Rmin 1 (sqrt ?y)) =>
        replace x with y by ring
    end.
    reflexivity.
  - unfold haversineMeters, toRad. cbv zeta.
    replace ((lat a - lat a) * PI / 180 / 2) with 0 by lra.
    replace ((lng a - lng a) * PI / 180 / 2) with 0 by lra.
    rewrite sin_0.
    replace (0 * 0 + cos (lat a * PI / 180) * cos (lat a * PI / 180) * 0 * 0) with 0 by ring.
    rewrite sqrt_0, Rmin_right by lra. rewrite asin_0. ring.
  - unfold haversineMeters. cbv zeta.
    set (h := _ + _).
    pose proof (haversine_arg_unit h) as Hu.
    pose proof (asin_nonneg _ Hu). pose proof (asin_bound (Rmin 1 (sqrt h))).
    split; nra.
Qed.

(** ** Single linkage: chained inside, apart across *)

Section LinkageFacts.
Context {T : Type}.
Variable locOf : T -> GeoPoint.
Variable radiusMeters : R.

Lemma nearAny_false (cluster : list T) (q : T) :
  nearAny locOf radiusMeters cluster q = false <->
  forall p, In p cluster -> radiusMeters < haversineMeters (locOf p) (locOf q).
Proof.
  unfold nearAny. induction cluster as [|x xs IH]; cbn [existsb].
  - split; [intros _ p []|reflexivity].
  - rewrite orb_false_iff, IH, Rleb_false. split.
    + intros [Hx Hxs] p [<-|Hp]; auto.
    + intros H. split; [apply H; now left|intros p Hp; apply H; now right].
Qed.

(** A pass that absorbs nothing leaves everything as it was, and found no
    remaining point near the cluster. *)
Lemma absorbPass_stable (cluster remaining cl kept : list T) :
  absorbPass locOf radiusMeters cluster remaining = (cl, kept, false) ->
  cl = cluster /\ kept = remaining /\
  Forall (fun q => nearAny locOf radiusMeters cluster q = false) remaining.
Proof.
  unfold absorbPass. revert cl kept.
  induction remaining as [|x xs IH]; intros cl kept; cbn [fold_right].
  - intros H. injection H as <- <-. auto.
  - destruct (fold_right (absorbStep locOf radiusMeters) (cluster, [], false) xs)
      as [[cl0 k0] ch0].
    unfold absorbStep. destruct (nearAny locOf radiusMeters cl0 x) eqn:E; [discriminate|].
    intros H. injection H as <- <- ->.
    destruct (IH cl0 k0 eq_refl) as (-> & -> & HF).
    repeat split; auto.
Qed.

(** When the absorbing loop ends, no point left over is near the cluster. *)
Lemma absorbAll_closed (cluster remaining : list T) :
  Forall (fun q => nearAny locOf radiusMeters
                     (fst (absorbAll locOf radiusMeters cluster remaining)) q = false)
         (snd (absorbAll locOf radiusMeters cluster remaining)).
Proof.
  funelim (absorbAll locOf radiusMeters cluster remaining).
  - assumption.
  - destruct (absorbPass_stable _ _ _ _ e) as (-> & -> & HF). exact HF.
Qed.

Lemma absorbPass_chained (cluster remaining : list T) :
  Chained locOf radiusMeters cluster ->
  Chained locOf radiusMeters
          (fst (fst (absorbPass locOf radiusMeters cluster remaining))).
Proof.
  intros HC. unfold absorbPass. induction remaining as [|x xs IH]; cbn [fold_right].
  - exact HC.
  - destruct (fold_right (absorbStep locOf radiusMeters) (cluster, [], false) xs)
      as [[cl0 k0] ch0].
    cbn [fst] in IH. unfold absorbStep.
    destruct (nearAny locOf radiusMeters cl0 x) eqn:E; cbn [fst].
    + now apply Chained_absorb.
    + exact IH.
Qed.

Lemma absorbAll_chained (cluster remaining : list T) :
  Chained locOf radiusMeters cluster ->
  Chained locOf radiusMeters (fst (absorbAll locOf radiusMeters cluster remaining)).
Proof.
  funelim (absorbAll locOf radiusMeters cluster remaining); intros HC.
  - apply H. pose proof (absorbPass_chained cluster remaining HC) as HP.
    now rewrite e in HP.
  - pose proof (absorbPass_chained cluster remaining HC) as HP.
    now rewrite e in HP.
Qed.

Lemma clusterGroups_chained (points : list T) :
  Forall (Chained locOf radiusMeters) (clusterGroups locOf radiusMeters points).
Proof.
  funelim (clusterGroups locOf radiusMeters points).
  - constructor; [|assumption]. apply absorbAll_chained. constructor.
  - constructor.
Qed.

Lemma clusterGroups_apart (points : list T) :
  ForallOrdPairs (apart locOf radiusMeters) (clusterGroups locOf radiusMeters points).
Proof.
  funelim (clusterGroups locOf radiusMeters points).
  - constructor; [|assumption].
    apply Forall_forall. intros g' Hg' p q Hp Hq.
    pose proof (absorbAll_closed [seed] rest) as HF.
    rewrite Forall_forall in HF.
    destruct (clusterGroups_partition locOf radiusMeters
                (snd (absorbAll locOf radiusMeters [seed] rest))) as [HP _].
    assert (Hin : In q (snd (absorbAll locOf radiusMeters [seed] rest))).
    { apply (Permutation_in _ HP). apply in_concat. eauto. }
    apply (proj1 (nearAny_false _ _) (HF q Hin)). exact Hp.
  - constructor.
Qed.

(** The center lies in every box of latitudes and longitudes that holds
    all the members. *)
Lemma fold_sum_bounds (lo hi lo' hi' : R) (cluster : list T) (acc : GeoPoint) :
  (forall p, In p cluster -> lo <= lat (locOf p) <= hi /\ lo' <= lng (locOf p) <= hi') ->
  let total := fold_left (fun acc p => mkGeo (lat acc + lat (locOf p))
                                              (lng acc + lng (locOf p))) cluster acc in
  lat acc + INR (length cluster) * lo <= lat total <= lat acc + INR (length cluster) * hi /\
  lng acc + INR (length cluster) * lo' <= lng total <= lng acc + INR (length cluster) * hi'.
Proof.
  revert acc. induction cluster as [|x xs IH]; intros acc H; cbv zeta.
  - cbn. lra.
  - cbn [fold_left]. change (length (x :: xs)) with (S (length xs)). rewrite S_INR.
    specialize (IH (mkGeo (lat acc + lat (locOf x)) (lng acc + lng (locOf x)))
                   (fun p Hp => H p (or_intror Hp))).
    cbv zeta in IH. cbn [lat lng] in IH.
    destruct (H x (or_introl eq_refl)) as [Hx Hx']. lra.
Qed.

Lemma centerOf_in_box (lo hi lo' hi' : R) (cluster : list T) :
  cluster <> [] ->
  (forall p, In p cluster -> lo <= lat (locOf p) <= hi /\ lo' <= lng (locOf p) <= hi') ->
  lo <= lat (centerOf locOf cluster) <= hi /\
  lo' <= lng (centerOf locOf cluster) <= hi'.
Proof.
  intros Hne H. unfold centerOf. cbv zeta. cbn [lat lng].
  pose proof (fold_sum_bounds lo hi lo' hi' cluster (mkGeo 0 0) H) as HB.
  cbv zeta in HB. cbn [lat lng] in HB.
  assert (Hn : 0 < INR (length cluster)).
  { apply lt_0_INR. destruct cluster; [contradiction|cbn; lia]. }
  set (n := INR (length cluster)) in *.
  set (total := fold_left _ cluster _) in *.
  destruct HB as [[H1 H2] [H3 H4]].
  assert (E1 : lat total / n * n = lat total) by (field; lra).
  assert (E2 : lng total / n * n = lng total) by (field; lra).
  repeat split; nra.
Qed.

End LinkageFacts.

Lemma items_clusterPoints (points : list RadarPoint) (radiusMeters : R) :
  map items (clusterPoints points radiusMeters) = clusterGroups radarLoc radiusMeters points.
Proof.
  unfold clusterPoints. rewrite map_map. cbn [items]. apply map_id.
Qed.

Lemma items_clusterPoliceAlerts (alerts : list Alert) (radiusMeters : R) :
  map items (clusterPoliceAlerts alerts radiusMeters)
  = clusterGroups al_location radiusMeters alerts.
Proof.
  unfold clusterPoliceAlerts. rewrite map_map. cbn [items]. apply map_id.
Qed.

Lemma Forall_of_map {A B : Type} (f : A -> B) (P : B -> Prop) (l : list A) :
  Forall P (map f l) -> Forall (fun x => P (f x)) l.
Proof.
  induction l as [|a l IH]; cbn [map]; intros H; [constructor|].
  inversion H; subst. constructor; auto.
Qed.

Lemma ForallOrdPairs_of_map {A B : Type} (f : A -> B) (Q : B -> B -> Prop) (l : list A) :
  ForallOrdPairs Q (map f l) -> ForallOrdPairs (fun x y => Q (f x) (f y)) l.
Proof.
  induction l as [|a l IH]; cbn [map]; intros H; [constructor|].
  inversion H as [|? ? HF HO]; subst.
  constructor; [now apply Forall_of_map|auto].
Qed.

(** Inside a cluster, single linkage: the members, in the order of
    [items], start with the seed, and each later one is within the radius
    of one before it. *)
Theorem clusters_are_chained :
  (forall (points : list RadarPoint) (radiusMeters : R),
      Forall (fun c => Chained radarLoc radiusMeters (items c))
             (clusterPoints points radiusMeters)) /\
  (forall (alerts : list Alert) (radiusMeters : R),
      Forall (fun c => Chained al_location radiusMeters (items c))
             (clusterPoliceAlerts alerts radiusMeters)).
Proof.
  split; intros input r; apply Forall_of_map.
  - rewrite items_clusterPoints. apply clusterGroups_chained.
  - rewrite items_clusterPoliceAlerts. apply clusterGroups_chained.
Qed.

(** Across clusters, separation: no member of a cluster is within the
    radius of a member of another one (the distance being symmetric, the
    order of the two clusters does not matter). *)
Theorem clusters_are_apart :
  (forall (points : list RadarPoint) (radiusMeters : R),
      ForallOrdPairs (fun c c' => apart radarLoc radiusMeters (items c) (items c'))
                     (clusterPoints points radiusMeters)) /\
  (forall (alerts : list Alert) (radiusMeters : R),
      ForallOrdPairs (fun c c' => apart al_location radiusMeters (items c) (items c'))
                     (clusterPoliceAlerts alerts radiusMeters)).
Proof.
  split; intros input r; apply ForallOrdPairs_of_map.
  - rewrite items_clusterPoints. apply clusterGroups_apart.
  - rewrite items_clusterPoliceAlerts. apply clusterGroups_apart.
Qed.

(** The center of a cluster lies in every latitude-longitude box that
    holds all its members: the marker is never drawn outside the span of
    the points it stands for. *)
Theorem cluster_center_in_member_box (lo hi lo' hi' : R) :
  (forall (points : list RadarPoint) (radiusMeters : R),
      Forall (fun c =>
                (forall p, In p (items c) ->
                           lo <= rp_lat p <= hi /\ lo' <= rp_lng p <= hi') ->
                lo <= lat (center c) <= hi /\ lo' <= lng (center c) <= hi')
             (clusterPoints points radiusMeters)) /\
  (forall (alerts : list Alert) (radiusMeters : R),
      Forall (fun c =>
                (forall p, In p (items c) ->
                           lo <= lat (al_location p) <= hi /\
                           lo' <= lng (al_location p) <= hi') ->
                lo <= lat (center c) <= hi /\ lo' <= lng (center c) <= hi')
             (clusterPoliceAlerts alerts radiusMeters)).
Proof.
  split; intros input r.
  - unfold clusterPoints. apply Forall_map.
    destruct (clusterGroups_partition radarLoc r input) as [_ HN].
    eapply Forall_impl; [|exact HN].
    intros g Hg Hbox. cbn [items center] in *.
    now apply (centerOf_in_box radarLoc lo hi lo' hi').
  - unfold clusterPoliceAlerts. apply Forall_map.
    destruct (clusterGroups_partition al_location r input) as [_ HN].
    eapply Forall_impl; [|exact HN].
    intros g Hg Hbox. cbn [items center] in *.
    now apply (centerOf_in_box al_location lo hi lo' hi').
Qed.

Lemma latestAlert_fold (l : list Alert) (b : Alert) :
  exists p,
    fold_left (fun best cur =>
                 if Rleb (pubMillisOr0 best) (pubMillisOr0 (Some cur))
                 then Some cur else best) l (Some b) = Some p /\
    (p = b \/ In p l) /\
    pubMillisOr0 (Some b) <= pubMillisOr0 (Some p) /\
    forall m, In m l -> pubMillisOr0 (Some m) <= pubMillisOr0 (Some p).
Proof.
  revert b. induction l as [|x xs IH]; intros b; cbn [fold_left].
  - exists b. repeat split; auto; [lra|intros m []].
  - destruct (Rleb (pubMillisOr0 (Some b)) (pubMillisOr0 (Some x))) eqn:E.
    + apply Rleb_true in E.
      destruct (IH x) as (p & Hp & Hin & Hx & Hall). exists p.
      repeat split; auto.
      * right. destruct Hin as [->|]; [now left|now right].
      * lra.
      * intros m [<-|Hm]; auto.
    + apply Rleb_false in E.
      destruct (IH b) as (p & Hp & Hin & Hb & Hall). exists p.
      repeat split; auto.
      * destruct Hin as [->|]; [now left|right; now right].
      * intros m [<-|Hm]; [lra|auto].
Qed.

Lemma latestAlert_spec (cluster : list Alert) :
  cluster <> [] ->
  exists p,
    latestAlert cluster = Some p /\ In p cluster /\
    forall m, In m cluster -> pubMillisOr0 (Some m) <= pubMillisOr0 (Some p).
Proof.
  destruct cluster as [|b rest]; [contradiction|]. intros _.
  unfold latestAlert. cbn [hd_error].
  destruct (latestAlert_fold (b :: rest) b) as (p & Hp & Hin & _ & Hall).
  exists p. repeat split; auto. destruct Hin as [->|]; [now left|assumption].
Qed.

(** The representative of a cluster is one of its members: for generic
    points the first one (the seed); for alerts one whose [pubMillis] (0
    when missing) is not exceeded by any other member's. *)
Theorem cluster_primary_is_member :
  (forall (points : list RadarPoint) (radiusMeters : R),
      Forall (fun c => exists p, primary c = Some p /\ hd_error (items c) = Some p)
             (clusterPoints points radiusMeters)) /\
  (forall (alerts : list Alert) (radiusMeters : R),
      Forall (fun c => exists p,
                  primary c = Some p /\ In p (items c) /\
                  forall m, In m (items c) ->
                            pubMillisOr0 (Some m) <= pubMillisOr0 (Some p))
             (clusterPoliceAlerts alerts radiusMeters)).
Proof.
  split; intros input r.
  - unfold clusterPoints. apply Forall_map.
    destruct (clusterGroups_partition radarLoc r input) as [_ HN].
    eapply Forall_impl; [|exact HN].
    intros [|p g] Hg; [contradiction|]. cbn. eauto.
  - unfold clusterPoliceAlerts. apply Forall_map.
    destruct (clusterGroups_partition al_location r input) as [_ HN].
    eapply Forall_impl; [|exact HN].
    intros g Hg. cbn [primary items]. now apply latestAlert_spec.
Qed.

Lemma length_concat_nonempty {A : Type} (groups : list (list A)) :
  Forall (fun g => g <> []) groups -> (length groups <= length (concat groups))%nat.
Proof.
  induction 1 as [|g groups Hg _ IH]; cbn [concat length]; [lia|].
  rewrite length_app. destruct g; [contradiction|cbn [length]; lia].
Qed.

(** There are never more markers than points, and there is no marker
    only when there is no point. *)
Theorem cluster_count_bounds :
  (forall (points : list RadarPoint) (radiusMeters : R),
      (length (clusterPoints points radiusMeters) <= length points)%nat /\
      (clusterPoints points radiusMeters = [] <-> points = [])) /\
  (forall (alerts : list Alert) (radiusMeters : R),
      (length (clusterPoliceAlerts alerts radiusMeters) <= length alerts)%nat /\
      (clusterPoliceAlerts alerts radiusMeters = [] <-> alerts = [])).
Proof.
  assert (G : forall (T : Type) (loc : T -> GeoPoint) (r : R) (input : list T),
             (length (clusterGroups loc r input) <= length input)%nat /\
             (clusterGroups loc r input = [] <-> input = [])).
  { intros T loc r input.
    destruct (clusterGroups_partition loc r input) as [HP HN].
    pose proof (length_concat_nonempty _ HN) as HL.
    rewrite (Permutation_length HP) in HL. split; [exact HL|]. split.
    - intros E. rewrite E in HP. cbn in HP. now apply Permutation_nil in HP.
    - intros ->. destruct (clusterGroups loc r []); [reflexivity|cbn in HL; lia]. }
  split; intros input r.
  - rewrite <- (length_map items), items_clusterPoints.
    destruct (G _ radarLoc r input) as [HL HE]. split; [exact HL|].
    rewrite <- HE, <- items_clusterPoints.
    split; [intros ->; reflexivity|apply map_eq_nil].
  - rewrite <- (length_map items), items_clusterPoliceAlerts.
    destruct (G _ al_location r input) as [HL HE]. split; [exact HL|].
    rewrite <- HE, <- items_clusterPoliceAlerts.
    split; [intros ->; reflexivity|apply map_eq_nil].
Qed.

(** ** The fetch cycle, from start to finish *)

Section CycleFacts.
Variables (Number Date_parse : string -> option R) (Number_toString : R -> string).

Lemma afterFetch_keeps (clock : Clock) (outcome : FetchOutcome) (st : PoliceState) :
  let st' := fst (afterFetch Number Date_parse clock outcome st) in
  policeLastFetchAt st' = policeLastFetchAt st /\
  policeLastQueryKey st' = policeLastQueryKey st /\
  policeAlerts st' = policeAlerts st /\
  policeLoading st' = policeLoading st /\
  policeError st' = policeError st /\
  policeLastUpdatedAt st' = policeLastUpdatedAt st.
Proof.
  unfold afterFetch. destruct outcome as [m|responses]; [cbn; auto 10|].
  destruct (find _ responses) as [res|]; [|cbn; auto 10].
  destruct (Nat.eqb _ _); cbn; auto 10.
Qed.




(** After a cycle that fetched and published, every cycle started less
    than 2500 ms after the end of that fetch issues no request and leaves
    the published alerts in place, whatever the viewport. *)
Theorem success_then_throttled (clock : Clock) (responses : list Response)
        (alerts : list RawAlert) (st : PoliceState)
        (now' : R) (wazeEnvMode : string) (mapBounds : Bounds) (mapZoom : R) :
  find (fun r => negb (res_ok r)) responses = None ->
  collectAlerts responses = inr alerts ->
  now' - nowFetched clock < 2500 ->
  let st2 := run_finish Number Date_parse Number_toString false clock
                        (FetchResolved responses) st in
  let c := run_start now' wazeEnvMode mapBounds mapZoom st2 in
  policeLastFetchAt st2 = nowFetched clock /\
  policeLastUpdatedAt st2 = Some (nowUpdated clock) /\
  policeLoading st2 = false /\
  issuedRequests c = [] /\
  policeAlerts (stateAfterStart c) = publishedPolice Number_toString alerts.
Proof.
  intros Hok Hjson Hsoon st2 c.
  assert (E : st2 =
              setPoliceLoading false
                (setLastFetchAt (nowFetched clock)
                   (setPoliceLastUpdatedAt (Some (nowUpdated clock))
                      (setPoliceAlerts (publishedPolice Number_toString alerts) st)))).
  { unfold st2, run_finish, afterFetch. now rewrite Hok, Hjson. }
  split; [now rewrite E|]. split; [now rewrite E|]. split; [now rewrite E|].
  unfold c, run_start.
  destruct (Rltb now' (policeBackoffUntil st2)).
  { split; [reflexivity|]. now rewrite E. }
  assert (Rltb (now' - policeLastFetchAt st2) MIN_WAZE_FETCH_INTERVAL_MS = true) as ->.
  { apply Rltb_true. rewrite E. cbn. unfold MIN_WAZE_FETCH_INTERVAL_MS. lra. }
  split; [reflexivity|]. now rewrite E.
Qed.

(** A cycle that was aborted while its requests were in flight touches
    none of the four state cells, the time of the last fetch or the query
    key: no alerts, no error text, and the loading flag is not cleared.
    Only the cooldown may have moved, when a 429 had arrived. *)
Theorem aborted_cycle_is_silent (clock : Clock) (outcome : FetchOutcome)
        (st : PoliceState) :
  let st2 := run_finish Number Date_parse Number_toString true clock outcome st in
  policeAlerts st2 = policeAlerts st /\
  policeLoading st2 = policeLoading st /\
  policeError st2 = policeError st /\
  policeLastUpdatedAt st2 = policeLastUpdatedAt st /\
  policeLastFetchAt st2 = policeLastFetchAt st /\
  policeLastQueryKey st2 = policeLastQueryKey st /\
  (policeBackoffUntil st2 = policeBackoffUntil st \/
   exists res, firstFailureIs429 outcome res /\
               policeBackoffUntil st2 =
               nowBackoff clock
               + parseRetryAfterToMs Number Date_parse (res_retryAfter res) (nowParse clock)).
Proof.
  intros st2.
  destruct (afterFetch_keeps clock outcome st) as (H1 & H2 & H3 & H4 & H5 & H6).
  assert (E : st2 = fst (afterFetch Number Date_parse clock outcome st)).
  { unfold st2, run_finish.
    destruct (afterFetch Number Date_parse clock outcome st) as [st' [m|alerts]];
      reflexivity. }
  rewrite E. cbv zeta in *. repeat (split; [assumption|]).
  unfold afterFetch, firstFailureIs429.
  destruct outcome as [m|responses]; [now left|].
  destruct (find _ responses) as [res|] eqn:Hf; [|now left].
  destruct (Nat.eqb (res_status res) 429) eqn:Hs; [|now left].
  right. exists res. apply Nat.eqb_eq in Hs. auto.
Qed.

(** A cycle that meets a 429 and was not aborted ends with the loading
    flag cleared and the rate-limit notice on display, announcing at least
    one second; the cooldown it sets does not end before the clock reading
    it was computed from, and every cycle started before the cooldown
    ends issues no request. *)
Theorem rate_limit_notice_and_cooldown (clock : Clock) (responses : list Response)
        (res : Response) (st : PoliceState) :
  find (fun r => negb (res_ok r)) responses = Some res ->
  res_status res = 429%nat ->
  let st2 := run_finish Number Date_parse Number_toString false clock
                        (FetchResolved responses) st in
  (exists waitSec, policeError st2 = RateLimitedNotice waitSec /\ (1 <= waitSec)%Z /\
                   (policeBackoffUntil st2 - nowCatch clock) / 1000 <= IZR waitSec) /\
  policeLoading st2 = false /\
  nowBackoff clock <= policeBackoffUntil st2 /\
  forall now' wazeEnvMode mapBounds mapZoom,
    now' < nowBackoff clock
           + parseRetryAfterToMs Number Date_parse (res_retryAfter res) (nowParse clock) ->
    issuedRequests (run_start now' wazeEnvMode mapBounds mapZoom st2) = [].
Proof.
  intros Hfind Hstatus st2.
  pose proof (parseRetryAfterToMs_nonneg Number Date_parse (res_retryAfter res)
                (nowParse clock)) as Hpos.
  set (until := nowBackoff clock
                + parseRetryAfterToMs Number Date_parse (res_retryAfter res)
                                      (nowParse clock)) in *.
  assert (E : st2 =
              setPoliceLoading false
                (setPoliceError
                   (RateLimitedNotice
                      (Z.max (Math_ceil ((until - nowCatch clock) / 1000)) 1))
                   (setBackoffUntil until st))).
  { unfold st2, run_finish, afterFetch. rewrite Hfind, Hstatus. reflexivity. }
  assert (EB : policeBackoffUntil st2 = until) by now rewrite E.
  split; [|split; [now rewrite E|split]].
  - exists (Z.max (Math_ceil ((until - nowCatch clock) / 1000)) 1).
    split; [now rewrite E|]. split; [lia|]. rewrite EB.
    pose proof (Zceil_bound ((until - nowCatch clock) / 1000)) as [_ Hc].
    unfold Math_ceil. apply Rle_trans with (1 := Hc). apply IZR_le. lia.
  - rewrite EB. unfold until. lra.
  - intros now' mode b z Hn. unfold run_start.
    assert (Rltb now' (policeBackoffUntil st2) = true) as ->; [|reflexivity].
    apply Rltb_true. rewrite EB. exact Hn.
Qed.

End CycleFacts.

Lemma success_then_throttled_witness :
  issuedRequests
    (run_start 21000 "row" (mkBounds 44 26 45 27) 12
       (run_finish Number_sample Date_parse_sample (fun _ => EmptyString) false
                   (mkClock 20000 20000 20001 20002 20003)
                   (FetchResolved [mkResponse true 200 None (JsonData (Some []))])
                   (mkPolice 0 0 None [] true NoError None))) = [].
Proof.
  refine (proj1 (proj2 (proj2 (proj2
    (success_then_throttled Number_sample Date_parse_sample (fun _ => EmptyString)
       (mkClock 20000 20000 20001 20002 20003)
       [mkResponse true 200 None (JsonData (Some []))] []
       (mkPolice 0 0 None [] true NoError None)
       21000 "row" (mkBounds 44 26 45 27) 12 eq_refl eq_refl _))))).
  cbn [nowFetched]. lra.
Defined.

Lemma rate_limit_notice_and_cooldown_witness :
  nowBackoff (mkClock 20000 20000 20001 20002 20003) <=
  policeBackoffUntil
    (run_finish Number_sample Date_parse_sample (fun _ => EmptyString) false
                (mkClock 20000 20000 20001 20002 20003)
                (FetchResolved [mkResponse false 429 (Some "30"%string) (JsonData None)])
                (mkPolice 0 0 None [] true NoError None)).
Proof.
  exact (proj1 (proj2 (proj2
    (rate_limit_notice_and_cooldown Number_sample Date_parse_sample (fun _ => EmptyString)
       (mkClock 20000 20000 20001 20002 20003)
       [mkResponse false 429 (Some "30"%string) (JsonData None)]
       (mkResponse false 429 (Some "30"%string) (JsonData None))
       (mkPolice 0 0 None [] true NoError None) eq_refl eq_refl)))).
Defined.


(** ** The in-view counter *)

(** When the filter scans (layer on, bounds known, zoom at least 6,
    dataset loaded), the count it reports is the number of points in the
    padded viewport as long as that is at most 8000; beyond, the scan stops
    at the first point over the budget and reports 8001, whatever the true
    number. *)
Theorem speedRadarsInView_count (b : Bounds) (mapZoom : R) (world : list RadarPoint) :
  MIN_SPEED_RADAR_RENDER_ZOOM <= mapZoom ->
  let total := Z.of_nat (length (filter (inPaddedView b) world)) in
  let r := speedRadarsInView true (Some b) mapZoom false world in
  inViewCount r = Z.min total (MAX_VISIBLE_SPEED_RADARS + 1) /\
  tooMany r = (MAX_VISIBLE_SPEED_RADARS <? total)%Z.
Proof.
  intros Hz total r.
  assert (E : r = scanRadars (Some b) world [] 0).
  { unfold r, speedRadarsInView. cbn [negb].
    apply Rltb_false in Hz. now rewrite Hz. }
  pose proof (scanRadars_spec b world [] 0 eq_refl) as S.
  unfold MAX_VISIBLE_SPEED_RADARS in *.
  specialize (S ltac:(lia)). cbv zeta in S. rewrite <- E in S.
  change (0 + Z.of_nat (length (filter (inPaddedView b) world)))%Z with total in S.
  destruct (8000 <? total)%Z eqn:Ht.
  - apply Z.ltb_lt in Ht. destruct S as (S1 & _ & S3). split; [lia|exact S1].
  - apply Z.ltb_ge in Ht. destruct S as (S1 & S2 & _). split; [lia|exact S1].
Qed.

Lemma speedRadarsInView_count_witness :
  inViewCount
    (speedRadarsInView true (Some (mkBounds 44 26 45 27)) 12 false []) =
  Z.min (Z.of_nat (length (filter (inPaddedView (mkBounds 44 26 45 27)) [])))
        (MAX_VISIBLE_SPEED_RADARS + 1).
Proof.
  refine (proj1 (speedRadarsInView_count (mkBounds 44 26 45 27) 12 [] _)).
  unfold MIN_SPEED_RADAR_RENDER_ZOOM. lra.
Defined.

(** ** The viewport test on the unwrapped map *)

Lemma lat_test (la s n : R) :
  (Rltb n la || Rltb la s)%bool = false <-> s <= la <= n.
Proof.
  rewrite orb_false_iff, !Rltb_false. tauto.
Qed.

Lemma turns_between (d : Z) :
  -720 < 360 * IZR d -> 360 * IZR d < 360 -> d = 0%Z \/ d = (-1)%Z.
Proof.
  intros H1 H2.
  assert (IZR (-2) < IZR d < IZR 1) as [H3 H4] by (split; lra).
  apply lt_IZR in H3, H4. lia.
Qed.

Lemma lng_test_iff_some_copy (l W E : R) :
  W <= E -> E - W < 360 ->
  ((if Rltb (normalizeLng E) (normalizeLng W)
    then Rleb (normalizeLng W) (normalizeLng l) || Rleb (normalizeLng l) (normalizeLng E)
    else Rleb (normalizeLng W) (normalizeLng l) && Rleb (normalizeLng l) (normalizeLng E))%bool
   = true <->
   exists k : Z, W <= l + 360 * IZR k <= E).
Proof.
  intros HWE Hwide.
  destruct (normalizeLng_congruent W) as [a Ha].
  destruct (normalizeLng_congruent E) as [b Hb].
  destruct (normalizeLng_congruent l) as [c Hc].
  pose proof (normalizeLng_image W) as Iw.
  pose proof (normalizeLng_image E) as Ie.
  pose proof (normalizeLng_image l) as In.
  assert (Hd : (b - a = 0)%Z \/ (b - a = -1)%Z).
  { apply turns_between; rewrite minus_IZR; lra. }
  assert (Ed : IZR b = IZR a \/ IZR b = IZR a - 1).
  { destruct Hd as [Hd|Hd]; apply (f_equal IZR) in Hd; rewrite minus_IZR in Hd;
      [left|right]; lra. }
  clear Hd.
  (* the normalised longitude of [l] is the one copy of it in (-180, 180] *)
  assert (U : forall m (j : Z), -180 < m <= 180 -> m = l + 360 * IZR j ->
                                normalizeLng l = m).
  { intros m j Hm Em.
    apply (image_congruent_eq _ _ (c - j)); [exact In|exact Hm|].
    rewrite minus_IZR. lra. }
  destruct (Rltb (normalizeLng E) (normalizeLng W)) eqn:X.
  - apply Rltb_true in X.
    destruct Ed as [Ed|Ed]; [lra|].
    rewrite orb_true_iff, !Rleb_true. split.
    + intros [H|H].
      * exists (c - a)%Z. rewrite minus_IZR. lra.
      * exists (c - a + 1)%Z. rewrite plus_IZR, minus_IZR. lra.
    + intros [k Hk].
      destruct (Rle_dec (l + 360 * IZR k + 360 * IZR a) 180) as [Hm|Hm].
      * left. rewrite (U (l + 360 * IZR k + 360 * IZR a) (k + a)%Z);
          [lra|lra|rewrite plus_IZR; lra].
      * right. rewrite (U (l + 360 * IZR k + 360 * IZR a - 360) (k + a - 1)%Z);
          [lra|lra|rewrite minus_IZR, plus_IZR; lra].
  - apply Rltb_false in X.
    destruct Ed as [Ed|Ed]; [|lra].
    rewrite andb_true_iff, !Rleb_true. split.
    + intros [H1 H2]. exists (c - a)%Z. rewrite minus_IZR. lra.
    + intros [k Hk].
      rewrite (U (l + 360 * IZR k + 360 * IZR a) (k + a)%Z);
        [lra|lra|rewrite plus_IZR; lra].
Qed.

Lemma isPointInBounds_unwrapped (p : GeoPoint) (b : Bounds) :
  west b <= east b -> east b - west b < 360 ->
  (isPointInBounds p (Some b) = true <->
   south b <= lat p <= north b /\
   exists k : Z, west b <= lng p + 360 * IZR k <= east b).
Proof.
  intros HWE Hwide.
  unfold isPointInBounds, getNorth, getSouth, getWest, getEast. cbv zeta.
  rewrite <- (lng_test_iff_some_copy (lng p) (west b) (east b) HWE Hwide).
  rewrite <- (lat_test (lat p) (south b) (north b)).
  destruct (Rltb (north b) (lat p) || Rltb (lat p) (south b))%bool.
  - split; [discriminate|intros [H _]; discriminate H].
  - tauto.
Qed.

(** For a viewport whose west edge is not east of its east edge and that
    is less than a full turn wide (what Leaflet reports for a map that
    shows less than the whole world), [isPointInBounds] accepts a point
    exactly when its latitude is between south and north and some copy of
    its longitude, a whole number of turns away, is between west and east:
    the normalisation and the dateline case together decide membership in
    the unwrapped rectangle. *)
Theorem isPointInBounds_iff_some_copy (p : GeoPoint) (b : Bounds) :
  west b <= east b -> east b - west b < 360 ->
  (isPointInBounds p (Some b) = true <->
   south b <= lat p <= north b /\
   exists k : Z, west b <= lng p + 360 * IZR k <= east b).
Proof.
  intros HWE Hwide.
  unfold isPointInBounds, getNorth, getSouth, getWest, getEast. cbv zeta.
  rewrite <- (lng_test_iff_some_copy (lng p) (west b) (east b) HWE Hwide).
  rewrite <- (lat_test (lat p) (south b) (north b)).
  destruct (Rltb (north b) (lat p) || Rltb (lat p) (south b))%bool.
  - split; [discriminate|intros [H _]; discriminate H].
  - tauto.
Qed.

Lemma isPointInBounds_iff_some_copy_witness :
  isPointInBounds (mkGeo 10 (-175)) (Some (mkBounds 0 170 20 190)) = true <->
  0 <= 10 <= 20 /\ exists k : Z, 170 <= -175 + 360 * IZR k <= 190.
Proof.
  apply (isPointInBounds_iff_some_copy (mkGeo 10 (-175)) (mkBounds 0 170 20 190));
    cbn [west east]; lra.
Defined.

Lemma lngPad_bounds (pad la : R) :
  0 <= pad ->
  0 <= pad / (111320 * Rmax 0.15 (cos ((la * PI) / 180))) <= pad / (111320 * 0.15).
Proof.
  intros Hp.
  pose proof (Rmax_l 0.15 (cos ((la * PI) / 180))) as Hm.
  set (m := Rmax 0.15 (cos ((la * PI) / 180))) in *.
  assert (Hd : 0 < 111320 * m) by nra.
  split.
  - apply Rmult_le_pos; [exact Hp|]. left. now apply Rinv_0_lt_compat.
  - apply Rmult_le_compat_l; [exact Hp|].
    apply Rinv_le_contravar; nra.
Qed.

(** Padding only widens the viewport, as long as the padded viewport is
    still less than a full turn wide: with no padding the padded test is
    the plain one, and with a padding of [padMeters] (whose widening in
    longitude is at most [padMeters / (111320 * 0.15)] degrees on each
    side) every point the plain test accepts is accepted. *)
Theorem padding_widens_viewport (p : GeoPoint) (b : Bounds) :
  south b <= north b -> west b <= east b ->
  isPointInBoundsPadded p (Some b) 0 = isPointInBounds p (Some b) /\
  forall padMeters,
    0 <= padMeters ->
    east b - west b + 2 * (padMeters / (111320 * 0.15)) < 360 ->
    isPointInBounds p (Some b) = true ->
    isPointInBoundsPadded p (Some b) padMeters = true.
Proof.
  intros HSN HWE. split.
  - unfold isPointInBoundsPadded. cbv zeta.
    replace (0 / 111320) with 0 by lra.
    replace (0 / (111320 * Rmax 0.15 (cos ((lat (getCenter b) * PI) / 180)))) with 0
      by (unfold Rdiv; ring).
    unfold L_latLngBounds, getSouth, getNorth, getWest, getEast. cbn [fst snd].
    rewrite !Rminus_0_r, !Rplus_0_r.
    rewrite !Rmin_left, !Rmax_right by lra.
    now destruct b.
  - intros pad Hp Hwide Hin.
    pose proof (lngPad_bounds pad (lat (getCenter b)) Hp) as Hl.
    apply isPointInBounds_unwrapped in Hin; [|exact HWE|lra].
    destruct Hin as [Hlat [k Hk]].
    unfold isPointInBoundsPadded. cbv zeta.
    set (lngPad := pad / (111320 * Rmax 0.15 (cos ((lat (getCenter b) * PI) / 180)))) in *.
    assert (Hlp : 0 <= pad / 111320).
    { apply Rmult_le_pos; [exact Hp|]. left. apply Rinv_0_lt_compat. lra. }
    unfold L_latLngBounds, getSouth, getNorth, getWest, getEast. cbn [fst snd].
    rewrite !Rmin_left, !Rmax_right by lra.
    apply isPointInBounds_unwrapped; cbn [south west north east]; [lra|lra|].
    split; [lra|]. exists k. lra.
Qed.

Lemma padding_widens_viewport_witness :
  isPointInBoundsPadded (mkGeo 10 (-175)) (Some (mkBounds 0 170 20 190)) 0 =
  isPointInBounds (mkGeo 10 (-175)) (Some (mkBounds 0 170 20 190)).
Proof.
  refine (proj1 (padding_widens_viewport (mkGeo 10 (-175)) (mkBounds 0 170 20 190) _ _));
    cbn [south north west east]; lra.
Defined.

(** ** Tiles and the boxes built from them *)

Lemma pow2_pos (z : Z) : 0 < pow2 z.
Proof. unfold pow2. apply powerRZ_lt. lra. Qed.

Lemma pow2_le_22 (z : Z) : (0 <= z <= 22)%Z -> pow2 z <= 4194304.
Proof.
  intros Hz. unfold pow2.
  rewrite <- (Z2Nat.id z) by lia. rewrite <- pow_powerRZ.
  apply Rle_trans with (2 ^ 22)%R.
  - apply Rle_pow; [lra|lia].
  - rewrite pow_IZR. apply IZR_le. reflexivity.
Qed.

Lemma pow2_integer (z : Z) : (0 <= z)%Z -> pow2 z = IZR (2 ^ z).
Proof.
  intros Hz. unfold pow2.
  rewrite <- (Z2Nat.id z) at 1 by lia. rewrite <- pow_powerRZ, pow_IZR.
  now rewrite Z2Nat.id by lia.
Qed.

Lemma tileX2lng_le (x y z : Z) : (x <= y)%Z -> tileX2lng x z <= tileX2lng y z.
Proof.
  intros H. unfold tileX2lng. cbv zeta. pose proof (pow2_pos z) as Hn.
  apply IZR_le in H.
  assert (IZR x / pow2 z <= IZR y / pow2 z).
  { apply Rmult_le_compat_r; [|exact H]. left. now apply Rinv_0_lt_compat. }
  lra.
Qed.

Lemma tileX2lng_lt (x y z : Z) : (x < y)%Z -> tileX2lng x z < tileX2lng y z.
Proof.
  intros H. unfold tileX2lng. cbv zeta. pose proof (pow2_pos z) as Hn.
  apply IZR_lt in H.
  assert (IZR x / pow2 z < IZR y / pow2 z).
  { apply Rmult_lt_compat_r; [|exact H]. now apply Rinv_0_lt_compat. }
  lra.
Qed.

(** The latitude of a tile edge falls as the row number grows. *)
Lemma mercator_inverse_lt (s t : R) :
  s < t -> (atan (sinh s) * 180) / PI < (atan (sinh t) * 180) / PI.
Proof.
  intros H. pose proof PI_RGT_0 as Hpi.
  pose proof (atan_increasing _ _ (sinh_lt _ _ H)) as Ha.
  apply Rmult_lt_compat_r; [now apply Rinv_0_lt_compat|lra].
Qed.

Lemma tileY2lat_lt (y y' z : Z) : (y < y')%Z -> tileY2lat y' z < tileY2lat y z.
Proof.
  intros H. unfold tileY2lat. cbv zeta. pose proof (pow2_pos z) as Hn.
  pose proof PI_RGT_0 as Hpi.
  apply mercator_inverse_lt.
  apply IZR_lt in H.
  assert ((2 * IZR y) / pow2 z < (2 * IZR y') / pow2 z).
  { apply Rmult_lt_compat_r; [now apply Rinv_0_lt_compat|lra]. }
  nra.
Qed.

Lemma tileY2lat_le (y y' z : Z) : (y <= y')%Z -> tileY2lat y' z <= tileY2lat y z.
Proof.
  intros H. destruct (Z.eq_dec y y') as [->|Hne]; [lra|].
  left. apply tileY2lat_lt. lia.
Qed.

(** On a latitude short of the poles, [atan (sinh _)] undoes the Mercator
    ordinate [ln (tan phi + 1 / cos phi)]. *)
Lemma mercator_round_trip (phi : R) :
  - (PI / 2) < phi < PI / 2 ->
  atan (sinh (ln (tan phi + 1 / cos phi))) = phi.
Proof.
  intros Hphi.
  pose proof (cos_gt_0 phi (proj1 Hphi) (proj2 Hphi)) as Hc.
  pose proof (sin2_cos2 phi) as Hsc. unfold Rsqr in Hsc.
  assert (Hs : -1 < sin phi).
  { destruct (Rlt_dec (-1) (sin phi)) as [|Hn]; [assumption|]. nra. }
  assert (Hs' : sin phi < 1).
  { destruct (Rlt_dec (sin phi) 1) as [|Hn]; [assumption|]. nra. }
  assert (Hu : tan phi + 1 / cos phi = (1 + sin phi) / cos phi).
  { unfold tan. field. lra. }
  assert (Hupos : 0 < (1 + sin phi) / cos phi).
  { apply Rmult_lt_0_compat; [lra|now apply Rinv_0_lt_compat]. }
  transitivity (atan (tan phi)); [|now apply atan_tan]. f_equal.
  unfold sinh. rewrite exp_Ropp, Hu, exp_ln by exact Hupos.
  unfold tan. field_simplify_eq; [|lra]. nra.
Qed.

Lemma clampLat_id (la : R) :
  -85.05112878 <= la <= 85.05112878 -> clampLat la = la.
Proof.
  intros H. unfold clampLat. rewrite Rmin_left, Rmax_left by lra. reflexivity.
Qed.

Lemma clamped_short_of_poles (la : R) :
  -85.05112878 <= la <= 85.05112878 -> - (PI / 2) < (la * PI) / 180 < PI / 2.
Proof.
  intros H. pose proof PI_RGT_0. split; nra.
Qed.

(** The row of a latitude lies between the two edges of its tile:
    [tileY2lat (y + 1) < la <= tileY2lat y] for [y = lat2tileY la]. *)
Lemma lat_in_its_row (la : R) (z : Z) :
  -85.05112878 <= la <= 85.05112878 ->
  tileY2lat (lat2tileY la z + 1) z < la <= tileY2lat (lat2tileY la z) z.
Proof.
  intros Hla. pose proof (pow2_pos z) as Hn. pose proof PI_RGT_0 as Hpi.
  pose proof (mercator_round_trip _ (clamped_short_of_poles la Hla)) as RT.
  unfold lat2tileY, tileY2lat, Math_floor. cbv zeta.
  rewrite (clampLat_id la Hla).
  set (m := ln (tan ((la * PI) / 180) + 1 / cos ((la * PI) / 180))) in *.
  set (F := ((1 - m / PI) / 2) * pow2 z).
  pose proof (Zfloor_bound F) as [Hlo Hhi].
  assert (Em : m = PI * (1 - (2 * F) / pow2 z)).
  { unfold F. field. lra. }
  assert (Ela : la = (atan (sinh m) * 180) / PI).
  { rewrite RT. field. lra. }
  split.
  - rewrite Ela at 1. apply mercator_inverse_lt. rewrite Em.
    rewrite plus_IZR.
    assert ((2 * F) / pow2 z < (2 * (IZR (Zfloor F) + 1)) / pow2 z).
    { apply Rmult_lt_compat_r; [now apply Rinv_0_lt_compat|lra]. }
    nra.
  - destruct (Req_dec (IZR (Zfloor F)) F) as [E|Hne].
    + rewrite E, <- Em, <- Ela. lra.
    + left. rewrite Ela at 1. apply mercator_inverse_lt. rewrite Em.
      assert ((2 * IZR (Zfloor F)) / pow2 z < (2 * F) / pow2 z).
      { apply Rmult_lt_compat_r; [now apply Rinv_0_lt_compat|lra]. }
      nra.
Qed.

(** Likewise for the column of a longitude. *)
Lemma lng_in_its_column (l : R) (z : Z) :
  tileX2lng (lng2tileX l z) z <= l < tileX2lng (lng2tileX l z + 1) z.
Proof.
  pose proof (pow2_pos z) as Hn.
  unfold lng2tileX, tileX2lng, Math_floor. cbv zeta.
  set (F := ((l + 180) / 360) * pow2 z).
  pose proof (Zfloor_bound F) as [Hlo Hhi].
  assert (El : l = (F / pow2 z) * 360 - 180) by (unfold F; field; lra).
  rewrite plus_IZR. split.
  - rewrite El at 1.
    assert (IZR (Zfloor F) / pow2 z <= F / pow2 z).
    { apply Rmult_le_compat_r; [left; now apply Rinv_0_lt_compat|lra]. }
    lra.
  - rewrite El at 1.
    assert (F / pow2 z < (IZR (Zfloor F) + 1) / pow2 z).
    { apply Rmult_lt_compat_r; [now apply Rinv_0_lt_compat|lra]. }
    lra.
Qed.

(** A tile edge is in the column it opens: the column of [tileX2lng x] is
    [x]. *)
Lemma lng2tileX_tileX2lng (x z : Z) : lng2tileX (tileX2lng x z) z = x.
Proof.
  pose proof (pow2_pos z) as Hn.
  unfold lng2tileX, tileX2lng, Math_floor. cbv zeta.
  replace (((IZR x / pow2 z * 360 - 180 + 180) / 360) * pow2 z) with (IZR x)
    by (field; lra).
  apply ZfloorZ.
Qed.

(** At the zooms the planner uses, the column after the one of 179.999999
    ends at the antimeridian. *)
Lemma last_column_reaches_180 (z : Z) :
  (0 <= z <= 22)%Z -> 180 <= tileX2lng (lng2tileX 179.999999 z + 1) z.
Proof.
  intros Hz. pose proof (pow2_pos z) as Hn. pose proof (pow2_le_22 z Hz) as Hmax.
  assert (Hx : (2 ^ z - 1 <= lng2tileX 179.999999 z)%Z).
  { unfold lng2tileX, Math_floor. cbv zeta. apply Zfloor_lub.
    rewrite minus_IZR, <- pow2_integer by lia. lra. }
  apply Rle_trans with (tileX2lng (2 ^ z) z).
  - unfold tileX2lng. cbv zeta. rewrite <- pow2_integer by lia.
    right. field. lra.
  - apply tileX2lng_le. lia.
Qed.

Lemma In_zrange (lo hi i : Z) : In i (zrange lo hi) -> (lo <= i <= hi)%Z.
Proof.
  unfold zrange. rewrite in_map_iff. intros (k & <- & Hk).
  apply in_seq in Hk. lia.
Qed.

(** What the planner returns, in terms of the zoom it settles on. *)
Lemma plan_structure (b : Bounds) (zoom : R) :
  exists zf : Z,
    (0 <= zf <= 22)%Z /\
    usedZoom (buildWazeTileSnappedQuery (Some b) zoom) = IZR zf /\
    requestBoxes (buildWazeTileSnappedQuery (Some b) zoom) =
    map (unionBox (clampLat (getNorth b)) (clampLat (getSouth b)) zf)
        (spansOf (normalizeLng (getWest b)) (normalizeLng (getEast b))) /\
    debugBoxes (buildWazeTileSnappedQuery (Some b) zoom) =
    flat_map (spanDebugBoxes (clampLat (getNorth b)) (clampLat (getSouth b)) zf)
             (spansOf (normalizeLng (getWest b)) (normalizeLng (getEast b))).
Proof.
  unfold buildWazeTileSnappedQuery. cbv zeta.
  destruct (lowerZoom _ _) as [zf c] eqn:E.
  apply lowerZoom_spec in E. destruct E as (-> & Hle & _).
  exists (Z.of_nat zf). split; [|cbn; auto].
  unfold clampZoom in Hle. lia.
Qed.

Lemma safeSouthOf_clamped (southC : R) :
  -85.05112878 <= southC <= 85.05112878 ->
  -85.05112878 <= safeSouthOf southC <= 85.05112878.
Proof.
  intros H. unfold safeSouthOf. destruct (Rleb southC (-85.05112878)); lra.
Qed.

Lemma unionBox_covers (northC southC : R) (zz : Z) (sp : Span) (la l : R) :
  (0 <= zz <= 22)%Z ->
  -85.05112878 <= northC <= 85.05112878 ->
  -85.05112878 <= southC <= 85.05112878 ->
  safeSouthOf southC <= la <= northC ->
  span_west sp <= l <= span_east sp -> l <= 180 ->
  bottom (unionBox northC southC zz sp) < la <= top (unionBox northC southC zz sp) /\
  left (unionBox northC southC zz sp) <= l <= right (unionBox northC southC zz sp).
Proof.
  intros Hz HN HS Hla Hl H180.
  unfold unionBox, yMinOf, yMaxOf, xMinOf, xMaxOf. cbn [top bottom left right].
  pose proof (lat_in_its_row northC zz HN) as [_ HT].
  pose proof (lat_in_its_row (safeSouthOf southC) zz (safeSouthOf_clamped _ HS)) as [HB _].
  pose proof (lng_in_its_column (span_west sp) zz) as [HL _].
  pose proof (lng_in_its_column (safeEastOf sp) zz) as [_ HR].
  split; [lra|]. split; [lra|].
  unfold safeEastOf in *. destruct (Rleb 180 (span_east sp)) eqn:E.
  - pose proof (last_column_reaches_180 zz Hz). lra.
  - lra.
Qed.

(** Every longitude lies in the column the tile math assigns to it, every
    latitude of the Mercator band in its row, and a tile's west edge is in
    the tile's own column. *)
Theorem coordinate_in_its_tile (z : Z) :
  (forall l, tileX2lng (lng2tileX l z) z <= l < tileX2lng (lng2tileX l z + 1) z) /\
  (forall la, -85.05112878 <= la <= 85.05112878 ->
              tileY2lat (lat2tileY la z + 1) z < la <= tileY2lat (lat2tileY la z) z) /\
  (forall x, lng2tileX (tileX2lng x z) z = x).
Proof.
  split; [intros l; apply lng_in_its_column|].
  split; [intros la; apply lat_in_its_row|].
  intros x. apply lng2tileX_tileX2lng.
Qed.

Lemma clampLat_keeps_side (la edge : R) :
  -85.05112878 <= la <= 85.05112878 ->
  (la <= edge -> la <= clampLat edge) /\ (edge <= la -> clampLat edge <= la).
Proof.
  intros H. unfold clampLat, Rmax, Rmin.
  destruct (Rle_dec edge 85.05112878), (Rle_dec _ _); split; lra.
Qed.

(** The request boxes cover the viewport: every point that
    [isPointInBounds] places in the bounds, and whose latitude the tile
    math can address (from -85.05112877 to 85.05112878), lies in one of
    the boxes that are requested, at whatever zoom the planner settles. *)
Theorem request_boxes_cover_viewport (b : Bounds) (zoom : R) (p : GeoPoint) :
  isPointInBounds p (Some b) = true ->
  -85.05112877 <= lat p <= 85.05112878 ->
  exists r,
    In r (requestBoxes (buildWazeTileSnappedQuery (Some b) zoom)) /\
    bottom r < lat p <= top r /\
    left r <= normalizeLng (lng p) <= right r.
Proof.
  intros Hin Hband.
  destruct (plan_structure b zoom) as (zf & Hz & _ & -> & _).
  unfold isPointInBounds in Hin. cbv zeta in Hin.
  destruct (Rltb (getNorth b) (lat p) || Rltb (lat p) (getSouth b))%bool eqn:Hlat;
    [discriminate|].
  apply lat_test in Hlat.
  pose proof (clampLat_bounds (getNorth b)) as HN.
  pose proof (clampLat_bounds (getSouth b)) as HS.
  pose proof (normalizeLng_image (lng p)) as Il.
  assert (Hla : safeSouthOf (clampLat (getSouth b)) <= lat p <= clampLat (getNorth b)).
  { destruct (clampLat_keeps_side (lat p) (getNorth b) ltac:(lra)) as [Hn _].
    destruct (clampLat_keeps_side (lat p) (getSouth b) ltac:(lra)) as [_ Hs].
    split; [|lra]. unfold safeSouthOf.
    destruct (Rleb (clampLat (getSouth b)) (-85.05112878)); lra. }
  assert (C : forall sp,
             In sp (spansOf (normalizeLng (getWest b)) (normalizeLng (getEast b))) ->
             span_west sp <= normalizeLng (lng p) <= span_east sp ->
             exists r,
               In r (map (unionBox (clampLat (getNorth b)) (clampLat (getSouth b)) zf)
                         (spansOf (normalizeLng (getWest b)) (normalizeLng (getEast b)))) /\
               bottom r < lat p <= top r /\
               left r <= normalizeLng (lng p) <= right r).
  { intros sp Hsp Hl.
    exists (unionBox (clampLat (getNorth b)) (clampLat (getSouth b)) zf sp).
    split; [now apply in_map|].
    apply unionBox_covers; auto; lra. }
  unfold spansOf in *.
  destruct (Rltb (normalizeLng (getEast b)) (normalizeLng (getWest b))).
  - apply orb_true_iff in Hin. rewrite !Rleb_true in Hin. destruct Hin as [H|H].
    + apply (C (mkSpan (normalizeLng (getWest b)) 180)); [now left|cbn; lra].
    + apply (C (mkSpan (-180) (normalizeLng (getEast b)))); [right; now left|cbn; lra].
  - apply andb_true_iff in Hin. rewrite !Rleb_true in Hin.
    apply (C (mkSpan (normalizeLng (getWest b)) (normalizeLng (getEast b))));
      [now left|cbn; lra].
Qed.

Lemma request_boxes_cover_viewport_witness :
  exists r,
    In r (requestBoxes (buildWazeTileSnappedQuery (Some (mkBounds 44 26 45 27)) 12)) /\
    bottom r < 44.5 <= top r /\
    left r <= normalizeLng 26.5 <= right r.
Proof.
  apply (request_boxes_cover_viewport (mkBounds 44 26 45 27) 12 (mkGeo 44.5 26.5));
    [|cbn [lat]; lra].
  apply isPointInBounds_unwrapped; cbn [south north west east lat lng]; [lra|lra|].
  split; [lra|]. exists 0%Z. lra.
Defined.

(** Every debug box is a proper tile (its bottom below its top, its left
    edge west of its right edge) and lies inside one of the request boxes:
    what the overlay draws is within what is fetched. *)
Theorem debug_tiles_inside_request_boxes (b : Bounds) (zoom : R) :
  Forall (fun d =>
            bottom d < top d /\ left d < right d /\
            exists r,
              In r (requestBoxes (buildWazeTileSnappedQuery (Some b) zoom)) /\
              boxInside d r)
         (debugBoxes (buildWazeTileSnappedQuery (Some b) zoom)).
Proof.
  destruct (plan_structure b zoom) as (zf & Hz & _ & -> & ->).
  apply Forall_forall. intros d Hd.
  apply in_flat_map in Hd. destruct Hd as (sp & Hsp & Hd).
  unfold spanDebugBoxes in Hd.
  apply in_flat_map in Hd. destruct Hd as (x & Hx & Hd).
  apply in_map_iff in Hd. destruct Hd as (y & <- & Hy).
  apply In_zrange in Hx, Hy. cbn [top bottom left right].
  split; [apply tileY2lat_lt; lia|]. split; [apply tileX2lng_lt; lia|].
  exists (unionBox (clampLat (getNorth b)) (clampLat (getSouth b)) zf sp).
  split; [now apply in_map|].
  unfold boxInside, unionBox. cbn [top bottom left right].
  split; [apply tileY2lat_le; lia|]. split; [apply tileY2lat_le; lia|].
  split; apply tileX2lng_le; lia.
Qed.

(** ** The viewport on a wrapped map *)

Lemma Rmin_shift (a b c : R) : Rmin (a + c) (b + c) = Rmin a b + c.
Proof. unfold Rmin. destruct (Rle_dec a b), (Rle_dec (a + c) (b + c)); lra. Qed.

Lemma Rmax_shift (a b c : R) : Rmax (a + c) (b + c) = Rmax a b + c.
Proof. unfold Rmax. destruct (Rle_dec a b), (Rle_dec (a + c) (b + c)); lra. Qed.

Lemma isPointInBounds_shift (p : GeoPoint) (b : Bounds) (k : Z) :
  isPointInBounds p (Some (shiftBounds b k)) = isPointInBounds p (Some b).
Proof.
  unfold isPointInBounds, shiftBounds, getNorth, getSouth, getWest, getEast.
  cbn [south west north east]. now rewrite !normalizeLng_shift.
Qed.

Lemma isPointInBoundsPadded_shift (p : GeoPoint) (b : Bounds) (k : Z) (padMeters : R) :
  isPointInBoundsPadded p (Some (shiftBounds b k)) padMeters =
  isPointInBoundsPadded p (Some b) padMeters.
Proof.
  unfold isPointInBoundsPadded. cbv zeta.
  change (lat (getCenter (shiftBounds b k))) with (lat (getCenter b)).
  set (lngPad := padMeters / (111320 * Rmax 0.15 (cos ((lat (getCenter b) * PI) / 180)))).
  set (latPad := padMeters / 111320).
  rewrite <- (isPointInBounds_shift p
                (L_latLngBounds (getSouth b - latPad, getWest b - lngPad)
                                (getNorth b + latPad, getEast b + lngPad)) k).
  f_equal. f_equal.
  unfold L_latLngBounds, shiftBounds, getSouth, getNorth, getWest, getEast.
  cbn [fst snd south west north east].
  rewrite <- Rmin_shift, <- Rmax_shift.
  f_equal; f_equal; lra.
Qed.

Lemma scanRadars_shift (b : Bounds) (k : Z) (active visible : list RadarPoint) (n : Z) :
  scanRadars (Some (shiftBounds b k)) active visible n =
  scanRadars (Some b) active visible n.
Proof.
  revert visible n. induction active as [|p rest IH]; intros visible n; cbn [scanRadars].
  - reflexivity.
  - rewrite isPointInBoundsPadded_shift.
    destruct (isPointInBoundsPadded _ _ _); [|apply IH].
    cbv zeta. destruct (_ <? _)%Z; [reflexivity|apply IH].
Qed.

Lemma inferWazeEnvFromBounds_shift (b : Bounds) (k : Z) :
  inferWazeEnvFromBounds (Some (shiftBounds b k)) = inferWazeEnvFromBounds (Some b).
Proof.
  unfold inferWazeEnvFromBounds, getCenter, shiftBounds.
  cbn [lat lng south west north east].
  replace ((west b + 360 * IZR k + (east b + 360 * IZR k)) / 2)
    with ((west b + east b) / 2 + 360 * IZR k) by lra.
  now rewrite normalizeLng_shift.
Qed.

Lemma buildWazeTileSnappedQuery_shift (b : Bounds) (k : Z) (zoom : R) :
  buildWazeTileSnappedQuery (Some (shiftBounds b k)) zoom =
  buildWazeTileSnappedQuery (Some b) zoom.
Proof.
  unfold buildWazeTileSnappedQuery, shiftBounds, getNorth, getSouth, getWest, getEast.
  cbn [south west north east]. now rewrite !normalizeLng_shift.
Qed.

(** Leaflet reports a viewport on whichever copy of the world the user
    has panned to.  Nothing the program computes from the bounds depends on
    the copy: the query plan, the inferred environment, the bounds on
    display, the padded point test and the radar filter, and a whole fetch
    cycle up to its first await are the same for the bounds moved by any
    whole number of turns. *)
Theorem viewport_wrapped_copies (b : Bounds) (k : Z) :
  (forall zoom,
      buildWazeTileSnappedQuery (Some (shiftBounds b k)) zoom =
      buildWazeTileSnappedQuery (Some b) zoom) /\
  inferWazeEnvFromBounds (Some (shiftBounds b k)) = inferWazeEnvFromBounds (Some b) /\
  getNormalizedBoundsForDisplay (Some (shiftBounds b k)) =
  getNormalizedBoundsForDisplay (Some b) /\
  (forall p padMeters,
      isPointInBoundsPadded p (Some (shiftBounds b k)) padMeters =
      isPointInBoundsPadded p (Some b) padMeters) /\
  (forall showSpeedRadars mapZoom loading world,
      speedRadarsInView showSpeedRadars (Some (shiftBounds b k)) mapZoom loading world =
      speedRadarsInView showSpeedRadars (Some b) mapZoom loading world) /\
  (forall now wazeEnvMode mapZoom st,
      run_start now wazeEnvMode (shiftBounds b k) mapZoom st =
      run_start now wazeEnvMode b mapZoom st).
Proof.
  split; [intros zoom; apply buildWazeTileSnappedQuery_shift|].
  split; [apply inferWazeEnvFromBounds_shift|].
  split.
  { unfold getNormalizedBoundsForDisplay, shiftBounds, getNorth, getSouth, getWest, getEast.
    cbn [south west north east]. now rewrite !normalizeLng_shift. }
  split; [intros p pad; apply isPointInBoundsPadded_shift|].
  split.
  - intros show zoom loading world. unfold speedRadarsInView. cbv zeta.
    now rewrite scanRadars_shift.
  - intros now mode zoom st. unfold run_start.
    now rewrite inferWazeEnvFromBounds_shift, buildWazeTileSnappedQuery_shift.
Qed.

(** ** The marker session of the warning feed *)

Section SessionFacts.
Variable ToString : JsVal -> string.

Lemma nextWarnings_as_map (data : list JsVal) (prev : list Warning) :
  nextWarnings ToString data prev =
  map (fun item =>
         match Map_get (warningId ToString item)
                       (Map_of (map (fun w => (w_id w, w)) prev)) with
         | Some w => w
         | None => mkWarning (warningId ToString item) (prop "userId" item)
                             (prop "url" item) (prop "point" item) (prop "created" item)
         end)
      (filter passesShapeCheck data).
Proof.
  unfold nextWarnings. cbv zeta.
  induction data as [|item data IH]; cbn [flat_map filter map]; [reflexivity|].
  destruct (passesShapeCheck item); [|exact IH].
  cbn [app map]. now rewrite IH.
Qed.

Lemma prevById_None (prev : list Warning) (k : string) :
  Map_get k (Map_of (map (fun w => (w_id w, w)) prev)) = None ->
  ~ In k (map w_id prev).
Proof.
  rewrite Map_of_get. intros H Hin.
  apply in_map_iff in Hin. destruct Hin as (w & <- & Hw).
  destruct (find _ _) eqn:F; [discriminate|].
  assert (Hf : In (w_id w, w) (rev (map (fun w => (w_id w, w)) prev))).
  { apply in_rev. rewrite rev_involutive. apply in_map_iff. eauto. }
  pose proof (find_none _ _ F _ Hf) as Hn. cbn [fst] in Hn.
  now rewrite String.eqb_refl in Hn.
Qed.

Lemma prevById_Some (prev : list Warning) (k : string) (w : Warning) :
  Map_get k (Map_of (map (fun w => (w_id w, w)) prev)) = Some w ->
  In w prev /\ w_id w = k.
Proof.
  intros H. split; [|now apply prevById_id in H].
  apply Map_get_Some_In, Map_of_In, in_map_iff in H.
  destruct H as (w' & E & Hw). now injection E as _ <-.
Qed.

Lemma unique_by_id (l : list Warning) (w w' : Warning) :
  NoDup (map w_id l) -> In w l -> In w' l -> w_id w = w_id w' -> w = w'.
Proof.
  induction l as [|x l IH]; cbn [map]; intros ND Hw Hw' E; [destruct Hw|].
  inversion ND as [|? ? Hx ND']; subst.
  destruct Hw as [->|Hw], Hw' as [->|Hw'].
  - reflexivity.
  - exfalso. apply Hx. rewrite E. now apply in_map.
  - exfalso. apply Hx. rewrite <- E. now apply in_map.
  - now apply IH.
Qed.

Lemma prevById_unique (l : list Warning) (w : Warning) :
  NoDup (map w_id l) -> In w l ->
  Map_get (w_id w) (Map_of (map (fun w => (w_id w, w)) l)) = Some w.
Proof.
  intros ND Hw.
  destruct (Map_get _ _) as [w'|] eqn:E.
  - apply prevById_Some in E. destruct E as [Hw' E].
    f_equal. now apply (unique_by_id l).
  - apply prevById_None in E. exfalso. apply E. now apply in_map.
Qed.

(** An entry whose id is already on the map keeps its previous record,
    untouched: every marker of the next list is either one of the previous
    list, or is built from an entry of the feed whose id no previous marker
    has; and when the previous list has a marker with the id of an accepted
    entry, the fields the feed now reports for it are not read. *)
Theorem nextWarnings_keeps_known_markers (data : list JsVal) (prev : list Warning) :
  Forall (fun w =>
            In w prev \/
            (~ In (w_id w) (map w_id prev) /\
             exists item,
               In item data /\ passesShapeCheck item = true /\
               w = mkWarning (warningId ToString item) (prop "userId" item)
                             (prop "url" item) (prop "point" item)
                             (prop "created" item)))
         (nextWarnings ToString data prev) /\
  (forall item,
      In item data -> passesShapeCheck item = true ->
      In (warningId ToString item) (map w_id prev) ->
      exists w, In w prev /\ w_id w = warningId ToString item /\
                In w (nextWarnings ToString data prev)).
Proof.
  rewrite nextWarnings_as_map. split.
  - apply Forall_map, Forall_forall. intros item Hitem.
    apply filter_In in Hitem. destruct Hitem as [Hin Hpass].
    destruct (Map_get _ _) as [w|] eqn:E.
    + left. now apply prevById_Some in E.
    + right. apply prevById_None in E. split; [exact E|]. eauto.
  - intros item Hin Hpass Hknown.
    destruct (Map_get (warningId ToString item)
                      (Map_of (map (fun w => (w_id w, w)) prev))) as [w|] eqn:E.
    + destruct (prevById_Some _ _ _ E) as [Hw Hid].
      exists w. split; [exact Hw|]. split; [exact Hid|].
      apply in_map_iff. exists item. rewrite E. split; [reflexivity|].
      apply filter_In. auto.
    + apply prevById_None in E. contradiction.
Qed.

(** Polling the same response again changes nothing: when the accepted
    entries of the response have pairwise different ids, applying the
    updater a second time to its own result returns that result. *)
Theorem nextWarnings_stable (data : list JsVal) (prev : list Warning) :
  NoDup (map (warningId ToString) (filter passesShapeCheck data)) ->
  nextWarnings ToString data (nextWarnings ToString data prev) =
  nextWarnings ToString data prev.
Proof.
  intros ND.
  pose proof (nextWarnings_ids ToString data prev) as Hids.
  rewrite (nextWarnings_as_map data (nextWarnings ToString data prev)).
  etransitivity; [|symmetry; apply nextWarnings_as_map].
  apply map_ext_in. intros item Hitem.
  set (w := match Map_get (warningId ToString item)
                          (Map_of (map (fun w => (w_id w, w)) prev)) with
            | Some w => w
            | None => mkWarning (warningId ToString item) (prop "userId" item)
                                (prop "url" item) (prop "point" item)
                                (prop "created" item)
            end).
  assert (Hw : In w (nextWarnings ToString data prev)).
  { rewrite nextWarnings_as_map. apply in_map_iff. exists item. auto. }
  assert (Hid : w_id w = warningId ToString item).
  { unfold w. destruct (Map_get _ _) as [w0|] eqn:E; [|reflexivity].
    now apply prevById_id in E. }
  rewrite <- Hid.
  rewrite (prevById_unique (nextWarnings ToString data prev) w); [reflexivity| |exact Hw].
  now rewrite Hids.
Qed.

End SessionFacts.

Lemma nextWarnings_stable_witness :
  nextWarnings (fun _ => "x"%string)
    [JObj [("point"%string, JArr [JNum 1; JNum 2])]]
    (nextWarnings (fun _ => "x"%string)
       [JObj [("point"%string, JArr [JNum 1; JNum 2])]] []) =
  nextWarnings (fun _ => "x"%string)
    [JObj [("point"%string, JArr [JNum 1; JNum 2])]] [].
Proof.
  apply nextWarnings_stable.
  assert (H : passesShapeCheck (JObj [("point"%string, JArr [JNum 1; JNum 2])]) = true).
  { apply passesShapeCheck_iff. eexists. split; [reflexivity|].
    cbn. split; [reflexivity|]. apply Reqb_true. lra. }
  cbn [filter]. rewrite H. cbn [map]. repeat constructor. intros [].
Defined.

(** ** The word police, in any capitalisation *)

Lemma prefix_app (n h : string) :
  String.prefix n h = true <-> exists post, h = (n ++ post)%string.
Proof.
  revert h. induction n as [|a n IH]; intros h.
  - split; [intros _; now exists h|intros _; destruct h; reflexivity].
  - destruct h as [|b h]; cbn [String.prefix String.append].
    + split; [discriminate|intros [post E]; discriminate E].
    + destruct (ascii_dec a b) as [->|Hne].
      * rewrite IH. split; intros [post E]; exists post; congruence.
      * split; [discriminate|intros [post E]; congruence].
Qed.

Lemma includes_iff (n h : string) :
  includes n h = true <-> exists pre post, h = (pre ++ n ++ post)%string.
Proof.
  induction h as [|b h IH]; cbn [includes]; rewrite orb_true_iff, prefix_app.
  - split.
    + intros [[post E]|H]; [|discriminate]. now exists EmptyString, post.
    + intros (pre & post & E). left.
      destruct pre; [now exists post|discriminate].
  - rewrite IH. split.
    + intros [[post E]|(pre & post & E)].
      * now exists EmptyString, post.
      * exists (String b pre), post. cbn. now rewrite E.
    + intros (pre & post & E). destruct pre as [|a pre]; cbn in E.
      * left. now exists post.
      * right. exists pre, post. congruence.
Qed.

Lemma toLowerCase_app (a b : string) :
  toLowerCase (a ++ b) = (toLowerCase a ++ toLowerCase b)%string.
Proof. induction a as [|c a IH]; cbn; [reflexivity|now rewrite IH]. Qed.

Lemma toLowerCase_split (s a b : string) :
  toLowerCase s = (a ++ b)%string ->
  exists a' b', s = (a' ++ b')%string /\ toLowerCase a' = a /\ toLowerCase b' = b.
Proof.
  revert s. induction a as [|c a IH]; intros s E.
  - exists EmptyString, s. auto.
  - destruct s as [|d s]; [discriminate|]. cbn in E. injection E as Ec E.
    destruct (IH _ E) as (a' & b' & -> & Ha & Hb).
    exists (String d a'), b'. cbn. now rewrite Ha, Ec.
Qed.

Lemma includes_lower_iff (n s : string) :
  includes n (toLowerCase s) = true <->
  exists pre word post, s = (pre ++ word ++ post)%string /\ toLowerCase word = n.
Proof.
  rewrite includes_iff. split.
  - intros (pre & post & E).
    destruct (toLowerCase_split _ _ _ E) as (pre' & r & -> & _ & Hr).
    destruct (toLowerCase_split _ _ _ Hr) as (word & post' & -> & Hw & _).
    now exists pre', word, post'.
  - intros (pre & word & post & -> & <-).
    exists (toLowerCase pre), (toLowerCase post). now rewrite !toLowerCase_app.
Qed.

Lemma orString_empty_iff (value : option string) (s : string) :
  s <> EmptyString -> (orString value EmptyString = s <-> value = Some s).
Proof.
  intros Hs. unfold orString. destruct value as [v|].
  - destruct (String.eqb v EmptyString) eqn:E.
    + apply String.eqb_eq in E. subst v. split; [congruence|intros H; congruence].
    + split; congruence.
  - split; [congruence|discriminate].
Qed.

Lemma has_word_nonempty (pre word post n : string) :
  n <> EmptyString -> toLowerCase word = n -> (pre ++ word ++ post)%string <> EmptyString.
Proof.
  intros Hn Hw E. destruct pre; [|discriminate]. destruct word; [|discriminate].
  cbn in Hw. congruence.
Qed.

(** An alert counts as a police alert exactly when its [type] or its
    [subtype] contains the word police, in any capitalisation: the text is
    some prefix, a word that lower-cases to police, and some suffix. *)
Theorem isPoliceAlert_any_case (a : RawAlert) :
  isPoliceAlert a = true <->
  exists pre word post,
    toLowerCase word = "police"%string /\
    (ra_type a = Some (pre ++ word ++ post)%string \/
     ra_subtype a = Some (pre ++ word ++ post)%string).
Proof.
  unfold isPoliceAlert. cbv zeta. rewrite orb_true_iff, !includes_lower_iff.
  assert (Hn : "police"%string <> EmptyString) by discriminate.
  split.
  - intros [(pre & word & post & E & Hw)|(pre & word & post & E & Hw)];
      exists pre, word, post; (split; [exact Hw|]);
      apply orString_empty_iff in E; auto; now apply (has_word_nonempty _ _ _ _ Hn).
  - intros (pre & word & post & Hw & [E|E]); [left|right];
      exists pre, word, post; (split; [|exact Hw]);
      apply orString_empty_iff; auto; now apply (has_word_nonempty _ _ _ _ Hn).
Qed.

(** ** The speed-camera dataset *)

Lemma cut_app (c : ascii) (a b : string) :
  lacks c a = true -> cut c (a ++ String c b) = Some (a, b).
Proof.
  induction a as [|x a IH]; cbn [lacks String.append cut]; intros H.
  - now rewrite Ascii.eqb_refl.
  - apply andb_prop in H. destruct H as [Hx Ha].
    apply negb_true_iff in Hx. rewrite Hx, (IH Ha). reflexivity.
Qed.

Lemma cut_Some (c : ascii) (s before after : string) :
  cut c s = Some (before, after) ->
  s = (before ++ String c after)%string /\ lacks c before = true.
Proof.
  revert before. induction s as [|x s IH]; cbn [cut]; intros before H; [discriminate|].
  destruct (Ascii.eqb x c) eqn:E.
  - apply Ascii.eqb_eq in E. subst x. injection H as <- <-. auto.
  - destruct (cut c s) as [[b0 a0]|]; [|discriminate].
    injection H as <- <-. destruct (IH b0 eq_refl) as [-> Hl].
    cbn [lacks String.append]. rewrite E, Hl. auto.
Qed.

Lemma cut_None (c : ascii) (s : string) : cut c s = None -> lacks c s = true.
Proof.
  induction s as [|x s IH]; cbn [cut lacks]; intros H; [reflexivity|].
  destruct (Ascii.eqb x c); [discriminate|].
  destruct (cut c s) as [[b0 a0]|]; [discriminate|]. now rewrite IH.
Qed.

Lemma matchId_app (desc id tail : string) :
  lacks "["%char desc = true -> lacks "]"%char id = true -> id <> EmptyString ->
  matchId (desc ++ String "["%char (id ++ String "]"%char tail)) = Some id.
Proof.
  intros Hd Hi Hne.
  induction desc as [|x desc IH]; cbn [String.append matchId].
  - rewrite Ascii.eqb_refl, (cut_app _ _ _ Hi). destruct id; [contradiction|reflexivity].
  - cbn [lacks] in Hd. apply andb_prop in Hd. destruct Hd as [Hx Hd].
    apply negb_true_iff in Hx. rewrite Hx. now apply IH.
Qed.

(** A match has the form the pattern asks for: some text, an opening
    bracket, the group, a closing bracket; the group is not empty and holds
    no closing bracket. *)
Lemma matchId_Some (s group : string) :
  matchId s = Some group ->
  group <> EmptyString /\ lacks "]"%char group = true /\
  exists before after,
    s = (before ++ String "["%char (group ++ String "]"%char after))%string.
Proof.
  induction s as [|x s IH]; cbn [matchId]; intros H; [discriminate|].
  assert (K : matchId s = Some group ->
              group <> EmptyString /\ lacks "]"%char group = true /\
              exists before after,
                String x s =
                (before ++ String "["%char (group ++ String "]"%char after))%string).
  { intros H'. destruct (IH H') as (Hne & Hl & before & after & ->).
    split; [exact Hne|]. split; [exact Hl|]. now exists (String x before), after. }
  destruct (Ascii.eqb x "["%char) eqn:E; [|now apply K].
  apply Ascii.eqb_eq in E. subst x.
  destruct (cut "]"%char s) as [[[|g grp] after]|] eqn:C; [now apply K| |now apply K].
  injection H as <-. apply cut_Some in C. destruct C as [-> Hl].
  split; [discriminate|]. split; [exact Hl|]. now exists EmptyString, after.
Qed.

Section SpeedRadarCsvFacts.
Variable Number : string -> option R.

(** A row in the format of the dataset,
    [lng,lat,<desc>[<id>]<anything>], is read as the point with that id,
    the second field as latitude and the first as longitude, and the
    description trimmed and without its surrounding quotes. *)
Theorem parseLine_reads_row (lngField latField desc id tail : string) (x y : R) :
  lacks ","%char lngField = true -> lacks ","%char latField = true ->
  lacks "["%char desc = true -> lacks "]"%char id = true -> id <> EmptyString ->
  Number (trim lngField) = Some x -> Number (trim latField) = Some y ->
  parseLine Number
    (lngField ++ String ","%char
       (latField ++ String ","%char
          (desc ++ String "["%char (id ++ String "]"%char tail)))) =
  Some (mkRadar (trim id) y x
                (if (startsWithQuote (trim desc) && endsWithQuote (trim desc))%bool
                 then sliceInner (trim desc) else trim desc)).
Proof.
  intros H1 H2 H3 H4 H5 Hx Hy. unfold parseLine.
  rewrite (cut_app _ _ _ H1), (cut_app _ _ _ H2). cbv zeta.
  rewrite Hx, Hy, (matchId_app _ _ _ H3 H4 H5), (cut_app _ _ _ H3). reflexivity.
Qed.

(** Conversely, a line gives a point only when it has two commas, both
    fields before them are read by [Number] as finite numbers, and a
    bracketed, non-empty id follows; the point's id is that id, trimmed,
    and its coordinates are the two numbers, longitude first. *)
Theorem parseLine_only_rows (line : string) (p : RadarPoint) :
  parseLine Number line = Some p ->
  exists lngField latField before group after,
    line = (lngField ++ String ","%char
              (latField ++ String ","%char
                 (before ++ String "["%char (group ++ String "]"%char after))))%string /\
    lacks ","%char lngField = true /\ lacks ","%char latField = true /\
    group <> EmptyString /\ lacks "]"%char group = true /\
    Number (trim lngField) = Some (rp_lng p) /\
    Number (trim latField) = Some (rp_lat p) /\
    rp_id p = trim group.
Proof.
  unfold parseLine. intros H.
  destruct (cut ","%char line) as [[lngField afterFirst]|] eqn:C1; [|discriminate].
  destruct (cut ","%char afterFirst) as [[latField rest]|] eqn:C2; [|discriminate].
  cbv zeta in H.
  destruct (Number (trim latField)) as [lat0|] eqn:Ny; [|discriminate].
  destruct (Number (trim lngField)) as [lng0|] eqn:Nx; [|discriminate].
  destruct (matchId rest) as [group|] eqn:M; [|discriminate].
  injection H as <-. cbn [rp_lng rp_lat rp_id].
  apply cut_Some in C1, C2. destruct C1 as [-> L1], C2 as [-> L2].
  destruct (matchId_Some _ _ M) as (Hne & Hl & before & after & ->).
  exists lngField, latField, before, group, after. auto 10.
Qed.

Lemma byId_entries (points : list RadarPoint) :
  Forall (fun e => fst e = rp_id (snd e))
         (Map_of (map (fun p => (rp_id p, p)) points)).
Proof.
  apply Forall_forall. intros e He. apply Map_of_In in He.
  apply in_map_iff in He. destruct He as (p & <- & _). reflexivity.
Qed.

(** The parsed dataset has one point per id: ids are pairwise different;
    every point comes from a line of the text; every line that gives a
    point has its id in the result; and under each id the result holds the
    point of the last line that carries it. *)
Theorem parseSpeedRadarCsv_one_point_per_id (text : string) :
  NoDup (map rp_id (parseSpeedRadarCsv Number text)) /\
  (forall p, In p (parseSpeedRadarCsv Number text) ->
             exists line, In line (csvLines text) /\ parseLine Number line = Some p) /\
  (forall line p, In line (csvLines text) -> parseLine Number line = Some p ->
                  In (rp_id p) (map rp_id (parseSpeedRadarCsv Number text))) /\
  (forall k,
      find (fun q => String.eqb k (rp_id q)) (parseSpeedRadarCsv Number text) =
      find (fun q => String.eqb k (rp_id q))
           (rev (flat_map (fun line => match parseLine Number line with
                                       | Some p => [p]
                                       | None => []
                                       end)
                          (csvLines text)))).
Proof.
  unfold parseSpeedRadarCsv. cbv zeta. fold (csvLines text).
  set (points := flat_map _ (csvLines text)).
  assert (Hpts : forall p, In p points <->
                           exists line, In line (csvLines text) /\
                                        parseLine Number line = Some p).
  { intros p. unfold points. rewrite in_flat_map. split.
    - intros (line & Hl & Hp). exists line. split; [exact Hl|].
      destruct (parseLine Number line) as [q|]; [|destruct Hp].
      destruct Hp as [->|[]]. reflexivity.
    - intros (line & Hl & Hp). exists line. split; [exact Hl|].
      rewrite Hp. now left. }
  pose proof (byId_entries points) as HE.
  split; [|split; [|split]].
  - rewrite (keys_of_values rp_id _ HE). apply Map_of_NoDup.
  - intros p Hp. apply Hpts.
    unfold Map_values in Hp. apply in_map_iff in Hp. destruct Hp as ([k q] & <- & He).
    apply Map_of_In, in_map_iff in He. destruct He as (p' & E & Hp').
    now injection E as _ <-.
  - intros line p Hl Hp.
    assert (Hin : In p points) by (apply Hpts; eauto).
    destruct (find (fun q => String.eqb (rp_id p) (rp_id q))
                   (Map_values (Map_of (map (fun p => (rp_id p, p)) points))))
      as [q|] eqn:F.
    + apply find_some in F. destruct F as [Hq E]. apply String.eqb_eq in E.
      rewrite E. now apply in_map.
    + rewrite (find_values_by_key rp_id _ _ HE), Map_of_get in F.
      destruct (find _ (rev _)) eqn:F'; [discriminate|].
      exfalso.
      assert (Hr : In (rp_id p, p) (rev (map (fun p => (rp_id p, p)) points))).
      { apply in_rev. rewrite rev_involutive. apply in_map_iff. eauto. }
      pose proof (find_none _ _ F' _ Hr) as Hn. cbn [fst] in Hn.
      now rewrite String.eqb_refl in Hn.
  - intros k. rewrite (find_values_by_key rp_id k _ HE), Map_of_get, <- map_rev.
    induction (rev points) as [|q l IH]; cbn; [reflexivity|].
    destruct (String.eqb k (rp_id q)); [reflexivity|exact IH].
Qed.

End SpeedRadarCsvFacts.

Lemma parseLine_reads_row_witness :
  parseLine (fun s => if String.eqb s "26.1" then Some 26.1
                      else if String.eqb s "44.4" then Some 44.4 else None)
            "26.1, 44.4,Main St [RO-17]" =
  Some (mkRadar "RO-17" 44.4 26.1 "Main St").
Proof.
  apply (parseLine_reads_row
           (fun s => if String.eqb s "26.1" then Some 26.1
                     else if String.eqb s "44.4" then Some 44.4 else None)
           "26.1" " 44.4" "Main St " "RO-17" EmptyString 26.1 44.4);
    solve [reflexivity | discriminate].
Defined.

Lemma parseLine_only_rows_witness :
  exists lngField latField before group after,
    "26.1, 44.4,Main St [RO-17]"%string =
    (lngField ++ String ","%char
       (latField ++ String ","%char
          (before ++ String "["%char (group ++ String "]"%char after))))%string /\
    lacks ","%char lngField = true /\ lacks ","%char latField = true /\
    group <> EmptyString /\ lacks "]"%char group = true /\
    (fun s => if String.eqb s "26.1" then Some 26.1
              else if String.eqb s "44.4" then Some 44.4 else None) (trim lngField)
    = Some (rp_lng (mkRadar "RO-17" 44.4 26.1 "Main St")) /\
    (fun s => if String.eqb s "26.1" then Some 26.1
              else if String.eqb s "44.4" then Some 44.4 else None) (trim latField)
    = Some (rp_lat (mkRadar "RO-17" 44.4 26.1 "Main St")) /\
    rp_id (mkRadar "RO-17" 44.4 26.1 "Main St") = trim group.
Proof.
  apply (parseLine_only_rows
           (fun s => if String.eqb s "26.1" then Some 26.1
                     else if String.eqb s "44.4" then Some 44.4 else None)
           "26.1, 44.4,Main St [RO-17]" (mkRadar "RO-17" 44.4 26.1 "Main St")).
  reflexivity.
Defined.

(** ** One request per span *)

(** The plan holds one request box per longitudinal span, whatever zoom
    the planner settles on: two when the normalised east edge is west of
    the normalised west edge (the viewport crosses the antimeridian), and
    one otherwise; [buildWazeAlertsUrlsFromBoxes] turns each into one
    request carrying the environment tag, or [na] when the tag is empty. *)
Theorem one_request_per_span (b : Bounds) (zoom : R) (env : string) :
  let plan := buildWazeTileSnappedQuery (Some b) zoom in
  let urls := buildWazeAlertsUrlsFromBoxes (requestBoxes plan) env in
  length urls = length (requestBoxes plan) /\
  (normalizeLng (getEast b) < normalizeLng (getWest b) ->
   length (requestBoxes plan) = 2%nat) /\
  (normalizeLng (getWest b) <= normalizeLng (getEast b) ->
   length (requestBoxes plan) = 1%nat) /\
  Forall (fun r => rq_env r = if String.eqb env EmptyString then "na"%string else env)
         urls.
Proof.
  intros plan urls.
  split; [apply length_map|].
  unfold plan. rewrite requestBoxes_per_span. unfold spansOf.
  split; [|split].
  - intros H. apply Rltb_true in H. now rewrite H.
  - intros H. apply Rltb_false in H. now rewrite H.
  - unfold urls, buildWazeAlertsUrlsFromBoxes. apply Forall_map, Forall_forall.
    intros r _. reflexivity.
Qed.

(** ** Only the last query key is remembered *)

(** A cycle that is neither in a cooldown nor throttled, and whose key is
    not the stored one, stores its key and issues its requests. *)
Lemma run_start_fresh (now : R) (wazeEnvMode : string) (mapBounds : Bounds)
      (mapZoom : R) (st : PoliceState) :
  policeBackoffUntil st <= now ->
  MIN_WAZE_FETCH_INTERVAL_MS <= now - policeLastFetchAt st ->
  sameKey (cycleQueryKey wazeEnvMode mapBounds mapZoom) (policeLastQueryKey st) = false ->
  run_start now wazeEnvMode mapBounds mapZoom st =
  Awaiting (setLastQueryKey (Some (cycleQueryKey wazeEnvMode mapBounds mapZoom))
              (setPoliceError NoError (setPoliceLoading true st)))
           (cycleRequests wazeEnvMode mapBounds mapZoom).
Proof.
  intros Hb Ht Hk. unfold run_start.
  apply Rltb_false in Hb. apply Rltb_false in Ht. rewrite Hb, Ht. cbv zeta.
  cbn [policeLastQueryKey setPoliceError setPoliceLoading].
  fold (cycleEnv wazeEnvMode mapBounds).
  fold (cycleQueryKey wazeEnvMode mapBounds mapZoom).
  now rewrite Hk.
Qed.

(** What a cycle that reaches its requests has done. *)
Lemma run_start_Awaiting (now : R) (wazeEnvMode : string) (mapBounds : Bounds)
      (mapZoom : R) (st st1 : PoliceState) (requests : list Request) :
  run_start now wazeEnvMode mapBounds mapZoom st = Awaiting st1 requests ->
  st1 = setLastQueryKey (Some (cycleQueryKey wazeEnvMode mapBounds mapZoom))
          (setPoliceError NoError (setPoliceLoading true st)) /\
  requests = cycleRequests wazeEnvMode mapBounds mapZoom.
Proof.
  unfold run_start.
  destruct (Rltb now (policeBackoffUntil st)); [discriminate|].
  destruct (Rltb (now - policeLastFetchAt st) MIN_WAZE_FETCH_INTERVAL_MS); [discriminate|].
  cbv zeta. destruct (sameKey _ _); [discriminate|].
  intros H. injection H as <- <-. split; reflexivity.
Qed.

Lemma stored_key_blocks (now : R) (wazeEnvMode : string) (mapBounds : Bounds)
      (mapZoom : R) (st : PoliceState) :
  policeLastQueryKey st = Some (cycleQueryKey wazeEnvMode mapBounds mapZoom) ->
  issuedRequests (run_start now wazeEnvMode mapBounds mapZoom st) = [].
Proof.
  intros HK. unfold run_start.
  destruct (Rltb now _); [reflexivity|].
  destruct (Rltb (now - _) _); [reflexivity|].
  cbv zeta. cbn [policeLastQueryKey setPoliceError setPoliceLoading].
  fold (cycleEnv wazeEnvMode mapBounds).
  fold (cycleQueryKey wazeEnvMode mapBounds mapZoom).
  now rewrite HK, sameKey_refl.
Qed.

(** Deduplication looks at one key only, the one stored last.  A cycle
    that issues requests stores the key of its view; from any state that
    still holds that key, a cycle for the same bounds, zoom and mode issues
    no request, whenever it starts; from a state that holds another key (a
    cycle for another view or mode has run in between), and outside
    cooldown and throttle, it issues the same requests again. *)
Theorem only_last_key_remembered (now : R) (wazeEnvMode : string)
        (mapBounds : Bounds) (mapZoom : R) (st st1 : PoliceState)
        (requests : list Request) :
  run_start now wazeEnvMode mapBounds mapZoom st = Awaiting st1 requests ->
  policeLastQueryKey st1 = Some (cycleQueryKey wazeEnvMode mapBounds mapZoom) /\
  requests = cycleRequests wazeEnvMode mapBounds mapZoom /\
  (forall now' st2,
      policeLastQueryKey st2 = Some (cycleQueryKey wazeEnvMode mapBounds mapZoom) ->
      issuedRequests (run_start now' wazeEnvMode mapBounds mapZoom st2) = []) /\
  (forall now' st2,
      policeBackoffUntil st2 <= now' ->
      2500 <= now' - policeLastFetchAt st2 ->
      sameKey (cycleQueryKey wazeEnvMode mapBounds mapZoom) (policeLastQueryKey st2)
      = false ->
      issuedRequests (run_start now' wazeEnvMode mapBounds mapZoom st2) = requests).
Proof.
  intros H. apply run_start_Awaiting in H. destruct H as [-> ->].
  split; [reflexivity|]. split; [reflexivity|]. split.
  - intros now' st2 HK. now apply stored_key_blocks.
  - intros now' st2 Hb Ht Hk. now rewrite run_start_fresh.
Qed.

Lemma requestBoxes_nonempty (b : Bounds) (zoom : R) :
  requestBoxes (buildWazeTileSnappedQuery (Some b) zoom) <> [].
Proof.
  intros E. pose proof (requestBoxes_per_span b zoom) as H.
  rewrite E in H. unfold spansOf in H. destruct (Rltb _ _); discriminate H.
Qed.

Lemma cycleRequests_nonempty (wazeEnvMode : string) (b : Bounds) (zoom : R) :
  cycleRequests wazeEnvMode b zoom <> [].
Proof.
  unfold cycleRequests, buildWazeAlertsUrlsFromBoxes. intros E.
  apply map_eq_nil in E. now apply requestBoxes_nonempty in E.
Qed.

Lemma other_env_other_key (mode mode' : string) (b : Bounds) (zoom : R) :
  String.eqb (cycleEnv mode b) (cycleEnv mode' b) = false ->
  sameKey (cycleQueryKey mode b zoom) (Some (cycleQueryKey mode' b zoom)) = false.
Proof.
  intros H. unfold sameKey, cycleQueryKey. cbn [qk_boxes qk_env].
  rewrite H. apply andb_false_r.
Qed.

(** The modes [na], [row], [na] on one view: the second [na] cycle finds
    the key of [row] stored and fetches again what the first one
    fetched. *)
Lemma only_last_key_remembered_witness :
  exists st1 requests,
    run_start 10000 "na" (mkBounds 44 26 45 27) 12
              (mkPolice 0 0 None [] false NoError None) = Awaiting st1 requests /\
    issuedRequests (run_start 20000 "na" (mkBounds 44 26 45 27) 12 st1) = [] /\
    issuedRequests
      (run_start 30000 "na" (mkBounds 44 26 45 27) 12
         (stateAfterStart (run_start 20000 "row" (mkBounds 44 26 45 27) 12 st1)))
    = requests /\
    requests <> [].
Proof.
  assert (E : run_start 10000 "na" (mkBounds 44 26 45 27) 12
                        (mkPolice 0 0 None [] false NoError None) =
              Awaiting
                (setLastQueryKey (Some (cycleQueryKey "na" (mkBounds 44 26 45 27) 12))
                   (setPoliceError NoError
                      (setPoliceLoading true (mkPolice 0 0 None [] false NoError None))))
                (cycleRequests "na" (mkBounds 44 26 45 27) 12)).
  { apply run_start_fresh; unfold MIN_WAZE_FETCH_INTERVAL_MS;
      cbn [policeBackoffUntil policeLastFetchAt policeLastQueryKey sameKey];
      [lra|lra|reflexivity]. }
  eexists. eexists. split; [exact E|].
  destruct (only_last_key_remembered _ _ _ _ _ _ _ E) as (HK & _ & Hsame & Hagain).
  split; [now apply Hsame|]. split; [|apply cycleRequests_nonempty].
  rewrite (run_start_fresh 20000 "row").
  - apply Hagain; cbn [stateAfterStart policeBackoffUntil policeLastFetchAt
                        policeLastQueryKey setLastQueryKey setPoliceError
                        setPoliceLoading]; [lra|lra|].
    now apply other_env_other_key.
  - cbn [policeBackoffUntil setLastQueryKey setPoliceError setPoliceLoading]. lra.
  - unfold MIN_WAZE_FETCH_INTERVAL_MS.
    cbn [policeLastFetchAt setLastQueryKey setPoliceError setPoliceLoading]. lra.
  - cbn [policeLastQueryKey setLastQueryKey]. now apply other_env_other_key.
Defined.

(** ** A 429 behind another failure *)

